(** * Wireless and 5G course simulations: the numeric core, verified

    A shallow embedding of the numeric engine behind the simulators
    (Erlang-B traffic model, Doppler kinematics, multipath geometry, the
    handoff state machine, the trunking occupancy simulator and the
    signal-recovery pipeline), followed by the properties proved about it.

    Numbers.  The TypeScript sources compute with [number]; the embedding
    reads every arithmetic operation as the exact operation on the real
    numbers [R] ([Math.sqrt] as [sqrt], [Math.log10 x] as [ln x / ln 10],
    [Math.pow 10 y] as [Rpower 10 y], [Math.acos] as [acos]), so rounding
    and overflow are outside the model.  Where an operation of the source
    has no real value on an input the program can supply (the logarithm
    of a random draw of 0 in the noise stage gives -Infinity, and NaN
    after the multiplication by a noise level of 0), the embedded
    function returns [None].  Integer quantities that the sources use as
    loop bounds or array indices (channel counts, samples per symbol, tap
    delays) are [Z] or [nat].

    Surroundings.  Calls of [Math.random()], [Date.now()] and
    [toLocaleTimeString()] become explicit arguments of the step functions.
    React state is a record; a timer callback or a button handler is a
    function from the record it sees to the record after its queued
    updates are applied, and returns [None] where the source throws or
    does not return.  A value that a timer callback reads from the closure
    of an earlier render, not from the current state, is an argument of
    its own.  The
    complex numbers and the transforms [math.fft] / [math.ifft] of the
    numeric library are modelled by their definitions: the discrete
    Fourier transform and its inverse. *)

From Stdlib Require Import Reals Lra Lia ZArith Bool Ascii String List.
From Stdlib Require Import Sorting.Sorted Sorting.Permutation.
Import ListNotations.
Open Scope R_scope.

(* ================================================================== *)
(** * Part I: the embedding *)
(* ================================================================== *)

(** ** Shared notions *)

(** The sum of a list of numbers. *)
Definition Rlist_sum (l : list R) : R := fold_right Rplus 0 l.

(** ** utils/math: Erlang B *)

Module ErlangMath.

(** The body of [for (let i = 1; i <= c; i++) b = (a * b) / (i + a * b)]:
    [n] iterations remain, the loop variable is [i], the accumulator [b]. *)
Fixpoint erlang_for (a : R) (n : nat) (i : nat) (b : R) : R :=
  match n with
  | O => b
  | S n' => erlang_for a n' (S i) ((a * b) / (INR i + a * b))
  end.

(** [calculateErlangB(c, a)]: the loop runs for i = 1 .. c, that is
    [Z.to_nat c] times (not at all when [c <= 0]). *)
Definition calculateErlangB (c : Z) (a : R) : R :=
  if Req_dec_T a 0 then 0
  else erlang_for a (Z.to_nat c) 1%nat 1.

(** The recurrence of the doc comment: B(0) = 1,
    B(c) = a B(c-1) / (c + a B(c-1)). *)
Fixpoint erlangRec (a : R) (c : nat) : R :=
  match c with
  | O => 1
  | S c' => (a * erlangRec a c') / (INR (S c') + a * erlangRec a c')
  end.

(** [probs[i] = v] on an array without holes: an index inside the array
    is overwritten and the index just past its end extends it (indices
    further out do not occur in this file). *)
Fixpoint write_at (i : nat) (v : R) (probs : list R) : list R :=
  match probs, i with
  | [], _ => [v]
  | _ :: rest, O => v :: rest
  | p :: rest, S i' => p :: write_at i' v rest
  end.

(** The loop of [calculateStateProbabilities]: [n] iterations remain, the
    loop variable is [i]; the result is the final [sum] and [probs]. *)
Fixpoint state_for (a : R) (n i : nat) (current sum : R) (probs : list R)
  : R * list R :=
  match n with
  | O => (sum, probs)
  | S n' =>
      let current' := (current * a) / INR i in
      state_for a n' (S i) current' (sum + current')
                (write_at i current' probs)
  end.

(** [calculateStateProbabilities(c, a)]; [None] when [new Array(c + 1)]
    throws (c + 1 < 0). *)
Definition calculateStateProbabilities (c : Z) (a : R) : option (list R) :=
  if (c + 1 <? 0)%Z then None
  else
    let probs0 := repeat 0 (Z.to_nat (c + 1)) in
    let current := 1 in
    let probs1 := write_at 0 current probs0 in
    let sum1 := 0 + current in
    let '(sum, probs) :=
      state_for a (Z.to_nat c) 1 current sum1 probs1 in
    Some (map (fun p => p / sum) probs).

(** The unnormalised weight A^i / i! of state [i]. *)
Definition state_weight (a : R) (i : nat) : R := a ^ i / INR (fact i).

End ErlangMath.

(** ** DopplerSimulator *)

Module Doppler.

Definition C : R := 3e8.
Definition CANVAS_WIDTH : R := 800.
Definition CANVAS_HEIGHT : R := 400.
Definition ROAD_Y : R := 320.
Definition TOWER_X : R := CANVAS_WIDTH / 2.
Definition TOWER_Y : R := 60.

(** The object returned by [calculatePhysics]. *)
Record Physics : Type := mkPhysics {
  v_ms : R;
  lambda : R;
  thetaDeg : R;
  deltaF : R;
  distance : R;
  cosTheta : R
}.

(** The horizontal offset from the car to the tower, [TOWER_X - carX]. *)
Definition offset_dx (carX : R) : R := TOWER_X - carX.

Definition calculatePhysics (carX vKmH fGHz : R) : Physics :=
  let v_ms := vKmH * (5 / 18) in
  let f_Hz := fGHz * 1e9 in
  let lambda := C / f_Hz in
  let dx := TOWER_X - carX in
  let dy := TOWER_Y - ROAD_Y in
  let d := sqrt (dx * dx + dy * dy) in
  let cosTheta := dx / d in
  let thetaRad := acos cosTheta in
  let thetaDeg := thetaRad * (180 / PI) in
  let deltaF := (v_ms / lambda) * cosTheta in
  {| v_ms := v_ms; lambda := lambda; thetaDeg := thetaDeg;
     deltaF := deltaF; distance := d; cosTheta := cosTheta |}.

(** The position update of one animation frame:
    [carXRef.current += moveStep], looping back to -50 past the right
    edge; unchanged while paused. *)
Definition advance_car (isPlaying : bool) (velocityKmH carX : R) : R :=
  if isPlaying then
    let speedScale := 5 in
    let v_ms := velocityKmH * (5 / 18) in
    let moveStep := (v_ms / 60) * speedScale in
    let x := carX + moveStep in
    if Rgt_dec x (CANVAS_WIDTH + 50) then -50 else x
  else carX.

(** The position updates of [n] animation frames in a row. *)
Fixpoint animate_frames (n : nat) (isPlaying : bool) (velocityKmH : R)
    (carX : R) : R :=
  match n with
  | O => carX
  | S m => animate_frames m isPlaying velocityKmH
             (advance_car isPlaying velocityKmH carX)
  end.

End Doppler.

(** ** MultipathSimulator *)

Module Multipath.

Record Point : Type := mkPoint { x : R; y : R }.

(** [interface Building extends Point { id: number }]. *)
Record Building : Type := mkBuilding { b_x : R; b_y : R; b_id : nat }.

(** The [id] of a path: the string ["LOS"], or ["NLOS k"] for the k-th
    building (k counted from 1). *)
Inductive PathId : Type :=
| LOS : PathId
| NLOS : nat -> PathId.

Record Path : Type := mkPath {
  id : PathId;
  delay : R;
  amplitude : R;
  color : string
}.

Definition CANVAS_WIDTH : R := 800.
Definition CANVAS_HEIGHT : R := 400.
Definition TX_POS : Point := {| x := 100; y := 100 |}.
Definition ROAD_Y : R := 350.
Definition C : R := 300.
(** [GAMMA = 2.0]: [Math.pow(d, GAMMA)] is the square [d ^ 2]. *)
Definition GAMMA : nat := 2.
Definition REFLECTION_COEFF : R := 0.5.

(** [Math.sqrt(Math.pow(q.x - p.x, 2) + Math.pow(q.y - p.y, 2))]. *)
Definition dist (px py qx qy : R) : R :=
  sqrt ((qx - px) ^ 2 + (qy - py) ^ 2).

(** The order the comparator [(a, b) => a.delay - b.delay] sorts by. *)
Definition delay_le (p q : Path) : Prop := delay p <= delay q.

(** [paths.sort((a, b) => a.delay - b.delay)]: the sort of ECMAScript is
    stable, so a path stays in front of the later paths of equal delay.
    [insert_path p l] places [p] in front of the first path of [l] whose
    delay is not smaller. *)
Fixpoint insert_path (p : Path) (l : list Path) : list Path :=
  match l with
  | [] => [p]
  | q :: l' =>
      if Rle_dec (delay p) (delay q) then p :: q :: l'
      else q :: insert_path p l'
  end.

Fixpoint sort_by_delay (l : list Path) : list Path :=
  match l with
  | [] => []
  | p :: l' => insert_path p (sort_by_delay l')
  end.

Section Geometry.

(** The transmitter position and the reflection coefficient are constants
    of the component ([TX_POS], [REFLECTION_COEFF]); the computation is
    written once for any value of them and instantiated below. *)
Variable tx : Point.
Variable reflection_coeff : R.

Definition los_distance (rxPos : Point) : R :=
  dist (x tx) (y tx) (x rxPos) (y rxPos).

Definition los_path (rxPos : Point) : Path :=
  let d0 := los_distance rxPos in
  let tau0 := d0 / C in
  let a0 := 1000 / d0 ^ GAMMA in
  {| id := LOS; delay := tau0; amplitude := a0; color := "#10b981" |}.

Definition nlos_distance (rxPos : Point) (b : Building) : R :=
  let d_tx_b := dist (x tx) (y tx) (b_x b) (b_y b) in
  let d_b_rx := dist (b_x b) (b_y b) (x rxPos) (y rxPos) in
  d_tx_b + d_b_rx.

Definition nlos_path (rxPos : Point) (idx : nat) (b : Building) : Path :=
  let di := nlos_distance rxPos b in
  let taui := di / C in
  let ai := (1000 * reflection_coeff) / di ^ GAMMA in
  {| id := NLOS (idx + 1); delay := taui; amplitude := ai;
     color := "#f43f5e" |}.

(** [buildings.forEach((b, idx) => paths.push(...))], from index [idx]. *)
Fixpoint nlos_paths (rxPos : Point) (idx : nat) (buildings : list Building)
  : list Path :=
  match buildings with
  | [] => []
  | b :: bs => nlos_path rxPos idx b :: nlos_paths rxPos (S idx) bs
  end.

Definition unsorted_paths (rxPos : Point) (buildings : list Building)
  : list Path :=
  los_path rxPos :: nlos_paths rxPos 0 buildings.

Definition multipathPaths (rxPos : Point) (buildings : list Building)
  : list Path :=
  sort_by_delay (unsorted_paths rxPos buildings).

End Geometry.

(** The memoised [multipathData] of the component. *)
Definition multipathData (rxPos : Point) (buildings : list Building)
  : list Path :=
  multipathPaths TX_POS REFLECTION_COEFF rxPos buildings.

(** [rxPos = { x: rxX, y: ROAD_Y }] and the initial buildings. *)
Definition rxPos_of (rxX : R) : Point := {| x := rxX; y := ROAD_Y |}.

Definition initial_buildings : list Building :=
  [ {| b_x := 300; b_y := 200; b_id := 1 |};
    {| b_x := 500; b_y := 150; b_id := 2 |};
    {| b_x := 650; b_y := 250; b_id := 3 |} ].

(** The receiver update of the simulation loop:
    [next = prev + 2; return next > CANVAS_WIDTH - 100 ? 100 : next]. *)
Definition step_rx (prev : R) : R :=
  let next := prev + 2 in
  if Rgt_dec next (CANVAS_WIDTH - 100) then 100 else next.

Fixpoint steps_rx (n : nat) (rxX : R) : R :=
  match n with
  | O => rxX
  | S m => steps_rx m (step_rx rxX)
  end.

(** [Math.max(...l)] and [Math.min(...l)]; [None] stands for the
    -Infinity and +Infinity of an empty argument list. *)
Fixpoint max_of (l : list R) : option R :=
  match l with
  | [] => None
  | v :: rest =>
      match max_of rest with
      | None => Some v
      | Some m => Some (Rmax v m)
      end
  end.

Fixpoint min_of (l : list R) : option R :=
  match l with
  | [] => None
  | v :: rest =>
      match min_of rest with
      | None => Some v
      | Some m => Some (Rmin v m)
      end
  end.

(** The displayed delay spread,
    [Math.max(...paths.map(p => p.delay)) - Math.min(...)], for a
    non-empty path list. *)
Definition delay_spread (paths : list Path) : option R :=
  match max_of (map delay paths), min_of (map delay paths) with
  | Some M, Some m => Some (M - m)
  | _, _ => None
  end.

(** [handleMouseDown]: the id of the first building whose 50 x 50 box
    holds the pointer position (x, y), if any. *)
Definition clicked_box (px py : R) (b : Building) : bool :=
  (if Rge_dec px (b_x b - 25) then true else false) &&
  (if Rle_dec px (b_x b + 25) then true else false) &&
  (if Rge_dec py (b_y b - 25) then true else false) &&
  (if Rle_dec py (b_y b + 25) then true else false).

Definition handleMouseDown (px py : R) (buildings : list Building)
    (draggedBuildingId : option nat) : option nat :=
  match find (clicked_box px py) buildings with
  | Some clickedBuilding => Some (b_id clickedBuilding)
  | None => draggedBuildingId
  end.

(** [handleMouseMove]: the dragged building follows the pointer. *)
Definition handleMouseMove (draggedBuildingId : option nat) (px py : R)
    (buildings : list Building) : list Building :=
  match draggedBuildingId with
  | None => buildings
  | Some dragged =>
      map (fun b => if Nat.eqb (b_id b) dragged
                    then {| b_x := px; b_y := py; b_id := b_id b |}
                    else b)
          buildings
  end.

End Multipath.

(** ** PropagationSimulator: path loss and the handoff state machine *)

Module Handoff.

Inductive Environment : Type := urban | highway.
Inductive HandoffMode : Type := threshold | hysteresis.
(** [activeBS : 1 | 2]. *)
Inductive BaseStation : Type := BS1 | BS2.
(** The [type] of a recorded event: ['handoff'] or ['drop']. *)
Inductive EventKind : Type := handoff | drop.

Record HandoffEvent : Type := mkEvent { pos : R; type : EventKind }.

(** The React state of the component. *)
Record State : Type := mkState {
  ueSpeed : R;
  handoffMode : HandoffMode;
  thresholdMargin : R;
  hysteresisMargin : R;
  environment : Environment;
  uePosition : R;
  isMoving : bool;
  activeBS : BaseStation;
  handoffEvents : list HandoffEvent;
  isPingPonging : bool;
  handoffInLastTick : bool
}.

Definition P_TX : R := 30.
Definition P_MIN : R := -90.
Definition BS1_POS : R := 0.

Definition TOTAL_DIST (env : Environment) : R :=
  match env with urban => 1000 | highway => 10000 end.
Definition BS2_POS (env : Environment) : R := TOTAL_DIST env.
Definition gamma (env : Environment) : R :=
  match env with urban => 4.0 | highway => 3.0 end.

(** [Math.log10]. *)
Definition log10 (v : R) : R := ln v / ln 10.

(** [calculateSignal(d, env, noiseScale = 0)]; [rnd] is the value of the
    call of [Math.random()] made when [noiseScale > 0]. *)
Definition calculateSignal (d : R) (env : Environment) (noiseScale : R)
    (rnd : R) : R :=
  let currentGamma := match env with urban => 4.0 | highway => 3.0 end in
  let dist := Rmax d 1 in
  let baseSignal := P_TX - 10 * currentGamma * log10 dist in
  if Rlt_dec 0 noiseScale then
    baseSignal + (rnd * noiseScale - noiseScale / 2)
  else baseSignal.

(** The memoised [theoreticalHOPoint]. *)
Definition theoreticalHOPoint (st : State) : R :=
  let env := environment st in
  match handoffMode st with
  | hysteresis =>
      let factor := Rpower 10 (hysteresisMargin st / (10 * gamma env)) in
      (TOTAL_DIST env * factor) / (1 + factor)
  | threshold =>
      Rpower 10 ((P_TX - P_MIN - thresholdMargin st) / (10 * gamma env))
  end.

(** State setters, as queued by the timer callback. *)
Definition set_boundary (st : State) : State :=
  {| ueSpeed := ueSpeed st; handoffMode := handoffMode st;
     thresholdMargin := thresholdMargin st;
     hysteresisMargin := hysteresisMargin st;
     environment := environment st;
     uePosition := TOTAL_DIST (environment st);
     isMoving := false;
     activeBS := activeBS st;
     handoffEvents := handoffEvents st;
     isPingPonging := isPingPonging st;
     handoffInLastTick := handoffInLastTick st |}.

Definition set_dropped (st : State) (next : R) : State :=
  {| ueSpeed := ueSpeed st; handoffMode := handoffMode st;
     thresholdMargin := thresholdMargin st;
     hysteresisMargin := hysteresisMargin st;
     environment := environment st;
     uePosition := uePosition st;
     isMoving := false;
     activeBS := activeBS st;
     handoffEvents := handoffEvents st ++ [ {| pos := next; type := drop |} ];
     isPingPonging := false;
     handoffInLastTick := handoffInLastTick st |}.

(** The end of a tick that passed the drop check: [newBS] is the serving
    station after the handoff logic, [occurred] is
    [handoffOccurredThisTick]. *)
Definition set_advanced (st : State) (next : R) (newBS : BaseStation)
    (occurred : bool) : State :=
  {| ueSpeed := ueSpeed st; handoffMode := handoffMode st;
     thresholdMargin := thresholdMargin st;
     hysteresisMargin := hysteresisMargin st;
     environment := environment st;
     uePosition := next;
     isMoving := isMoving st;
     activeBS := newBS;
     handoffEvents :=
       if occurred
       then handoffEvents st ++ [ {| pos := next; type := handoff |} ]
       else handoffEvents st;
     isPingPonging :=
       if occurred && handoffInLastTick st then true
       else if negb occurred then false
       else isPingPonging st;
     handoffInLastTick := occurred |}.

(** [next = prev + (ueSpeed / 3.6) * dt] with [dt = 1]. *)
Definition next_position (st : State) : R :=
  let dt := 1 in
  let velocity := ueSpeed st / 3.6 in
  let step := velocity * dt in
  uePosition st + step.

(** The signals the tick measures at the next position; [r1] and [r2] are
    the two draws of [Math.random()]. *)
Definition tick_s1 (st : State) (r1 : R) : R :=
  calculateSignal (next_position st) (environment st) 1.5 r1.
Definition tick_s2 (st : State) (r2 : R) : R :=
  calculateSignal (TOTAL_DIST (environment st) - next_position st)
                  (environment st) 1.5 r2.

(** [currentRSSI = activeBS === 1 ? s1 : s2]. *)
Definition currentRSSI (st : State) (r1 r2 : R) : R :=
  match activeBS st with BS1 => tick_s1 st r1 | BS2 => tick_s2 st r2 end.

(** The handoff logic: the serving station after it and whether a handoff
    occurred. *)
Definition handoff_logic (st : State) (s1 s2 : R) : BaseStation * bool :=
  match handoffMode st with
  | threshold =>
      match activeBS st with
      | BS1 => if Rlt_dec s1 (P_MIN + thresholdMargin st)
               then (BS2, true) else (BS1, false)
      | BS2 => if Rlt_dec s2 (P_MIN + thresholdMargin st)
               then (BS1, true) else (BS2, false)
      end
  | hysteresis =>
      match activeBS st with
      | BS1 => if Rgt_dec s2 (s1 + hysteresisMargin st)
               then (BS2, true) else (BS1, false)
      | BS2 => if Rgt_dec s1 (s2 + hysteresisMargin st)
               then (BS1, true) else (BS2, false)
      end
  end.

(** One run of the interval callback, on the state it sees. *)
Definition tick (st : State) (r1 r2 : R) : State :=
  let next := next_position st in
  if Rge_dec next (TOTAL_DIST (environment st)) then set_boundary st
  else
    let s1 := tick_s1 st r1 in
    let s2 := tick_s2 st r2 in
    let currentRSSI := match activeBS st with BS1 => s1 | BS2 => s2 end in
    if Rlt_dec currentRSSI P_MIN then set_dropped st next
    else
      let '(newBS, occurred) := handoff_logic st s1 s2 in
      set_advanced st next newBS occurred.

(** What the drop rule promises of a tick: one more event, a drop at the
    measured position, movement stopped, position and serving station as
    before. *)
Definition drop_outcome (st st' : State) : Prop :=
  handoffEvents st' =
    handoffEvents st ++ [ {| pos := next_position st; type := drop |} ] /\
  isMoving st' = false /\
  uePosition st' = uePosition st /\
  activeBS st' = activeBS st.

(** The state of the component when it is mounted. *)
Definition initial_state : State :=
  {| ueSpeed := 50; handoffMode := hysteresis; thresholdMargin := 10;
     hysteresisMargin := 6; environment := highway; uePosition := 0;
     isMoving := false; activeBS := BS1; handoffEvents := [];
     isPingPonging := false; handoffInLastTick := false |}.

(** A state one step short of the far base station: urban environment,
    threshold mode with margin 0, 50 km/h, still served by station 1 after
    71 steps of 125/9 m. *)
Definition last_step_state : State :=
  {| ueSpeed := 50; handoffMode := threshold; thresholdMargin := 0;
     hysteresisMargin := 6; environment := urban; uePosition := 8875 / 9;
     isMoving := true; activeBS := BS1; handoffEvents := [];
     isPingPonging := false; handoffInLastTick := false |}.

(** The state after switching to the urban environment while station 2
    was serving, then starting to move: position 0, 1 km from station 2. *)
Definition far_served_state : State :=
  {| ueSpeed := 50; handoffMode := hysteresis; thresholdMargin := 10;
     hysteresisMargin := 6; environment := urban; uePosition := 0;
     isMoving := true; activeBS := BS2; handoffEvents := [];
     isPingPonging := false; handoffInLastTick := false |}.

(** The base station that is not [bs]. *)
Definition other_station (bs : BaseStation) : BaseStation :=
  match bs with BS1 => BS2 | BS2 => BS1 end.

(** The signal without jitter, [baseSignal]. *)
Definition base_signal (env : Environment) (d : R) : R :=
  P_TX - 10 * gamma env * log10 (Rmax d 1).

(** The interval callback is a closure of the render in which the effect
    was last created.  It reads [uePosition] through the updater's [prev]
    and the settings and [activeBS] through the dependency array, which
    creates the effect anew when one of them changes; [handoffInLastTick]
    is not in that array, so the callback reads the value [seen] that the
    flag had when the effect was created. *)
Definition set_advanced_seen (seen : bool) (st : State) (next : R)
    (newBS : BaseStation) (occurred : bool) : State :=
  {| ueSpeed := ueSpeed st; handoffMode := handoffMode st;
     thresholdMargin := thresholdMargin st;
     hysteresisMargin := hysteresisMargin st;
     environment := environment st;
     uePosition := next;
     isMoving := isMoving st;
     activeBS := newBS;
     handoffEvents :=
       if occurred
       then handoffEvents st ++ [ {| pos := next; type := handoff |} ]
       else handoffEvents st;
     isPingPonging :=
       if occurred && seen then true
       else if negb occurred then false
       else isPingPonging st;
     handoffInLastTick := occurred |}.

(** One run of the callback whose closure holds [seen]; [tick] is the case
    of a closure as recent as the state. *)
Definition tick_seen (seen : bool) (st : State) (r1 r2 : R) : State :=
  let next := next_position st in
  if Rge_dec next (TOTAL_DIST (environment st)) then set_boundary st
  else
    let s1 := tick_s1 st r1 in
    let s2 := tick_s2 st r2 in
    let currentRSSI := match activeBS st with BS1 => s1 | BS2 => s2 end in
    if Rlt_dec currentRSSI P_MIN then set_dropped st next
    else
      let '(newBS, occurred) := handoff_logic st s1 s2 in
      set_advanced_seen seen st next newBS occurred.

Definition same_station (a b : BaseStation) : bool :=
  match a, b with
  | BS1, BS1 | BS2, BS2 => true
  | _, _ => false
  end.

(** The dependencies the callback can change are [isMoving] and
    [activeBS]; the others are settings it never writes. *)
Definition deps_changed (st st' : State) : bool :=
  negb (Bool.eqb (isMoving st) (isMoving st')) ||
  negb (same_station (activeBS st) (activeBS st')).

(** One timer period.  The interval exists only while [isMoving]: the
    period either runs the callback or finds the timer cleared.  After
    the callback the effect is created anew, with the flag just written,
    only if a dependency changed. *)
Definition step (c : bool * State) (draw : R * R) : bool * State :=
  let '(seen, st) := c in
  if isMoving st then
    let st' := tick_seen seen st (fst draw) (snd draw) in
    (if deps_changed st st' then handoffInLastTick st' else seen, st')
  else (seen, st).

(** Timer periods in a row, each with its two draws, from the render that
    created the effect. *)
Definition run (st : State) (draws : list (R * R)) : State :=
  snd (fold_left step draws (handoffInLastTick st, st)).

(** Two states in the middle of the highway, 10 m apart, in threshold
    mode with margin 20 at 36 km/h. *)
Definition midway_state : State :=
  {| ueSpeed := 36; handoffMode := threshold; thresholdMargin := 20;
     hysteresisMargin := 6; environment := highway; uePosition := 4990;
     isMoving := true; activeBS := BS1; handoffEvents := [];
     isPingPonging := false; handoffInLastTick := false |}.

(** Two states late on the urban stretch in hysteresis mode with margin
    6 at 36 km/h: station 1 still serving at 890 m, station 2 serving at
    900 m. *)
Definition late_state_1 : State :=
  {| ueSpeed := 36; handoffMode := hysteresis; thresholdMargin := 10;
     hysteresisMargin := 6; environment := urban; uePosition := 890;
     isMoving := true; activeBS := BS1; handoffEvents := [];
     isPingPonging := false; handoffInLastTick := false |}.

Definition late_state_2 : State :=
  {| ueSpeed := 36; handoffMode := hysteresis; thresholdMargin := 10;
     hysteresisMargin := 6; environment := urban; uePosition := 900;
     isMoving := true; activeBS := BS2; handoffEvents := [];
     isPingPonging := false; handoffInLastTick := true |}.

End Handoff.

(** ** TrunkingSimulator: the occupancy simulation *)

Module Trunking.

(** [type: 'success' | 'drop' | 'end']. *)
Inductive EventType : Type := success | drop | call_end.

Record Event : Type := mkEvent { id : Z; type : EventType; time : string }.

Record Stats : Type := mkStats { totalCalls : Z; droppedCalls : Z }.

(** The React state of the component. *)
Record State : Type := mkState {
  channels : Z;
  arrivalRate : R;
  serviceRate : R;
  isPlaying : bool;
  currentBusy : Z;
  events : list Event;
  stats : Stats
}.

(** What one run of the interval callback reads from its surroundings:
    the two draws of [Math.random()], the value of [Date.now()] and the
    string of [new Date().toLocaleTimeString()]. *)
Record TickInput : Type := mkInput {
  randArrival : R;
  randDeparture : R;
  now : Z;
  clock : string
}.

Definition dt : R := 0.1.
Definition arrivalProb (st : State) : R := arrivalRate st * dt.
Definition departureProb (st : State) : R :=
  IZR (currentBusy st) * serviceRate st * dt.

(** [randArrival < arrivalProb]. *)
Definition arrival (st : State) (inp : TickInput) : bool :=
  if Rlt_dec (randArrival inp) (arrivalProb st) then true else false.

(** [newBusy] after the arrival phase. *)
Definition busy_after_arrival (st : State) (inp : TickInput) : Z :=
  if arrival st inp then
    if (currentBusy st <? channels st)%Z then (currentBusy st + 1)%Z
    else currentBusy st
  else currentBusy st.

(** [newEvent] after the arrival phase. *)
Definition arrival_event (st : State) (inp : TickInput) : option Event :=
  if arrival st inp then
    if (currentBusy st <? channels st)%Z
    then Some {| id := now inp; type := success; time := clock inp |}
    else Some {| id := now inp; type := drop; time := clock inp |}
  else None.

Definition stats_after_arrival (st : State) (inp : TickInput) : Stats :=
  if arrival st inp then
    if (currentBusy st <? channels st)%Z
    then {| totalCalls := totalCalls (stats st) + 1;
            droppedCalls := droppedCalls (stats st) |}
    else {| totalCalls := totalCalls (stats st) + 1;
            droppedCalls := droppedCalls (stats st) + 1 |}
  else stats st.

(** [randDeparture < departureProb && newBusy > 0]. *)
Definition departure (st : State) (inp : TickInput) : bool :=
  (if Rlt_dec (randDeparture inp) (departureProb st) then true else false)
  && (0 <? busy_after_arrival st inp)%Z.

(** [newEvent] at the end of the callback. *)
Definition tick_event (st : State) (inp : TickInput) : option Event :=
  if departure st inp then
    match arrival_event st inp with
    | Some e => Some e
    | None =>
        Some {| id := (now inp + 1)%Z; type := call_end; time := clock inp |}
    end
  else arrival_event st inp.

Definition tick_busy (st : State) (inp : TickInput) : Z :=
  if departure st inp then (busy_after_arrival st inp - 1)%Z
  else busy_after_arrival st inp.

(** [[newEvent, ...prev].slice(0, 5)]. *)
Definition push_event (e : Event) (prev : list Event) : list Event :=
  firstn 5 (e :: prev).

(** One run of the interval callback. *)
Definition tick (st : State) (inp : TickInput) : State :=
  {| channels := channels st;
     arrivalRate := arrivalRate st;
     serviceRate := serviceRate st;
     isPlaying := isPlaying st;
     currentBusy := tick_busy st inp;
     events := match tick_event st inp with
               | Some e => push_event e (events st)
               | None => events st
               end;
     stats := stats_after_arrival st inp |}.

(** [resetSim]. *)
Definition resetSim (st : State) : State :=
  {| channels := channels st;
     arrivalRate := arrivalRate st;
     serviceRate := serviceRate st;
     isPlaying := false;
     currentBusy := 0;
     events := [];
     stats := {| totalCalls := 0; droppedCalls := 0 |} |}.

(** The state the component is mounted with. *)
Definition initial_state : State :=
  {| channels := 10; arrivalRate := 5; serviceRate := 1;
     isPlaying := false; currentBusy := 0; events := [];
     stats := {| totalCalls := 0; droppedCalls := 0 |} |}.

(** A sequence of ticks. *)
Fixpoint run (st : State) (inps : list TickInput) : State :=
  match inps with
  | [] => st
  | inp :: rest => run (tick st inp) rest
  end.

(** Every event the ticks of a run chose, newest first, in front of the
    events [acc] chosen before. *)
Fixpoint chosen_events (st : State) (inps : list TickInput)
    (acc : list Event) : list Event :=
  match inps with
  | [] => acc
  | inp :: rest =>
      chosen_events (tick st inp) rest
        (match tick_event st inp with
         | Some e => e :: acc
         | None => acc
         end)
  end.

(** The simulated blocking percentage shown beside the theoretical one:
    [stats.totalCalls > 0 ? (droppedCalls / totalCalls) * 100 : 0]
    (before formatting with two decimals). *)
Definition observed_blocking (s : Stats) : R :=
  if (0 <? totalCalls s)%Z
  then IZR (droppedCalls s) / IZR (totalCalls s) * 100
  else 0.

(** Event kinds, for counting. *)
Definition is_drop (e : Event) : bool :=
  match type e with drop => true | _ => false end.
Definition is_success (e : Event) : bool :=
  match type e with success => true | _ => false end.

(** The number of events of a list that satisfy [f]. *)
Definition count_events (f : Event -> bool) (l : list Event) : Z :=
  Z.of_nat (length (filter f l)).

End Trunking.

(** ** SignalRecoverySimulator: the recovery pipeline *)

Module SignalRecovery.

(** *** Complex numbers (the [Complex] type of the numeric library) *)

Record Complex : Type := complex { re : R; im : R }.

Definition C0 : Complex := complex 0 0.
Definition C1 : Complex := complex 1 0.
(** A real sample read as a complex number. *)
Definition RtoC (v : R) : Complex := complex v 0.

Definition Cadd (a b : Complex) : Complex :=
  complex (re a + re b) (im a + im b).
Definition Copp (a : Complex) : Complex := complex (- re a) (- im a).
Definition Csub (a b : Complex) : Complex :=
  complex (re a - re b) (im a - im b).
(** [math.multiply(a, b)]. *)
Definition multiply (a b : Complex) : Complex :=
  complex (re a * re b - im a * im b) (re a * im b + im a * re b).
(** [math.divide(a, b)]. *)
Definition divide (a b : Complex) : Complex :=
  let d := re b * re b + im b * im b in
  complex ((re a * re b + im a * im b) / d)
          ((im a * re b - re a * im b) / d).
(** [z.toPolar().r], the modulus. *)
Definition toPolar_r (z : Complex) : R := sqrt (re z * re z + im z * im z).

(** The sum of [f 0 .. f (n-1)]. *)
Fixpoint Csum (f : nat -> Complex) (n : nat) : Complex :=
  match n with
  | O => C0
  | S m => Cadd (Csum f m) (f m)
  end.

(** [cis t] is cos t + i sin t. *)
Definition cis (t : R) : Complex := complex (cos t) (sin t).

(** [math.fft]: the discrete Fourier transform
    X[k] = sum_n x[n] exp(-2 pi i k n / N). *)
Definition fft (v : list Complex) : list Complex :=
  let N := length v in
  map (fun k =>
         Csum (fun n => multiply (nth n v C0)
                          (cis (- (2 * PI * INR k * INR n / INR N)))) N)
      (seq 0 N).

(** [math.ifft]: the inverse transform
    x[n] = (1 / N) sum_k X[k] exp(2 pi i k n / N). *)
Definition ifft (v : list Complex) : list Complex :=
  let N := length v in
  map (fun n =>
         multiply (RtoC (/ INR N))
           (Csum (fun k => multiply (nth k v C0)
                             (cis (2 * PI * INR k * INR n / INR N))) N))
      (seq 0 N).

(** *** State *)

Record Tap : Type := mkTap { delay : Z; amp : R }.

Record State : Type := mkState {
  stage : nat;
  inputBits : string;
  samplesPerSymbol : nat;
  signalX : list R;
  taps : list Tap;
  signalH : list R;
  signalY : list R;
  noiseVariance : R;
  signalYNoisy : list R;
  spectrumY : list R;
  spectrumH : list R;
  spectrumE : list R;
  complexY : list Complex;
  complexH : list Complex;
  complexE : list Complex;
  recoveredSignal : list R;
  recoveredBits : string
}.

(** *** Stage 1: [generateSignal] *)

(** [inputBits.split('').map(b => b === '1' ? 1 : 0)]. *)
Definition bit_of_char (c : ascii) : nat :=
  if Ascii.eqb c "1"%char then 1%nat else 0%nat.

Definition bits_of (s : string) : list nat :=
  map bit_of_char (list_ascii_of_string s).

(** [val = bit === 1 ? 1 : -1]. *)
Definition symbol_of_bit (bit : nat) : R :=
  if Nat.eqb bit 1 then 1 else -1.

Definition generate_samples (bits : string) (sps : nat) : list R :=
  flat_map (fun bit => repeat (symbol_of_bit bit) sps) (bits_of bits)
  ++ repeat 0 (sps * 2).

(** *** Stage 2: [generateChannel] *)

(** [Math.max(...delays)]; [None] stands for the -Infinity of an empty
    argument list. *)
Fixpoint max_delay (ts : list Tap) : option Z :=
  match ts with
  | [] => None
  | t :: rest =>
      match max_delay rest with
      | None => Some (delay t)
      | Some m => Some (Z.max (delay t) m)
      end
  end.

(** [h[i] += a]. *)
Fixpoint add_at (i : nat) (a : R) (h : list R) : list R :=
  match h, i with
  | [], _ => []
  | v :: rest, O => (v + a) :: rest
  | v :: rest, S i' => v :: add_at i' a rest
  end.

(** [if (tap.delay >= 0 && tap.delay < h.length) h[tap.delay] += tap.amp]. *)
Definition add_tap (h : list R) (t : Tap) : list R :=
  if (0 <=? delay t)%Z && (delay t <? Z.of_nat (length h))%Z
  then add_at (Z.to_nat (delay t)) (amp t) h
  else h.

(** The impulse response; [None] when [new Array(maxDelay + 1)] throws
    (no tap, or a negative length). *)
Definition channel_response (ts : list Tap) : option (list R) :=
  match max_delay ts with
  | None => None
  | Some m =>
      if (m + 1 <? 0)%Z then None
      else Some (fold_left add_tap ts (repeat 0 (Z.to_nat (m + 1))))
  end.

(** *** Stage 3: [convolveSignals] *)

(** The inner loop over [j] for the output sample [i]. *)
Definition conv_at (xs h : list R) (i : nat) : R :=
  fold_left
    (fun acc j =>
       if (j <=? i)%nat && (i - j <? length xs)%nat
       then acc + nth (i - j) xs 0 * nth j h 0
       else acc)
    (seq 0 (length h)) 0.

(** The convolution; [None] when [new Array(yLen)] throws, that is when
    [yLen = -1]. *)
Definition convolve (xs h : list R) : option (list R) :=
  match xs, h with
  | [], [] => None
  | _, _ => Some (map (conv_at xs h) (seq 0 (length xs + length h - 1)))
  end.

(** Box-Muller: the Gaussian sample [z] from two uniform draws.  [None]
    when [z] is not a real number: for [u1 = 0] the code computes
    [Math.log(0) = -Infinity] and an infinite [z], whose product with
    [noiseVariance] is Infinity, or NaN when [noiseVariance] is 0; for
    [u1 < 0] or [u1 > 1] the logarithm or the square root is NaN. *)
Definition box_muller (u : R * R) : option R :=
  if Rlt_dec 0 (fst u) then
    if Rle_dec (fst u) 1
    then Some (sqrt (-2.0 * ln (fst u)) * cos (2.0 * PI * snd u))
    else None
  else None.

(** The list of the values, if every one is there. *)
Fixpoint all_some (l : list (option R)) : option (list R) :=
  match l with
  | [] => Some []
  | None :: _ => None
  | Some v :: rest =>
      match all_some rest with
      | None => None
      | Some vs => Some (v :: vs)
      end
  end.

(** [y.map(val => val + z * noiseVariance)]; [draws i] are the two values
    of [Math.random()] used for sample [i].  [None] when some sample is
    not a real number. *)
Definition add_noise (draws : nat -> R * R) (variance : R) (ys : list R)
  : option (list R) :=
  all_some
    (map (fun i =>
            match box_muller (draws i) with
            | None => None
            | Some z => Some (nth i ys 0 + z * variance)
            end)
         (seq 0 (length ys))).

(** *** Stage 4: [performFFT] *)

Definition epsilon : R := 1e-6.

(** [hPadded]: [N] zeros overwritten by [signalH] (an assignment past the
    end extends a JavaScript array). *)
Definition pad_to (N : nat) (h : list R) : list R :=
  h ++ repeat 0 (N - length h).

(** The denominator of the equalizer at a bin. *)
Definition H_denom (H : Complex) : Complex :=
  if Rlt_dec (toPolar_r H) epsilon then complex (re H + epsilon) (im H)
  else H.

(** [E = 1 / H_denom]. *)
Definition equalizer_bin (H : Complex) : Complex :=
  divide (complex 1 0) (H_denom H).

(** *** Stage 5: decoding *)

(** [Math.floor(i * samplesPerSymbol + samplesPerSymbol / 2)]. *)
Definition sample_index (sps i : nat) : nat := (i * sps + sps / 2)%nat.

Definition decide_bit (v : R) : ascii :=
  if Rgt_dec v 0 then "1"%char else "0"%char.

(** The decoding loop over [i < numBits], appending to [decoded]. *)
Definition decode (numBits sps : nat) (x_recovered : list R) : string :=
  fold_left
    (fun decoded i =>
       let idx := sample_index sps i in
       if (idx <? length x_recovered)%nat
       then (decoded ++ String (decide_bit (nth idx x_recovered 0)) "")%string
       else decoded)
    (seq 0 numBits) ""%string.

(** *** The five stage functions *)

(** A stage gives [None] when it does not leave a state of real numbers:
    an array allocation, [math.fft], [math.ifft] or [math.multiply] throws
    or does not return, or a noise sample is Infinity or NaN. *)

Definition generateSignal (st : State) : State :=
  {| stage := 2;
     inputBits := inputBits st; samplesPerSymbol := samplesPerSymbol st;
     signalX := generate_samples (inputBits st) (samplesPerSymbol st);
     taps := taps st; signalH := signalH st; signalY := signalY st;
     noiseVariance := noiseVariance st; signalYNoisy := signalYNoisy st;
     spectrumY := spectrumY st; spectrumH := spectrumH st;
     spectrumE := spectrumE st; complexY := complexY st;
     complexH := complexH st; complexE := complexE st;
     recoveredSignal := recoveredSignal st;
     recoveredBits := recoveredBits st |}.

Definition generateChannel (st : State) : option State :=
  match channel_response (taps st) with
  | None => None
  | Some h =>
      Some {| stage := 3;
              inputBits := inputBits st;
              samplesPerSymbol := samplesPerSymbol st;
              signalX := signalX st;
              taps := taps st; signalH := h; signalY := signalY st;
              noiseVariance := noiseVariance st;
              signalYNoisy := signalYNoisy st;
              spectrumY := spectrumY st; spectrumH := spectrumH st;
              spectrumE := spectrumE st; complexY := complexY st;
              complexH := complexH st; complexE := complexE st;
              recoveredSignal := recoveredSignal st;
              recoveredBits := recoveredBits st |}
  end.

Definition convolveSignals (draws : nat -> R * R) (st : State)
  : option State :=
  match convolve (signalX st) (signalH st) with
  | None => None
  | Some ys =>
      match add_noise draws (noiseVariance st) ys with
      | None => None
      | Some yNoisy =>
          Some {| stage := 4;
                  inputBits := inputBits st;
                  samplesPerSymbol := samplesPerSymbol st;
                  signalX := signalX st;
                  taps := taps st; signalH := signalH st; signalY := ys;
                  noiseVariance := noiseVariance st;
                  signalYNoisy := yNoisy;
                  spectrumY := spectrumY st; spectrumH := spectrumH st;
                  spectrumE := spectrumE st; complexY := complexY st;
                  complexH := complexH st; complexE := complexE st;
                  recoveredSignal := recoveredSignal st;
                  recoveredBits := recoveredBits st |}
      end
  end.

(** [math.fft] of an empty array does not return a spectrum. *)
Definition performFFT (st : State) : option State :=
  let N := length (signalYNoisy st) in
  if (N =? 0)%nat then None
  else
    let hPadded := pad_to N (signalH st) in
    let Y_complex := fft (map RtoC (signalYNoisy st)) in
    let H_complex := fft (map RtoC hPadded) in
    let E_complex :=
      map (fun i => equalizer_bin (nth i H_complex C0)) (seq 0 N) in
    Some {| stage := 5;
            inputBits := inputBits st;
            samplesPerSymbol := samplesPerSymbol st;
            signalX := signalX st;
            taps := taps st; signalH := signalH st; signalY := signalY st;
            noiseVariance := noiseVariance st;
            signalYNoisy := signalYNoisy st;
            spectrumY := map toPolar_r Y_complex;
            spectrumH := map toPolar_r H_complex;
            spectrumE := map toPolar_r E_complex;
            complexY := Y_complex; complexH := H_complex;
            complexE := E_complex;
            recoveredSignal := recoveredSignal st;
            recoveredBits := recoveredBits st |}.

(** [math.multiply(Y, E)] throws when [complexE] has no entry [i], that
    is when it is shorter than [complexY]; [math.ifft] of an empty array
    does not return. *)
Definition performEqualization (st : State) : option State :=
  let N := length (complexY st) in
  if (length (complexE st) <? N)%nat || (N =? 0)%nat then None
  else
    let X_est_complex :=
      map (fun i => multiply (nth i (complexY st) C0)
                             (nth i (complexE st) C0))
          (seq 0 N) in
    let x_recovered_complex := ifft X_est_complex in
    let x_recovered := map re x_recovered_complex in
    let numBits := String.length (inputBits st) in
    Some {| stage := stage st;
            inputBits := inputBits st;
            samplesPerSymbol := samplesPerSymbol st;
            signalX := signalX st;
            taps := taps st; signalH := signalH st; signalY := signalY st;
            noiseVariance := noiseVariance st;
            signalYNoisy := signalYNoisy st;
            spectrumY := spectrumY st; spectrumH := spectrumH st;
            spectrumE := spectrumE st; complexY := complexY st;
            complexH := complexH st; complexE := complexE st;
            recoveredSignal := x_recovered;
            recoveredBits :=
              decode numBits (samplesPerSymbol st) x_recovered |}.

(** [reset]: back to stage 1 with the signals, spectra and results
    cleared (the complex spectra are left as they are). *)
Definition reset (st : State) : State :=
  {| stage := 1;
     inputBits := inputBits st; samplesPerSymbol := samplesPerSymbol st;
     signalX := [];
     taps := taps st; signalH := []; signalY := [];
     noiseVariance := noiseVariance st; signalYNoisy := [];
     spectrumY := []; spectrumH := []; spectrumE := [];
     complexY := complexY st; complexH := complexH st;
     complexE := complexE st;
     recoveredSignal := []; recoveredBits := "" |}.

(** Generate, Channel, Convolve, Transform, Equalize in a row. *)
Definition runPipeline (draws : nat -> R * R) (st : State) : option State :=
  match generateChannel (generateSignal st) with
  | None => None
  | Some s3 =>
      match convolveSignals draws s3 with
      | None => None
      | Some s4 =>
          match performFFT s4 with
          | None => None
          | Some s5 => performEqualization s5
          end
      end
  end.

(** The state the component is mounted with, and the same with other bits
    and taps. *)
Definition state_with (bits : string) (sps : nat) (ts : list Tap)
    (variance : R) : State :=
  {| stage := 1; inputBits := bits; samplesPerSymbol := sps;
     signalX := []; taps := ts; signalH := []; signalY := [];
     noiseVariance := variance; signalYNoisy := [];
     spectrumY := []; spectrumH := []; spectrumE := [];
     complexY := []; complexH := []; complexE := [];
     recoveredSignal := []; recoveredBits := "" |}.

Definition initial_taps : list Tap :=
  [ {| delay := 0; amp := 1.0 |};
    {| delay := 5; amp := 0.5 |};
    {| delay := 12; amp := -0.3 |} ].

Definition initial_state : State := state_with "10110" 10 initial_taps 0.0.

(** *** Notions used to state the properties *)

(** The channel spectrum [H_complex] that the pipeline computes from the
    bits and taps of [st]. *)
Definition channel_spectrum (st : State) : list Complex :=
  match channel_response (taps st) with
  | None => []
  | Some h =>
      let xs := generate_samples (inputBits st) (samplesPerSymbol st) in
      fft (map RtoC (pad_to (length xs + length h - 1) h))
  end.

(** The recovered samples that the last two stages compute from the
    samples [xs] and the impulse response [h] when no noise is added. *)
Definition recovered_samples (xs h : list R) : list R :=
  let N := (length xs + length h - 1)%nat in
  let ys := map (conv_at xs h) (seq 0 N) in
  let Y_complex := fft (map RtoC ys) in
  let H_complex := fft (map RtoC (pad_to N h)) in
  let E_complex :=
    map (fun i => equalizer_bin (nth i H_complex C0)) (seq 0 N) in
  map re (ifft (map (fun i => multiply (nth i Y_complex C0)
                                       (nth i E_complex C0))
                    (seq 0 N))).

(** The term that tap [j] adds to the output sample [i]. *)
Definition conv_term (xs h : list R) (i j : nat) : Complex :=
  if (j <=? i)%nat && (i - j <? length xs)%nat
  then multiply (RtoC (nth (i - j) xs 0)) (RtoC (nth j h 0))
  else C0.

Fixpoint Cpow (z : Complex) (n : nat) : Complex :=
  match n with
  | O => C1
  | S m => multiply z (Cpow z m)
  end.

(** The samples of [l] read as the coefficients of a polynomial in [z]. *)
Definition peval (l : list R) (z : Complex) : Complex :=
  Csum (fun n => multiply (RtoC (nth n l 0)) (Cpow z n)) (length l).

(** The sum of the absolute values of the samples. *)
Fixpoint sum_abs (l : list R) : R :=
  match l with
  | [] => 0
  | v :: rest => Rabs v + sum_abs rest
  end.

(** A single direct tap of amplitude -5e-7, and the one-bit input sent
    through it. *)
Definition faint_taps : list Tap := [ {| delay := 0; amp := -5e-7 |} ].

Definition faint_state : State := state_with "1" 10 faint_taps 0.

(** Draws for the noise stage: every call of [Math.random()] gives 1/2. *)
Definition half_draws : nat -> R * R := fun _ => (1 / 2, 1 / 2).

(** A state at stage 5 with spectra of two bins. *)
Definition two_bin_state : State :=
  {| stage := 5; inputBits := "1"; samplesPerSymbol := 1;
     signalX := []; taps := []; signalH := []; signalY := [];
     noiseVariance := 0; signalYNoisy := [];
     spectrumY := []; spectrumH := []; spectrumE := [];
     complexY := [C1; C0]; complexH := [C1; C1]; complexE := [C1; C1];
     recoveredSignal := []; recoveredBits := "" |}.

(** The amplitudes of the taps at delay [d], added up. *)
Definition taps_at (ts : list Tap) (d : nat) : R :=
  Rlist_sum (map amp (filter (fun t => (delay t =? Z.of_nat d)%Z) ts)).

(** The string consists of the characters 0 and 1. *)
Definition binary_string (s : string) : Prop :=
  Forall (fun c => c = "0"%char \/ c = "1"%char) (list_ascii_of_string s).

End SignalRecovery.


(** ** CellularSimulator: frequency reuse on the hexagonal grid *)

Module Cellular.

(** The cluster size [N] for the shift parameters [i], [j]. *)
Definition N (i j : Z) : Z :=
  let val := (i * i + i * j + j * j)%Z in
  if (val =? 0)%Z then 1%Z else val.

(** The frequency group of the cell at axial coordinates [(q, r)]; the
    remainder operator [%] keeps the sign of the dividend. *)
Definition clusterIdx (i j q r : Z) : Z :=
  Z.rem (Z.rem (q * i + r * (i + j)) (N i j) + N i j) (N i j).

(** [isRed]: the cell uses the highlighted frequency group. *)
Definition isRed (i j q r : Z) : bool := (clusterIdx i j q r =? 0)%Z.

End Cellular.
(* ================================================================== *)
(** * Part II: properties *)
(* ================================================================== *)

(** ** Arithmetic helpers *)

Lemma div_le_of_le_mul (x y d : R) : 0 < d -> x <= y * d -> x / d <= y.
Proof.
  intros Hd H. apply (Rmult_le_reg_r d); [assumption|].
  unfold Rdiv. rewrite Rmult_assoc, Rinv_l by lra. lra.
Qed.

Lemma le_div_of_mul_le (x y d : R) : 0 < d -> y * d <= x -> y <= x / d.
Proof.
  intros Hd H. apply (Rmult_le_reg_r d); [assumption|].
  unfold Rdiv. rewrite Rmult_assoc, Rinv_l by lra. lra.
Qed.

Lemma div_lt_of_lt_mul (x y d : R) : 0 < d -> x < y * d -> x / d < y.
Proof.
  intros Hd H. apply (Rmult_lt_reg_r d); [assumption|].
  unfold Rdiv. rewrite Rmult_assoc, Rinv_l by lra. lra.
Qed.

Lemma lt_div_of_mul_lt (x y d : R) : 0 < d -> y * d < x -> y < x / d.
Proof.
  intros Hd H. apply (Rmult_lt_reg_r d); [assumption|].
  unfold Rdiv. rewrite Rmult_assoc, Rinv_l by lra. lra.
Qed.

(** ** Erlang B *)

Section ErlangFacts.
Import ErlangMath.

Lemma erlang_for_snoc (a : R) (n i : nat) (b : R) :
  erlang_for a (S n) i b =
  (a * erlang_for a n i b) / (INR (i + n) + a * erlang_for a n i b).
Proof.
  revert i b. induction n as [|n IH]; intros i b.
  - simpl. now rewrite Nat.add_0_r.
  - change (erlang_for a (S (S n)) i b)
      with (erlang_for a (S n) (S i) ((a * b) / (INR i + a * b))).
    rewrite IH. simpl erlang_for.
    now replace (S i + n)%nat with (i + S n)%nat by lia.
Qed.

Lemma erlang_for_rec (a : R) (n : nat) :
  erlang_for a n 1%nat 1 = erlangRec a n.
Proof.
  induction n as [|n IH].
  - reflexivity.
  - rewrite erlang_for_snoc, IH. reflexivity.
Qed.

Lemma calculateErlangB_pos_load (c : Z) (a : R) :
  a <> 0 -> calculateErlangB c a = erlangRec a (Z.to_nat c).
Proof.
  intros Ha. unfold calculateErlangB.
  destruct (Req_dec_T a 0) as [E|_]; [contradiction|].
  apply erlang_for_rec.
Qed.

Lemma calculateErlangB_zero_load (c : Z) : calculateErlangB c 0 = 0.
Proof.
  unfold calculateErlangB.
  destruct (Req_dec_T 0 0) as [_|N]; [reflexivity | now elim N].
Qed.

(** For a positive load the recurrence stays in (0, 1]. *)
Lemma erlangRec_range (a : R) (c : nat) :
  0 < a -> 0 < erlangRec a c <= 1.
Proof.
  intros Ha. induction c as [|c [IH1 IH2]].
  - simpl. lra.
  - cbn [erlangRec].
    assert (Hc : 0 < INR (S c)) by (apply lt_0_INR; lia).
    set (b := erlangRec a c) in *.
    assert (Hab : 0 < a * b) by (apply Rmult_lt_0_compat; assumption).
    split.
    + apply lt_div_of_mul_lt; lra.
    + apply div_le_of_le_mul; lra.
Qed.

(** The map x |-> x / (k + x) is non-decreasing on x >= 0 when k > 0. *)
Lemma frac_mono (k x y : R) :
  0 < k -> 0 <= x -> x <= y -> x / (k + x) <= y / (k + y).
Proof.
  intros Hk Hx Hxy.
  apply div_le_of_le_mul; [lra|].
  replace (y / (k + y) * (k + x)) with (y * (k + x) / (k + y))
    by (field; lra).
  apply le_div_of_mul_le; [lra|]. nra.
Qed.

Lemma erlangRec_mono_load (c : nat) (a a' : R) :
  0 < a -> a <= a' -> erlangRec a c <= erlangRec a' c.
Proof.
  intros Ha Haa. induction c as [|c IH].
  - simpl. lra.
  - cbn [erlangRec].
    destruct (erlangRec_range a c Ha) as [Hb _].
    assert (Hc : 0 < INR (S c)) by (apply lt_0_INR; lia).
    apply frac_mono; [assumption | nra | nra].
Qed.

(** Carried traffic never exceeds the number of channels:
    a (1 - B(c)) <= c. *)
Lemma erlangRec_carried (a : R) (c : nat) :
  0 < a -> a * (1 - erlangRec a c) <= INR c.
Proof.
  intros Ha. induction c as [|c IH].
  - simpl. lra.
  - cbn [erlangRec].
    destruct (erlangRec_range a c Ha) as [Hb Hb1].
    assert (Hc : INR (S c) = INR c + 1) by apply S_INR.
    assert (Hc0 : 0 <= INR c) by apply pos_INR.
    set (b := erlangRec a c) in *.
    set (k := INR (S c)) in *.
    assert (Hd : 0 < k + a * b) by nra.
    replace (1 - a * b / (k + a * b)) with (k / (k + a * b))
      by (field; lra).
    replace (a * (k / (k + a * b))) with (a * k / (k + a * b))
      by (field; lra).
    apply div_le_of_le_mul; [assumption|]. nra.
Qed.

Lemma erlangRec_step_le (a : R) (c : nat) :
  0 < a -> erlangRec a (S c) <= erlangRec a c.
Proof.
  intros Ha. cbn [erlangRec].
  destruct (erlangRec_range a c Ha) as [Hb Hb1].
  pose proof (erlangRec_carried a c Ha) as Hcar.
  assert (Hc : INR (S c) = INR c + 1) by apply S_INR.
  assert (Hc0 : 0 <= INR c) by apply pos_INR.
  set (b := erlangRec a c) in *.
  set (k := INR (S c)) in *.
  apply div_le_of_le_mul; nra.
Qed.

Lemma erlangRec_antitone (a : R) (c c' : nat) :
  0 < a -> (c <= c')%nat -> erlangRec a c' <= erlangRec a c.
Proof.
  intros Ha Hcc. induction Hcc as [|m _ IH].
  - lra.
  - pose proof (erlangRec_step_le a m Ha). lra.
Qed.

(** Known values: one channel offered one Erlang blocks half the calls;
    two channels offered one Erlang block a fifth. *)
Example erlangB_1_1 : calculateErlangB 1 1 = 1 / 2.
Proof.
  rewrite calculateErlangB_pos_load by lra. simpl. lra.
Qed.

Example erlangB_2_1 : calculateErlangB 2 1 = 1 / 5.
Proof.
  rewrite calculateErlangB_pos_load by lra. simpl. lra.
Qed.

End ErlangFacts.

(** C2, as the code has it: with no channel and a non-zero load the loop
    body never runs and the result is the initial value 1 of the
    recurrence (B(0) = 1); only a zero load gives 0, by the early return.
    No division is evaluated in either case. *)
Theorem C2_zero_channels_base_case (a : R) :
  (a <> 0 -> ErlangMath.calculateErlangB 0 a = 1) /\
  (a = 0 -> ErlangMath.calculateErlangB 0 a = 0) /\
  (forall b : R, ErlangMath.erlang_for a (Z.to_nat 0) 1%nat b = b).
Proof.
  split; [|split].
  - intros Ha. unfold ErlangMath.calculateErlangB.
    destruct (Req_dec_T a 0); [contradiction | reflexivity].
  - intros ->. apply calculateErlangB_zero_load.
  - intros b. reflexivity.
Qed.

(** C2, counterexample to a result of 0 for every load: with
    channels = 0 and load = 5 the function returns 1. *)
Lemma C2_zero_channels_not_zero :
  0 <= 5 /\ ErlangMath.calculateErlangB 0 5 <> 0.
Proof.
  split; [lra|].
  unfold ErlangMath.calculateErlangB.
  destruct (Req_dec_T 5 0) as [E|_]; [lra|].
  simpl. lra.
Qed.

(** C3: Erlang B monotonicity.  For every channel count the blocking
    probability is non-decreasing in the load over load >= 0, and for
    every load > 0 it is non-increasing in the channel count. *)
Theorem C3_erlangB_monotone :
  (forall (c : Z) (a a' : R),
      0 <= a -> a <= a' ->
      ErlangMath.calculateErlangB c a <= ErlangMath.calculateErlangB c a') /\
  (forall (a : R) (c c' : Z),
      0 < a -> (c <= c')%Z ->
      ErlangMath.calculateErlangB c' a <= ErlangMath.calculateErlangB c a).
Proof.
  split.
  - intros c a a' Ha Haa.
    destruct (Req_dec_T a 0) as [->|Hne].
    + rewrite calculateErlangB_zero_load.
      destruct (Req_dec_T a' 0) as [->|Hne'].
      * rewrite calculateErlangB_zero_load. lra.
      * rewrite calculateErlangB_pos_load by assumption.
        apply Rlt_le, erlangRec_range. lra.
    + rewrite !calculateErlangB_pos_load by lra.
      apply erlangRec_mono_load; lra.
  - intros a c c' Ha Hcc.
    rewrite !calculateErlangB_pos_load by lra.
    apply erlangRec_antitone; [assumption|]. lia.
Qed.


(** ** Erlang B: range, closed form and the state distribution *)

Section ErlangDistribution.
Import ErlangMath.

Lemma Rlist_sum_app (l1 l2 : list R) :
  Rlist_sum (l1 ++ l2) = Rlist_sum l1 + Rlist_sum l2.
Proof.
  unfold Rlist_sum. induction l1 as [|v l1 IH]; simpl; [lra|].
  rewrite IH. lra.
Qed.

Lemma Rlist_sum_single (v : R) : Rlist_sum [v] = v.
Proof. unfold Rlist_sum. simpl. lra. Qed.

Lemma Rlist_sum_scale (k : R) (l : list R) :
  Rlist_sum (map (fun p => p / k) l) = Rlist_sum l / k.
Proof.
  unfold Rlist_sum. induction l as [|v l IH]; simpl.
  - unfold Rdiv. lra.
  - rewrite IH. unfold Rdiv. lra.
Qed.

Lemma fact_INR_pos (i : nat) : 0 < INR (fact i).
Proof. apply lt_0_INR, lt_O_fact. Qed.

Lemma state_weight_0 (a : R) : state_weight a 0 = 1.
Proof. unfold state_weight. simpl. lra. Qed.

Lemma state_weight_S (a : R) (i : nat) :
  state_weight a (S i) = state_weight a i * a / INR (S i).
Proof.
  unfold state_weight. rewrite fact_simpl, mult_INR.
  pose proof (fact_INR_pos i) as Hf.
  assert (Hs : 0 < INR (S i)) by (apply lt_0_INR; lia).
  simpl pow. field. split; lra.
Qed.

Lemma state_weight_nonneg (a : R) (i : nat) :
  0 <= a -> 0 <= state_weight a i.
Proof.
  intros Ha. unfold state_weight.
  apply Rmult_le_pos; [apply pow_le; assumption|].
  apply Rlt_le, Rinv_0_lt_compat, fact_INR_pos.
Qed.

Lemma state_weight_pos (a : R) (i : nat) :
  0 < a -> 0 < state_weight a i.
Proof.
  intros Ha. unfold state_weight.
  apply Rdiv_lt_0_compat; [apply pow_lt; assumption | apply fact_INR_pos].
Qed.

Lemma write_at_middle (pre rest : list R) (old v : R) :
  write_at (length pre) v (pre ++ old :: rest) = pre ++ v :: rest.
Proof.
  induction pre as [|p pre IH]; simpl; [reflexivity|]. now rewrite IH.
Qed.

(** The loop fills the array with the weights and adds them up. *)
Lemma state_for_weights (a : R) (n i : nat) (s : R) (pre : list R) :
  length pre = S i ->
  state_for a n (S i) (state_weight a i) s (pre ++ repeat 0 n) =
  (s + Rlist_sum (map (state_weight a) (seq (S i) n)),
   pre ++ map (state_weight a) (seq (S i) n)).
Proof.
  revert i s pre. induction n as [|n IH]; intros i s pre Hlen.
  - simpl. unfold Rlist_sum. simpl. f_equal. lra.
  - cbn [state_for repeat]. rewrite <- state_weight_S.
    replace (write_at (S i) (state_weight a (S i)) (pre ++ 0 :: repeat 0 n))
      with (pre ++ state_weight a (S i) :: repeat 0 n)
      by (rewrite <- Hlen; symmetry; apply write_at_middle).
    replace (pre ++ state_weight a (S i) :: repeat 0 n)
      with ((pre ++ [state_weight a (S i)]) ++ repeat 0 n)
      by (rewrite <- app_assoc; reflexivity).
    rewrite IH by (rewrite length_app; simpl; lia).
    cbn [seq map]. rewrite <- app_assoc. cbn [app].
    f_equal. unfold Rlist_sum. simpl. lra.
Qed.

(** For a channel count c >= 0 the result is the list of the weights
    0 .. c, each divided by their sum. *)
Lemma calculateStateProbabilities_weights (c : nat) (a : R) :
  calculateStateProbabilities (Z.of_nat c) a =
  Some (map (fun p => p / Rlist_sum (map (state_weight a) (seq 0 (S c))))
            (map (state_weight a) (seq 0 (S c)))).
Proof.
  unfold calculateStateProbabilities.
  destruct (Z.ltb_spec (Z.of_nat c + 1) 0); [lia|].
  replace (Z.to_nat (Z.of_nat c + 1)) with (S c) by lia.
  rewrite Nat2Z.id. cbn [repeat write_at].
  rewrite <- (state_weight_0 a).
  change (state_weight a 0 :: repeat 0 c)
    with ([state_weight a 0] ++ repeat 0 c).
  rewrite state_for_weights by reflexivity.
  cbn [seq map app]. unfold Rlist_sum at 2. cbn [fold_right].
  fold (Rlist_sum (map (state_weight a) (seq 1 c))).
  replace (0 + state_weight a 0 + Rlist_sum (map (state_weight a) (seq 1 c)))
    with (state_weight a 0 + Rlist_sum (map (state_weight a) (seq 1 c)))
    by lra.
  reflexivity.
Qed.

Lemma weights_sum_ge_1 (a : R) (c : nat) :
  0 <= a -> 1 <= Rlist_sum (map (state_weight a) (seq 0 (S c))).
Proof.
  intros Ha. cbn [seq map]. unfold Rlist_sum. cbn [fold_right].
  rewrite state_weight_0.
  assert (H : forall l, Forall (fun v => 0 <= v) l -> 0 <= fold_right Rplus 0 l).
  { induction 1; simpl; lra. }
  assert (0 <= fold_right Rplus 0 (map (state_weight a) (seq 1 c))).
  { apply H. rewrite Forall_forall. intros v Hv.
    apply in_map_iff in Hv. destruct Hv as (k & <- & _).
    apply state_weight_nonneg; assumption. }
  lra.
Qed.

Lemma weight_le_sum (l : list R) (v : R) :
  Forall (fun w => 0 <= w) l -> In v l -> v <= Rlist_sum l.
Proof.
  unfold Rlist_sum. induction 1 as [|w l Hw Hl IH]; intros Hin.
  - contradiction.
  - assert (0 <= fold_right Rplus 0 l).
    { clear IH Hin. induction Hl; simpl; lra. }
    simpl. destruct Hin as [->|Hin]; [lra|].
    specialize (IH Hin). lra.
Qed.

(** The recurrence is the last weight over the sum of the weights. *)
Lemma erlangRec_closed_form (a : R) (c : nat) :
  0 < a ->
  erlangRec a c =
  state_weight a c / Rlist_sum (map (state_weight a) (seq 0 (S c))).
Proof.
  intros Ha. induction c as [|c IH].
  - cbn [erlangRec seq map]. unfold Rlist_sum. simpl.
    rewrite state_weight_0. lra.
  - cbn [erlangRec]. rewrite IH.
    rewrite (seq_S (S c) 0), map_app, Rlist_sum_app.
    cbn [map Nat.add]. rewrite Rlist_sum_single.
    pose proof (weights_sum_ge_1 a c (Rlt_le _ _ Ha)) as Hs.
    pose proof (state_weight_pos a c Ha) as Hw.
    rewrite state_weight_S.
    set (S0 := Rlist_sum (map (state_weight a) (seq 0 (S c)))) in *.
    set (w := state_weight a c) in *.
    assert (Hk : 0 < INR (S c)) by (apply lt_0_INR; lia).
    assert (Hd1 : 0 < INR (S c) * S0) by (apply Rmult_lt_0_compat; lra).
    assert (Hd2 : 0 < w * a) by (apply Rmult_lt_0_compat; lra).
    field. repeat split; nra.
Qed.

Lemma weights_sum_f_R0 (a : R) (c : nat) :
  Rlist_sum (map (state_weight a) (seq 0 (S c))) =
  sum_f_R0 (fun i => a ^ i / INR (fact i)) c.
Proof.
  induction c as [|c IH].
  - unfold Rlist_sum, state_weight. simpl. lra.
  - rewrite (seq_S (S c) 0), map_app, Rlist_sum_app, IH.
    cbn [map Nat.add sum_f_R0]. rewrite Rlist_sum_single.
    reflexivity.
Qed.

End ErlangDistribution.

(** X1: the blocking probability is a probability: for every channel
    count and every load >= 0 it lies in [0, 1]. *)
Theorem X1_erlangB_is_probability (c : Z) (a : R) :
  0 <= a -> 0 <= ErlangMath.calculateErlangB c a <= 1.
Proof.
  intros Ha. destruct (Req_dec_T a 0) as [->|Hne].
  - rewrite calculateErlangB_zero_load. lra.
  - rewrite calculateErlangB_pos_load by assumption.
    destruct (erlangRec_range a (Z.to_nat c)); [lra|]. lra.
Qed.

Lemma X1_erlangB_is_probability_witness :
  0 <= ErlangMath.calculateErlangB 10 5 <= 1.
Proof. apply (X1_erlangB_is_probability 10 5). lra. Defined.

(** X2: the recursion computes the Erlang B formula of the doc comment:
    for a load A > 0 and C >= 0 channels the result is
    (A^C / C!) / (sum over i = 0 .. C of A^i / i!). *)
Theorem X2_erlangB_closed_form (c : nat) (a : R) :
  0 < a ->
  ErlangMath.calculateErlangB (Z.of_nat c) a =
  (a ^ c / INR (fact c)) / sum_f_R0 (fun i => a ^ i / INR (fact i)) c.
Proof.
  intros Ha. rewrite calculateErlangB_pos_load by lra.
  rewrite Nat2Z.id, erlangRec_closed_form by assumption.
  rewrite weights_sum_f_R0. reflexivity.
Qed.

Lemma X2_erlangB_closed_form_witness :
  ErlangMath.calculateErlangB (Z.of_nat 10) 5 =
  (5 ^ 10 / INR (fact 10)) / sum_f_R0 (fun i => 5 ^ i / INR (fact i)) 10.
Proof. apply (X2_erlangB_closed_form 10 5). lra. Defined.

(** X3: the state distribution is a distribution: for C >= 0 channels
    and a load >= 0 the function returns C + 1 numbers, each in [0, 1],
    that add up to 1. *)
Theorem X3_state_probabilities_normalised (c : nat) (a : R) :
  0 <= a ->
  exists probs,
    ErlangMath.calculateStateProbabilities (Z.of_nat c) a = Some probs /\
    length probs = S c /\
    Forall (fun p => 0 <= p <= 1) probs /\
    Rlist_sum probs = 1.
Proof.
  intros Ha. rewrite calculateStateProbabilities_weights.
  eexists. split; [reflexivity|].
  pose proof (weights_sum_ge_1 a c Ha) as Hs.
  set (ws := map (ErlangMath.state_weight a) (seq 0 (S c))) in *.
  assert (Hnn : Forall (fun w => 0 <= w) ws).
  { unfold ws. rewrite Forall_forall. intros v Hv.
    apply in_map_iff in Hv. destruct Hv as (k & <- & _).
    apply state_weight_nonneg; assumption. }
  split; [unfold ws; now rewrite !length_map, length_seq|].
  split.
  - rewrite Forall_forall. intros p Hp.
    apply in_map_iff in Hp. destruct Hp as (w & <- & Hw).
    pose proof (weight_le_sum ws w Hnn Hw) as Hle.
    rewrite Forall_forall in Hnn. specialize (Hnn w Hw).
    split.
    + apply le_div_of_mul_le; lra.
    + apply div_le_of_le_mul; lra.
  - rewrite Rlist_sum_scale. field. lra.
Qed.

Lemma X3_state_probabilities_normalised_witness :
  exists probs,
    ErlangMath.calculateStateProbabilities (Z.of_nat 10) 5 = Some probs /\
    length probs = 11%nat /\
    Forall (fun p => 0 <= p <= 1) probs /\
    Rlist_sum probs = 1.
Proof. apply (X3_state_probabilities_normalised 10 5). lra. Defined.

(** X4: the two functions agree: for a load > 0 the probability of the
    full state (all C channels busy) in the state distribution is the
    Erlang B blocking probability. *)
Theorem X4_full_state_is_blocking (c : nat) (a : R) :
  0 < a ->
  exists probs,
    ErlangMath.calculateStateProbabilities (Z.of_nat c) a = Some probs /\
    nth c probs 0 = ErlangMath.calculateErlangB (Z.of_nat c) a.
Proof.
  intros Ha. rewrite calculateStateProbabilities_weights.
  eexists. split; [reflexivity|].
  rewrite calculateErlangB_pos_load by lra.
  rewrite Nat2Z.id, erlangRec_closed_form by assumption.
  set (S0 := Rlist_sum _).
  rewrite (nth_indep _ 0 ((fun p => p / S0) 0))
    by (rewrite !length_map, length_seq; lia).
  rewrite (map_nth (fun p => p / S0)).
  rewrite (nth_indep _ 0 (ErlangMath.state_weight a 0))
    by (rewrite length_map, length_seq; lia).
  rewrite (map_nth (ErlangMath.state_weight a)).
  rewrite seq_nth by lia. reflexivity.
Qed.

Lemma X4_full_state_is_blocking_witness :
  exists probs,
    ErlangMath.calculateStateProbabilities (Z.of_nat 10) 5 = Some probs /\
    nth 10 probs 0 = ErlangMath.calculateErlangB (Z.of_nat 10) 5.
Proof. apply (X4_full_state_is_blocking 10 5). lra. Defined.
(** ** Doppler kinematics *)

Section DopplerFacts.
Import Doppler.

Lemma vertical_offset : Rabs (TOWER_Y - ROAD_Y) = 260.
Proof.
  unfold TOWER_Y, ROAD_Y. rewrite Rabs_left; lra.
Qed.

(** The squared distance that [calculatePhysics] takes the root of. *)
Lemma distance_sqr (carX vKmH fGHz : R) :
  let d := distance (calculatePhysics carX vKmH fGHz) in
  0 <= d /\ d * d = offset_dx carX * offset_dx carX + 260 * 260.
Proof.
  cbn [calculatePhysics distance]. unfold offset_dx, TOWER_Y, ROAD_Y.
  set (dx := TOWER_X - carX).
  split.
  - apply sqrt_pos.
  - rewrite sqrt_sqrt; [lra|]. nra.
Qed.

Lemma distance_lower_bound (carX vKmH fGHz : R) :
  260 <= distance (calculatePhysics carX vKmH fGHz).
Proof.
  destruct (distance_sqr carX vKmH fGHz) as [H0 Hsq].
  set (d := distance (calculatePhysics carX vKmH fGHz)) in *.
  destruct (Rle_lt_dec 260 d) as [H|H]; [assumption|]. nra.
Qed.

Lemma cosTheta_unfold (carX vKmH fGHz : R) :
  cosTheta (calculatePhysics carX vKmH fGHz) =
  offset_dx carX / distance (calculatePhysics carX vKmH fGHz).
Proof. reflexivity. Qed.

Lemma deltaF_unfold (carX vKmH fGHz : R) :
  deltaF (calculatePhysics carX vKmH fGHz) =
  (vKmH * (5 / 18)) / (C / (fGHz * 1e9)) *
  cosTheta (calculatePhysics carX vKmH fGHz).
Proof. reflexivity. Qed.

Lemma thetaDeg_unfold (carX vKmH fGHz : R) :
  thetaDeg (calculatePhysics carX vKmH fGHz) =
  acos (cosTheta (calculatePhysics carX vKmH fGHz)) * (180 / PI).
Proof. reflexivity. Qed.

Lemma cosTheta_range (carX vKmH fGHz : R) :
  -1 <= cosTheta (calculatePhysics carX vKmH fGHz) <= 1.
Proof.
  rewrite cosTheta_unfold.
  destruct (distance_sqr carX vKmH fGHz) as [H0 Hsq].
  pose proof (distance_lower_bound carX vKmH fGHz) as Hlb.
  set (d := distance (calculatePhysics carX vKmH fGHz)) in *.
  set (dx := offset_dx carX) in *.
  split.
  - apply le_div_of_mul_le; [lra|]. nra.
  - apply div_le_of_le_mul; [lra|]. nra.
Qed.

(** The speed-over-wavelength factor of the Doppler formula. *)
Lemma doppler_gain_pos (vKmH fGHz : R) :
  0 < vKmH -> 0 < fGHz -> 0 < (vKmH * (5 / 18)) / (C / (fGHz * 1e9)).
Proof.
  intros Hv Hf. unfold C.
  apply Rdiv_lt_0_compat; [lra|].
  apply Rdiv_lt_0_compat; lra.
Qed.

End DopplerFacts.

(** C8: Doppler sign convention.  For a positive speed and a positive
    carrier frequency the shift is positive when the tower lies ahead of
    the car (dx > 0), negative when it lies behind (dx < 0), and zero when
    the car is at the closest point (dx = 0). *)
Theorem C8_doppler_sign (carX vKmH fGHz : R) :
  0 < vKmH -> 0 < fGHz ->
  let p := Doppler.calculatePhysics carX vKmH fGHz in
  (0 < Doppler.offset_dx carX -> 0 < Doppler.deltaF p) /\
  (Doppler.offset_dx carX < 0 -> Doppler.deltaF p < 0) /\
  (Doppler.offset_dx carX = 0 -> Doppler.deltaF p = 0).
Proof.
  intros Hv Hf p. subst p.
  rewrite deltaF_unfold, cosTheta_unfold.
  pose proof (doppler_gain_pos vKmH fGHz Hv Hf) as Hg.
  pose proof (distance_lower_bound carX vKmH fGHz) as Hd.
  set (g := vKmH * (5 / 18) / (Doppler.C / (fGHz * 1e9))) in *.
  set (d := Doppler.distance (Doppler.calculatePhysics carX vKmH fGHz)) in *.
  set (dx := Doppler.offset_dx carX).
  assert (Hinv : 0 < / d) by (apply Rinv_0_lt_compat; lra).
  unfold Rdiv. repeat split; intros Hdx.
  - apply Rmult_lt_0_compat; [assumption|].
    apply Rmult_lt_0_compat; assumption.
  - assert (0 < g * ((- dx) * / d)).
    { apply Rmult_lt_0_compat; [assumption|].
      apply Rmult_lt_0_compat; lra. }
    lra.
  - rewrite Hdx. ring.
Qed.

(** C8, at the initial frame of the animation: car at x = 0, 100 km/h,
    2.5 GHz. *)
Lemma C8_doppler_sign_witness :
  let p := Doppler.calculatePhysics 0 100 2.5 in
  (0 < Doppler.offset_dx 0 -> 0 < Doppler.deltaF p) /\
  (Doppler.offset_dx 0 < 0 -> Doppler.deltaF p < 0) /\
  (Doppler.offset_dx 0 = 0 -> Doppler.deltaF p = 0).
Proof.
  apply (C8_doppler_sign 0 100 2.5); lra.
Defined.

(** C10: the car-to-tower distance is at least the vertical offset
    |TOWER_Y - ROAD_Y| = 260, so it is never zero, the quotient
    cosTheta = dx / d is a genuine quotient with |cosTheta| <= 1, and the
    angle lies in [0, 180] degrees. *)
Theorem C10_doppler_distance_positive (carX vKmH fGHz : R) :
  let p := Doppler.calculatePhysics carX vKmH fGHz in
  Rabs (Doppler.TOWER_Y - Doppler.ROAD_Y) = 260 /\
  260 <= Doppler.distance p /\
  Doppler.distance p <> 0 /\
  Doppler.cosTheta p * Doppler.distance p = Doppler.offset_dx carX /\
  Rabs (Doppler.cosTheta p) <= 1 /\
  0 <= Doppler.thetaDeg p <= 180.
Proof.
  intros p. subst p.
  pose proof (distance_lower_bound carX vKmH fGHz) as Hd.
  pose proof (cosTheta_range carX vKmH fGHz) as Hc.
  split; [apply vertical_offset|].
  split; [assumption|].
  split; [lra|].
  split.
  { rewrite cosTheta_unfold. field. lra. }
  split.
  { apply Rabs_le. lra. }
  rewrite thetaDeg_unfold.
  pose proof (acos_bound
    (Doppler.cosTheta (Doppler.calculatePhysics carX vKmH fGHz))) as Ha.
  set (t := acos _) in *.
  pose proof PI_RGT_0 as Hpi.
  assert (Hk : 0 < 180 / PI) by (apply Rdiv_lt_0_compat; lra).
  split.
  - apply Rmult_le_pos; lra.
  - replace 180 with (PI * (180 / PI)) at 2 by (field; lra).
    apply Rmult_le_compat_r; lra.
Qed.

(** ** Doppler: bounds, symmetry and the animation *)

Section DopplerMore.
Import Doppler.

Lemma v_ms_unfold (carX vKmH fGHz : R) :
  v_ms (calculatePhysics carX vKmH fGHz) = vKmH * (5 / 18).
Proof. reflexivity. Qed.

Lemma lambda_unfold (carX vKmH fGHz : R) :
  lambda (calculatePhysics carX vKmH fGHz) = C / (fGHz * 1e9).
Proof. reflexivity. Qed.

Lemma distance_mirror (t vKmH fGHz : R) :
  distance (calculatePhysics (TOWER_X + t) vKmH fGHz) =
  distance (calculatePhysics (TOWER_X - t) vKmH fGHz).
Proof.
  cbn [calculatePhysics distance]. f_equal. ring.
Qed.

Lemma cosTheta_mirror (t vKmH fGHz : R) :
  cosTheta (calculatePhysics (TOWER_X + t) vKmH fGHz) =
  - cosTheta (calculatePhysics (TOWER_X - t) vKmH fGHz).
Proof.
  rewrite !cosTheta_unfold, distance_mirror.
  pose proof (distance_lower_bound (TOWER_X - t) vKmH fGHz) as Hd.
  unfold offset_dx. field. lra.
Qed.

Lemma advance_car_range (isPlaying : bool) (vKmH carX : R) :
  0 <= vKmH -> -50 <= carX <= CANVAS_WIDTH + 50 ->
  -50 <= advance_car isPlaying vKmH carX <= CANVAS_WIDTH + 50.
Proof.
  intros Hv Hx. unfold advance_car, CANVAS_WIDTH in *.
  destruct isPlaying; [|assumption].
  cbv zeta. destruct (Rgt_dec _ _) as [Hgt|Hle]; lra.
Qed.

End DopplerMore.

(** X5: the shift never exceeds the maximum Doppler shift: for a speed
    >= 0 and a carrier frequency > 0, |deltaF| <= v_ms / lambda at every
    car position, and v_ms / lambda is positive speed times frequency over
    the speed of light. *)
Theorem X5_doppler_max_shift (carX vKmH fGHz : R) :
  0 <= vKmH -> 0 < fGHz ->
  let p := Doppler.calculatePhysics carX vKmH fGHz in
  Rabs (Doppler.deltaF p) <= Doppler.v_ms p / Doppler.lambda p /\
  Doppler.v_ms p / Doppler.lambda p =
    Doppler.v_ms p * (fGHz * 1e9) / Doppler.C.
Proof.
  intros Hv Hf p. subst p.
  rewrite deltaF_unfold, v_ms_unfold, lambda_unfold.
  pose proof (cosTheta_range carX vKmH fGHz) as Hc.
  set (c := Doppler.cosTheta _) in *.
  assert (Hg : 0 <= vKmH * (5 / 18) / (Doppler.C / (fGHz * 1e9))).
  { unfold Doppler.C, Rdiv. apply Rmult_le_pos; [lra|].
    apply Rlt_le, Rinv_0_lt_compat.
    apply Rmult_lt_0_compat; [lra|]. apply Rinv_0_lt_compat. lra. }
  split.
  - rewrite Rabs_mult, (Rabs_right _ (Rle_ge _ _ Hg)).
    assert (Rabs c <= 1) by (apply Rabs_le; lra).
    set (g := vKmH * (5 / 18) / (Doppler.C / (fGHz * 1e9))) in *.
    pose proof (Rabs_pos c). nra.
  - unfold Doppler.C. field. lra.
Qed.

Lemma X5_doppler_max_shift_witness :
  let p := Doppler.calculatePhysics 0 100 2.5 in
  Rabs (Doppler.deltaF p) <= Doppler.v_ms p / Doppler.lambda p /\
  Doppler.v_ms p / Doppler.lambda p =
    Doppler.v_ms p * (2.5 * 1e9) / Doppler.C.
Proof. apply (X5_doppler_max_shift 0 100 2.5); lra. Defined.

(** X6: the physics is mirrored at the tower: at the same offset t before
    and after the tower the distance is the same, the shifts are opposite
    and the angles add up to 180 degrees; at the closest point the
    distance is 260 and the angle is 90 degrees. *)
Theorem X6_doppler_mirror (t vKmH fGHz : R) :
  let before := Doppler.calculatePhysics (Doppler.TOWER_X - t) vKmH fGHz in
  let after := Doppler.calculatePhysics (Doppler.TOWER_X + t) vKmH fGHz in
  let closest := Doppler.calculatePhysics Doppler.TOWER_X vKmH fGHz in
  Doppler.distance after = Doppler.distance before /\
  Doppler.deltaF after = - Doppler.deltaF before /\
  Doppler.thetaDeg after + Doppler.thetaDeg before = 180 /\
  Doppler.distance closest = 260 /\
  Doppler.thetaDeg closest = 90.
Proof.
  intros before after closest. subst before after closest.
  split; [apply distance_mirror|].
  split.
  { rewrite !deltaF_unfold, cosTheta_mirror. ring. }
  pose proof PI_RGT_0 as Hpi.
  split.
  { rewrite !thetaDeg_unfold, cosTheta_mirror, acos_opp. field. lra. }
  assert (Hd : Doppler.distance
                 (Doppler.calculatePhysics Doppler.TOWER_X vKmH fGHz) = 260).
  { cbn [Doppler.calculatePhysics Doppler.distance].
    unfold Doppler.TOWER_Y, Doppler.ROAD_Y.
    replace ((Doppler.TOWER_X - Doppler.TOWER_X) *
             (Doppler.TOWER_X - Doppler.TOWER_X) +
             (60 - 320) * (60 - 320)) with (260 * 260) by ring.
    apply sqrt_square. lra. }
  split; [exact Hd|].
  rewrite thetaDeg_unfold, cosTheta_unfold, Hd.
  unfold Doppler.offset_dx.
  replace ((Doppler.TOWER_X - Doppler.TOWER_X) / 260) with 0 by (field).
  rewrite acos_0. field. lra.
Qed.

(** X7: the car stays on the stage: with a speed >= 0, from a position
    in [-50, 850] every number of animation frames, playing or paused,
    leaves the car in [-50, 850], where the distance to the tower is at
    most 520 (and never below 260). *)
Theorem X7_car_stays_on_stage (n : nat) (isPlaying : bool)
    (vKmH fGHz carX : R) :
  0 <= vKmH -> -50 <= carX <= 850 ->
  let carX' := Doppler.animate_frames n isPlaying vKmH carX in
  -50 <= carX' <= 850 /\
  260 <= Doppler.distance (Doppler.calculatePhysics carX' vKmH fGHz) <= 520.
Proof.
  intros Hv Hx carX'. subst carX'.
  assert (Hrange : -50 <= Doppler.animate_frames n isPlaying vKmH carX
                   <= 850).
  { revert carX Hx. induction n as [|n IH]; intros carX Hx; simpl.
    - assumption.
    - apply IH.
      pose proof (advance_car_range isPlaying vKmH carX Hv) as H.
      unfold Doppler.CANVAS_WIDTH in H.
      assert (H' := H ltac:(lra)). lra. }
  split; [exact Hrange|].
  set (x := Doppler.animate_frames n isPlaying vKmH carX) in *.
  split; [apply distance_lower_bound|].
  destruct (distance_sqr x vKmH fGHz) as [H0 Hsq].
  set (d := Doppler.distance _) in *.
  unfold Doppler.offset_dx, Doppler.TOWER_X, Doppler.CANVAS_WIDTH in Hsq.
  destruct (Rle_lt_dec d 520) as [H|H]; [assumption|]. nra.
Qed.

Lemma X7_car_stays_on_stage_witness :
  let carX' := Doppler.animate_frames 1000 true 100 0 in
  -50 <= carX' <= 850 /\
  260 <= Doppler.distance (Doppler.calculatePhysics carX' 100 2.5) <= 520.
Proof. apply (X7_car_stays_on_stage 1000 true 100 2.5 0); lra. Defined.

(** ** Multipath geometry *)

Section MultipathFacts.
Import Multipath.

Lemma dist_is_dist_euc (px py qx qy : R) :
  dist px py qx qy = dist_euc px py qx qy.
Proof.
  unfold dist, dist_euc, Rsqr. f_equal. ring.
Qed.

(** Triangle inequality: the way over a third point is no shorter. *)
Lemma dist_triangle (px py qx qy mx my : R) :
  dist px py qx qy <= dist px py mx my + dist mx my qx qy.
Proof.
  rewrite !dist_is_dist_euc. apply triangle.
Qed.

Lemma insert_path_perm (p : Path) (l : list Path) :
  Permutation (p :: l) (insert_path p l).
Proof.
  induction l as [|q l IH]; simpl.
  - apply Permutation_refl.
  - destruct (Rle_dec (delay p) (delay q)).
    + apply Permutation_refl.
    + apply perm_trans with (q :: p :: l).
      * apply perm_swap.
      * apply perm_skip, IH.
Qed.

Lemma sort_by_delay_perm (l : list Path) :
  Permutation l (sort_by_delay l).
Proof.
  induction l as [|p l IH]; simpl.
  - apply perm_nil.
  - apply perm_trans with (p :: sort_by_delay l).
    + apply perm_skip, IH.
    + apply insert_path_perm.
Qed.

Lemma insert_path_sorted (p : Path) (l : list Path) :
  Sorted delay_le l -> Sorted delay_le (insert_path p l).
Proof.
  induction l as [|q l IH]; intros Hs; simpl.
  - repeat constructor.
  - destruct (Rle_dec (delay p) (delay q)) as [Hle|Hgt].
    + constructor; [assumption|]. constructor. exact Hle.
    + inversion Hs as [|? ? Hs' Hhd]; subst.
      constructor; [apply IH; assumption|].
      destruct l as [|r l]; simpl.
      * constructor. unfold delay_le. lra.
      * destruct (Rle_dec (delay p) (delay r)); constructor.
        -- unfold delay_le. lra.
        -- inversion Hhd; assumption.
Qed.

Lemma sort_by_delay_sorted (l : list Path) :
  Sorted delay_le (sort_by_delay l).
Proof.
  induction l as [|p l IH]; simpl.
  - constructor.
  - apply insert_path_sorted, IH.
Qed.

(** A path that is no later than every path of [l] and is inserted last
    ends up at the head of the sorted list. *)
Lemma insert_path_min (p : Path) (l : list Path) :
  (forall q, In q l -> delay p <= delay q) ->
  insert_path p l = p :: l.
Proof.
  intros Hmin. destruct l as [|q l]; simpl; [reflexivity|].
  destruct (Rle_dec (delay p) (delay q)) as [_|Hn]; [reflexivity|].
  exfalso. apply Hn, Hmin. now left.
Qed.

Variable tx : Point.
Variable rho : R.

Lemma nlos_paths_inv (rxPos : Point) (bs : list Building) (idx : nat)
      (p : Path) :
  In p (nlos_paths tx rho rxPos idx bs) ->
  exists k b, In b bs /\ p = nlos_path tx rho rxPos k b.
Proof.
  revert idx. induction bs as [|b bs IH]; intros idx Hin; simpl in Hin.
  - contradiction.
  - destruct Hin as [<-|Hin].
    + exists idx, b. split; [now left | reflexivity].
    + destruct (IH _ Hin) as (k & b' & Hb' & ->).
      exists k, b'. split; [now right | reflexivity].
Qed.

Lemma nlos_not_shorter (rxPos : Point) (b : Building) :
  los_distance tx rxPos <= nlos_distance tx rxPos b.
Proof. apply dist_triangle. Qed.

Lemma nlos_delay_ge (rxPos : Point) (k : nat) (b : Building) :
  delay (los_path tx rxPos) <= delay (nlos_path tx rho rxPos k b).
Proof.
  cbn [los_path nlos_path delay].
  pose proof (nlos_not_shorter rxPos b) as H.
  unfold C, Rdiv. lra.
Qed.

Lemma nlos_amplitude_lt (rxPos : Point) (k : nat) (b : Building) :
  rho < 1 -> 0 < los_distance tx rxPos ->
  amplitude (nlos_path tx rho rxPos k b) < amplitude (los_path tx rxPos).
Proof.
  intros Hrho Hd0.
  cbn [los_path nlos_path amplitude]. unfold GAMMA.
  pose proof (nlos_not_shorter rxPos b) as Hdi.
  set (d0 := los_distance tx rxPos) in *.
  set (di := nlos_distance tx rxPos b) in *.
  assert (H0 : 0 < d0 ^ 2) by (apply pow_lt; assumption).
  assert (Hi : 0 < di ^ 2) by (apply pow_lt; lra).
  assert (Hsq : d0 ^ 2 <= di ^ 2) by (simpl; nra).
  apply div_lt_of_lt_mul; [assumption|].
  replace (1000 / d0 ^ 2 * di ^ 2) with (1000 * di ^ 2 / d0 ^ 2)
    by (field; lra).
  apply lt_div_of_mul_lt; [assumption|]. nra.
Qed.

(** The stable sort leaves the LOS path, pushed first and never later than
    another path, at the head. *)
Lemma multipathPaths_head (rxPos : Point) (bs : list Building) :
  multipathPaths tx rho rxPos bs =
  los_path tx rxPos :: sort_by_delay (nlos_paths tx rho rxPos 0 bs).
Proof.
  unfold multipathPaths, unsorted_paths. cbn [sort_by_delay].
  apply insert_path_min. intros q Hq.
  apply (Permutation_in _ (Permutation_sym (sort_by_delay_perm _))) in Hq.
  destruct (nlos_paths_inv _ _ _ _ Hq) as (k & b & _ & ->).
  apply nlos_delay_ge.
Qed.

End MultipathFacts.

(** C7: multipath delay ordering.  For every transmitter, receiver and
    reflectors with the receiver away from the transmitter and a reflection
    coefficient below 1: the returned list is sorted ascending by delay and
    holds exactly the computed paths; every reflected path is at least as
    long as the direct one (triangle inequality), so the LOS path has the
    minimal delay and stands first; and the LOS amplitude strictly exceeds
    the amplitude of every NLOS path of the list. *)
Theorem C7_multipath_ordering
    (tx rxPos : Multipath.Point) (rho : R)
    (buildings : list Multipath.Building) :
  rho < 1 ->
  0 < Multipath.los_distance tx rxPos ->
  let paths := Multipath.multipathPaths tx rho rxPos buildings in
  let los := Multipath.los_path tx rxPos in
  Sorted Multipath.delay_le paths /\
  Permutation (Multipath.unsorted_paths tx rho rxPos buildings) paths /\
  (forall b, In b buildings ->
     Multipath.los_distance tx rxPos <= Multipath.nlos_distance tx rxPos b) /\
  hd_error paths = Some los /\
  (forall p, In p paths -> Multipath.delay los <= Multipath.delay p) /\
  (forall p, In p paths -> Multipath.id p <> Multipath.LOS ->
     Multipath.amplitude p < Multipath.amplitude los).
Proof.
  intros Hrho Hd0 paths los. subst paths los.
  split; [apply sort_by_delay_sorted|].
  split; [apply sort_by_delay_perm|].
  split; [intros b _; apply nlos_not_shorter|].
  split; [rewrite multipathPaths_head; reflexivity|].
  assert (Hcases : forall p,
    In p (Multipath.multipathPaths tx rho rxPos buildings) ->
    p = Multipath.los_path tx rxPos \/
    exists k b, p = Multipath.nlos_path tx rho rxPos k b).
  { intros p Hp.
    apply (Permutation_in _ (Permutation_sym (sort_by_delay_perm _))) in Hp.
    destruct Hp as [<-|Hp]; [now left|].
    destruct (nlos_paths_inv _ _ _ _ _ _ Hp) as (k & b & _ & ->).
    right. now exists k, b. }
  split; intros p Hp.
  - destruct (Hcases p Hp) as [->|(k & b & ->)].
    + apply Rle_refl.
    + apply nlos_delay_ge.
  - intros Hid. destruct (Hcases p Hp) as [->|(k & b & ->)].
    + now elim Hid.
    + apply nlos_amplitude_lt; assumption.
Qed.

(** C7 at the component's own constants: transmitter (100, 100),
    reflection coefficient 0.5, the receiver at the start of the road and
    the three initial buildings. *)
Lemma C7_multipath_ordering_witness :
  let paths := Multipath.multipathData (Multipath.rxPos_of 100)
                 Multipath.initial_buildings in
  let los := Multipath.los_path Multipath.TX_POS (Multipath.rxPos_of 100) in
  Sorted Multipath.delay_le paths /\
  Permutation (Multipath.unsorted_paths Multipath.TX_POS
                 Multipath.REFLECTION_COEFF (Multipath.rxPos_of 100)
                 Multipath.initial_buildings) paths /\
  (forall b, In b Multipath.initial_buildings ->
     Multipath.los_distance Multipath.TX_POS (Multipath.rxPos_of 100)
     <= Multipath.nlos_distance Multipath.TX_POS (Multipath.rxPos_of 100) b) /\
  hd_error paths = Some los /\
  (forall p, In p paths -> Multipath.delay los <= Multipath.delay p) /\
  (forall p, In p paths -> Multipath.id p <> Multipath.LOS ->
     Multipath.amplitude p < Multipath.amplitude los).
Proof.
  apply (C7_multipath_ordering Multipath.TX_POS (Multipath.rxPos_of 100)
           Multipath.REFLECTION_COEFF Multipath.initial_buildings).
  - unfold Multipath.REFLECTION_COEFF. lra.
  - unfold Multipath.los_distance, Multipath.dist. simpl.
    apply sqrt_lt_R0. unfold Multipath.ROAD_Y. lra.
Defined.

(** ** Multipath: the road, the delay spread and dragging *)

Section MultipathMore.
Import Multipath.

Lemma step_rx_range (rxX : R) :
  100 <= rxX <= 700 -> 100 <= step_rx rxX <= 700.
Proof.
  intros H. unfold step_rx, CANVAS_WIDTH. cbv zeta.
  destruct (Rgt_dec _ _); lra.
Qed.

Lemma steps_rx_range (n : nat) (rxX : R) :
  100 <= rxX <= 700 -> 100 <= steps_rx n rxX <= 700.
Proof.
  revert rxX. induction n as [|n IH]; intros rxX H; simpl.
  - assumption.
  - apply IH, step_rx_range, H.
Qed.

Lemma road_los_distance_sqr (rxX : R) :
  0 <= los_distance TX_POS (rxPos_of rxX) /\
  los_distance TX_POS (rxPos_of rxX) * los_distance TX_POS (rxPos_of rxX)
  = (rxX - 100) * (rxX - 100) + 62500.
Proof.
  unfold los_distance, dist, TX_POS, rxPos_of, ROAD_Y. simpl x. simpl y.
  split; [apply sqrt_pos|].
  rewrite sqrt_sqrt by (simpl; nra). ring.
Qed.

Lemma road_los_distance_min (rxX : R) :
  250 <= los_distance TX_POS (rxPos_of rxX).
Proof.
  destruct (road_los_distance_sqr rxX) as [H0 Hsq].
  set (d := los_distance _ _) in *.
  set (t := rxX - 100) in *.
  destruct (Rle_lt_dec 250 d) as [H|H]; [assumption|]. nra.
Qed.

Lemma max_of_spec (l : list R) (v : R) :
  In v l -> exists M, max_of l = Some M /\ In M l /\
                      forall w, In w l -> w <= M.
Proof.
  revert v. induction l as [|u l IH]; intros v Hin; [contradiction|].
  cbn [max_of]. destruct l as [|u' l'].
  - simpl. exists u. split; [reflexivity|]. split; [now left|].
    intros w [<-|[]]. lra.
  - destruct (IH u') as (M & -> & HM & Hub); [now left|].
    exists (Rmax u M). split; [reflexivity|]. split.
    + unfold Rmax. destruct (Rle_dec u M); [right; exact HM | now left].
    + intros w [<-|Hw].
      * apply Rmax_l.
      * apply Rle_trans with M; [apply Hub, Hw | apply Rmax_r].
Qed.

Lemma min_of_spec (l : list R) (v : R) :
  In v l -> exists m, min_of l = Some m /\ In m l /\
                      forall w, In w l -> m <= w.
Proof.
  revert v. induction l as [|u l IH]; intros v Hin; [contradiction|].
  cbn [min_of]. destruct l as [|u' l'].
  - simpl. exists u. split; [reflexivity|]. split; [now left|].
    intros w [<-|[]]. lra.
  - destruct (IH u') as (m & -> & Hm & Hlb); [now left|].
    exists (Rmin u m). split; [reflexivity|]. split.
    + unfold Rmin. destruct (Rle_dec u m); [now left | right; exact Hm].
    + intros w [<-|Hw].
      * apply Rmin_l.
      * apply Rle_trans with m; [apply Rmin_r | apply Hlb, Hw].
Qed.

Lemma handleMouseMove_ids (dragged : option nat) (px py : R)
      (bs : list Building) :
  map b_id (handleMouseMove dragged px py bs) = map b_id bs.
Proof.
  destruct dragged as [d|]; [|reflexivity]. simpl.
  rewrite map_map. apply map_ext. intros b.
  destruct (Nat.eqb (b_id b) d); reflexivity.
Qed.

End MultipathMore.

(** X8: on the road the direct path always leads: while the receiver
    steps along the road from a position in [100, 700] it stays in
    [100, 700]; there the LOS distance is between 250 and 650, and for
    any placement of the buildings the first path of [multipathData] is
    the LOS path, with an amplitude of at most 0.016. *)
Theorem X8_road_keeps_los_first (n : nat) (rxX : R)
    (buildings : list Multipath.Building) :
  100 <= rxX <= 700 ->
  let rxX' := Multipath.steps_rx n rxX in
  let rxPos := Multipath.rxPos_of rxX' in
  let los := Multipath.los_path Multipath.TX_POS rxPos in
  100 <= rxX' <= 700 /\
  250 <= Multipath.los_distance Multipath.TX_POS rxPos <= 650 /\
  hd_error (Multipath.multipathData rxPos buildings) = Some los /\
  0 < Multipath.amplitude los <= 0.016.
Proof.
  intros Hx rxX' rxPos los. subst rxPos los.
  pose proof (steps_rx_range n rxX Hx) as Hr. fold rxX' in Hr.
  pose proof (road_los_distance_min rxX') as Hmin.
  destruct (road_los_distance_sqr rxX') as [H0 Hsq].
  set (d := Multipath.los_distance Multipath.TX_POS
              (Multipath.rxPos_of rxX')) in *.
  split; [exact Hr|].
  split.
  { split; [exact Hmin|].
    assert (Ht : 0 <= rxX' - 100 <= 600) by lra.
    set (t := rxX' - 100) in *.
    assert (Hq : t * t <= 360000) by nra.
    destruct (Rle_lt_dec d 650) as [H|H]; [assumption|]. nra. }
  split.
  { unfold Multipath.multipathData. rewrite multipathPaths_head.
    reflexivity. }
  cbn [Multipath.los_path Multipath.amplitude]. fold d.
  unfold Multipath.GAMMA.
  assert (Hd2 : 62500 <= d ^ 2) by (simpl; nra).
  split.
  - apply Rdiv_lt_0_compat; lra.
  - apply div_le_of_le_mul; lra.
Qed.

Lemma X8_road_keeps_los_first_witness :
  let rxX' := Multipath.steps_rx 500 100 in
  let rxPos := Multipath.rxPos_of rxX' in
  let los := Multipath.los_path Multipath.TX_POS rxPos in
  100 <= rxX' <= 700 /\
  250 <= Multipath.los_distance Multipath.TX_POS rxPos <= 650 /\
  hd_error (Multipath.multipathData rxPos Multipath.initial_buildings)
    = Some los /\
  0 < Multipath.amplitude los <= 0.016.
Proof.
  apply (X8_road_keeps_los_first 500 100 Multipath.initial_buildings). lra.
Defined.

(** X9: the displayed delay spread is defined and never negative: it is
    the delay of some path of the list, the latest one, minus the LOS
    delay, and it is 0 when there is no building. *)
Theorem X9_delay_spread (tx rxPos : Multipath.Point) (rho : R)
    (buildings : list Multipath.Building) :
  let paths := Multipath.multipathPaths tx rho rxPos buildings in
  let los := Multipath.los_path tx rxPos in
  exists spread latest,
    Multipath.delay_spread paths = Some spread /\
    In latest paths /\
    (forall p, In p paths -> Multipath.delay p <= Multipath.delay latest) /\
    spread = Multipath.delay latest - Multipath.delay los /\
    0 <= spread /\
    (buildings = [] -> spread = 0).
Proof.
  intros paths los.
  assert (Hlos : In los paths).
  { unfold paths. rewrite multipathPaths_head. now left. }
  assert (Hmin : forall p, In p paths ->
                           Multipath.delay los <= Multipath.delay p).
  { intros p Hp. unfold paths in Hp.
    apply (Permutation_in _ (Permutation_sym (sort_by_delay_perm _))) in Hp.
    destruct Hp as [<-|Hp]; [apply Rle_refl|].
    destruct (nlos_paths_inv _ _ _ _ _ _ Hp) as (k & b & _ & ->).
    apply nlos_delay_ge. }
  assert (Hin : In (Multipath.delay los) (map Multipath.delay paths))
    by (apply in_map; exact Hlos).
  destruct (max_of_spec _ _ Hin) as (M & HM & HMin & HMub).
  destruct (min_of_spec _ _ Hin) as (m & Hm & Hmin' & Hmlb).
  apply in_map_iff in HMin. destruct HMin as (latest & <- & Hlatest).
  assert (Hmeq : m = Multipath.delay los).
  { apply Rle_antisym; [apply Hmlb; exact Hin|].
    apply in_map_iff in Hmin'. destruct Hmin' as (q & <- & Hq).
    apply Hmin, Hq. }
  exists (Multipath.delay latest - Multipath.delay los), latest.
  split.
  { unfold Multipath.delay_spread. rewrite HM, Hm, Hmeq. reflexivity. }
  split; [exact Hlatest|].
  split; [intros p Hp; apply HMub, in_map, Hp|].
  split; [reflexivity|].
  split.
  - pose proof (Hmin latest Hlatest). lra.
  - intros ->. unfold paths in Hlatest. simpl in Hlatest.
    destruct Hlatest as [<-|[]]. fold los. lra.
Qed.

(** X10: dragging moves only the dragged building: the buildings keep
    their number, order and ids; a building with another id is unchanged
    and one with the dragged id sits at the pointer; with no building
    being dragged nothing changes; and the number of paths stays one more
    than the number of buildings. *)
Theorem X10_drag_moves_one_building (dragged : option nat) (px py : R)
    (rxPos : Multipath.Point) (buildings : list Multipath.Building) :
  let moved := Multipath.handleMouseMove dragged px py buildings in
  Forall2 (fun b m =>
             Multipath.b_id m = Multipath.b_id b /\
             (dragged <> Some (Multipath.b_id b) -> m = b) /\
             (dragged = Some (Multipath.b_id b) ->
              Multipath.b_x m = px /\ Multipath.b_y m = py))
          buildings moved /\
  (dragged = None -> moved = buildings) /\
  length (Multipath.multipathData rxPos moved) = S (length buildings).
Proof.
  intros moved.
  split.
  { unfold moved. destruct dragged as [d|]; simpl.
    - induction buildings as [|b bs IH]; simpl; constructor; [|exact IH].
      destruct (Nat.eqb_spec (Multipath.b_id b) d) as [Heq|Hne]; simpl.
      + split; [reflexivity|]. split.
        * intros Hd. elim Hd. now rewrite Heq.
        * intros _. split; reflexivity.
      + split; [reflexivity|]. split; [reflexivity|].
        intros [= Hd]. now elim Hne.
    - induction buildings as [|b bs IH]; constructor; [|exact IH].
      split; [reflexivity|]. split; [reflexivity | discriminate]. }
  split; [intros ->; reflexivity|].
  unfold Multipath.multipathData, Multipath.multipathPaths.
  rewrite <- (Permutation_length (sort_by_delay_perm _)).
  unfold Multipath.unsorted_paths. simpl. f_equal.
  assert (Hlen : forall bs idx,
    length (Multipath.nlos_paths Multipath.TX_POS
              Multipath.REFLECTION_COEFF rxPos idx bs) = length bs).
  { induction bs as [|b bs IH]; intros idx; simpl; [reflexivity|].
    now rewrite IH. }
  rewrite Hlen. rewrite <- (length_map Multipath.b_id moved).
  unfold moved. rewrite handleMouseMove_ids. apply length_map.
Qed.

Lemma clicked_box_iff (px py : R) (b : Multipath.Building) :
  Multipath.clicked_box px py b = true <->
  Multipath.b_x b - 25 <= px <= Multipath.b_x b + 25 /\
  Multipath.b_y b - 25 <= py <= Multipath.b_y b + 25.
Proof.
  unfold Multipath.clicked_box.
  destruct (Rge_dec px _), (Rle_dec px _), (Rge_dec py _), (Rle_dec py _);
    simpl; split; intros H; try discriminate; try reflexivity; lra.
Qed.

(** X11: a click picks a building only under the pointer: if the pointer
    lies in the 50 x 50 box of some building, a building whose box holds
    the pointer becomes the dragged one; otherwise the dragged id is left
    as it was. *)
Theorem X11_click_selects_box (px py : R)
    (buildings : list Multipath.Building) (current : option nat) :
  let inside b :=
    Multipath.b_x b - 25 <= px <= Multipath.b_x b + 25 /\
    Multipath.b_y b - 25 <= py <= Multipath.b_y b + 25 in
  ((exists b, In b buildings /\ inside b) ->
   exists b', In b' buildings /\ inside b' /\
     Multipath.handleMouseDown px py buildings current
     = Some (Multipath.b_id b')) /\
  ((forall b, In b buildings -> ~ inside b) ->
   Multipath.handleMouseDown px py buildings current = current).
Proof.
  intros inside. unfold Multipath.handleMouseDown. split.
  - intros (b & Hb & Hin).
    destruct (find (Multipath.clicked_box px py) buildings) as [b'|] eqn:Hf.
    + apply find_some in Hf. destruct Hf as [Hb' Hc].
      exists b'. split; [exact Hb'|]. split; [|reflexivity].
      apply clicked_box_iff, Hc.
    + exfalso. pose proof (find_none _ _ Hf b Hb) as Hn.
      apply clicked_box_iff in Hin. congruence.
  - intros Hnone.
    destruct (find (Multipath.clicked_box px py) buildings) as [b'|] eqn:Hf.
    + apply find_some in Hf. destruct Hf as [Hb' Hc].
      exfalso. apply (Hnone b' Hb'). apply clicked_box_iff, Hc.
    + reflexivity.
Qed.

(** ** Path loss and handoff *)

Section HandoffFacts.
Import Handoff.

Lemma ln10_pos : 0 < ln 10.
Proof.
  rewrite <- ln_1. apply ln_increasing; lra.
Qed.

Lemma log10_mult (u v : R) :
  0 < u -> 0 < v -> log10 (u * v) = log10 u + log10 v.
Proof.
  intros Hu Hv. unfold log10. rewrite ln_mult by assumption.
  pose proof ln10_pos. field. lra.
Qed.

Lemma log10_Rpower (e : R) : log10 (Rpower 10 e) = e.
Proof.
  unfold log10. rewrite ln_Rpower.
  pose proof ln10_pos. field. lra.
Qed.

Lemma log10_1000 : log10 1000 = 3.
Proof.
  replace 1000 with (10 * (10 * 10)) by lra.
  rewrite !log10_mult by lra.
  unfold log10. pose proof ln10_pos. field. lra.
Qed.

(** The noiseless log-distance model, for any exponent [g] and spacing
    [D]: at p = D f / (1 + f) with f = 10^(H / (10 g)) the far station is
    received exactly H dB above the near one. *)
Lemma log_distance_balance (P g D H : R) :
  0 < g ->
  let f := Rpower 10 (H / (10 * g)) in
  let p := (D * f) / (1 + f) in
  1 <= p -> 1 <= D - p ->
  P - 10 * g * log10 (Rmax (D - p) 1) =
  P - 10 * g * log10 (Rmax p 1) + H.
Proof.
  intros Hg f p Hp Hq.
  assert (Hf : 0 < f) by apply exp_pos.
  rewrite !Rmax_left by lra.
  assert (Hsplit : p = (D - p) * f).
  { subst p. field. lra. }
  rewrite Hsplit at 2.
  rewrite log10_mult by lra.
  subst f. rewrite log10_Rpower. field. lra.
Qed.

Lemma calculateSignal_noiseless (d : R) (env : Environment) (rnd : R) :
  calculateSignal d env 0 rnd =
  P_TX - 10 * gamma env * log10 (Rmax d 1).
Proof.
  unfold calculateSignal.
  destruct (Rlt_dec 0 0) as [H|_]; [lra|].
  destruct env; reflexivity.
Qed.

Lemma gamma_pos (env : Environment) : 0 < gamma env.
Proof. destruct env; simpl; lra. Qed.

Lemma tick_not_boundary (st : State) (r1 r2 : R) :
  next_position st < TOTAL_DIST (environment st) ->
  tick st r1 r2 =
  if Rlt_dec (currentRSSI st r1 r2) P_MIN
  then set_dropped st (next_position st)
  else let '(newBS, occurred) :=
         handoff_logic st (tick_s1 st r1) (tick_s2 st r2) in
       set_advanced st (next_position st) newBS occurred.
Proof.
  intros Hlt. unfold tick.
  destruct (Rge_dec _ _) as [Hge|_]; [lra|]. reflexivity.
Qed.

Lemma tick_boundary (st : State) (r1 r2 : R) :
  next_position st >= TOTAL_DIST (environment st) ->
  tick st r1 r2 = set_boundary st.
Proof.
  intros Hge. unfold tick.
  destruct (Rge_dec _ _) as [_|Hn]; [reflexivity | contradiction].
Qed.

Lemma last_step_next : next_position last_step_state = 1000.
Proof.
  unfold next_position, last_step_state. simpl. lra.
Qed.

Lemma ln_lower_bound (v : R) : 0 < v -> 1 - / v <= ln v.
Proof.
  intros Hv.
  assert (Hi : 0 < / v) by (apply Rinv_0_lt_compat; assumption).
  pose proof (exp_ineq1_le (ln (/ v))) as H.
  rewrite exp_ln in H by assumption.
  rewrite ln_Rinv in H by assumption. lra.
Qed.

Lemma ln10_ge_1 : 1 <= ln 10.
Proof.
  destruct (Rle_lt_dec 1 (ln 10)) as [H|H]; [assumption|].
  exfalso. apply exp_increasing in H.
  rewrite exp_ln in H by lra.
  pose proof exp_le_3. lra.
Qed.

Lemma far_served_next : next_position far_served_state = 125 / 9.
Proof.
  unfold next_position, far_served_state. simpl. lra.
Qed.

Lemma far_served_low : currentRSSI far_served_state 0 0 < P_MIN.
Proof.
  unfold currentRSSI, tick_s2. rewrite far_served_next. simpl.
  unfold calculateSignal.
  destruct (Rlt_dec 0 1.5) as [_|Hn]; [|lra].
  rewrite Rmax_left by lra.
  replace (1000 - 125 / 9) with (1000 * (71 / 72)) by lra.
  rewrite log10_mult by lra. rewrite log10_1000.
  assert (Hl : - (1 / 71) <= ln (71 / 72)).
  { pose proof (ln_lower_bound (71 / 72)) as H.
    replace (1 - / (71 / 72)) with (- (1 / 71)) in H by lra.
    apply H. lra. }
  pose proof ln10_ge_1 as H10.
  assert (Hq : - (1 / 71) <= log10 (71 / 72)).
  { unfold log10. apply le_div_of_mul_le; [lra|]. nra. }
  unfold P_TX, P_MIN. lra.
Qed.

End HandoffFacts.

(** C5: in hysteresis mode the theoretical handoff point balances the two
    noiseless signals up to the margin, in either environment and for any
    margin, provided the point keeps a distance of at least 1 from both
    base stations. *)
Theorem C5_hysteresis_point_balances (st : Handoff.State) (rnd1 rnd2 : R) :
  Handoff.handoffMode st = Handoff.hysteresis ->
  let env := Handoff.environment st in
  let p := Handoff.theoreticalHOPoint st in
  1 <= p -> 1 <= Handoff.TOTAL_DIST env - p ->
  Handoff.calculateSignal (Handoff.TOTAL_DIST env - p) env 0 rnd1 =
  Handoff.calculateSignal p env 0 rnd2 + Handoff.hysteresisMargin st.
Proof.
  intros Hmode env p. subst env p.
  unfold Handoff.theoreticalHOPoint. rewrite Hmode.
  intros Hp Hq. rewrite !calculateSignal_noiseless.
  apply log_distance_balance; [apply gamma_pos | assumption | assumption].
Qed.

(** C5 at the state the component starts in: highway (10 km, exponent 3),
    hysteresis margin 6 dB. *)
Lemma C5_hysteresis_point_balances_witness :
  let st := Handoff.initial_state in
  let env := Handoff.environment st in
  let p := Handoff.theoreticalHOPoint st in
  Handoff.calculateSignal (Handoff.TOTAL_DIST env - p) env 0 0 =
  Handoff.calculateSignal p env 0 0 + Handoff.hysteresisMargin st.
Proof.
  apply (C5_hysteresis_point_balances Handoff.initial_state 0 0).
  - reflexivity.
  - unfold Handoff.theoreticalHOPoint. simpl.
    assert (H1 : 1 < Rpower 10 (6 / (10 * 3.0))).
    { rewrite <- (Rpower_O 10) by lra. apply Rpower_lt; lra. }
    apply le_div_of_mul_le; lra.
  - unfold Handoff.theoreticalHOPoint. simpl.
    assert (H1 : 1 < Rpower 10 (6 / (10 * 3.0))).
    { rewrite <- (Rpower_O 10) by lra. apply Rpower_lt; lra. }
    assert (H2 : Rpower 10 (6 / (10 * 3.0)) < 10).
    { apply Rlt_le_trans with (Rpower 10 1).
      - apply Rpower_lt; lra.
      - rewrite Rpower_1; lra. }
    set (f := Rpower 10 (6 / (10 * 3.0))) in *.
    assert (Hq : 10000 * f / (1 + f) <= 9999).
    { apply div_le_of_le_mul; lra. }
    lra.
Defined.

(** C6, as the code has it: on every tick whose next position stays short
    of the far base station, a serving signal below -90 dBm makes the tick
    record exactly one event, a drop at the measured position, stop the
    movement, and leave position and serving station unchanged; the
    handoff logic is not run. *)
Theorem C6_drop_before_handoff (st : Handoff.State) (r1 r2 : R) :
  Handoff.next_position st < Handoff.TOTAL_DIST (Handoff.environment st) ->
  Handoff.currentRSSI st r1 r2 < Handoff.P_MIN ->
  Handoff.P_MIN = -90 /\
  Handoff.tick st r1 r2 = Handoff.set_dropped st (Handoff.next_position st) /\
  Handoff.drop_outcome st (Handoff.tick st r1 r2).
Proof.
  intros Hin Hlow.
  assert (Ht : Handoff.tick st r1 r2 =
               Handoff.set_dropped st (Handoff.next_position st)).
  { rewrite tick_not_boundary by assumption.
    destruct (Rlt_dec _ _) as [_|Hn]; [reflexivity | contradiction]. }
  split; [reflexivity|]. split; [exact Ht|].
  rewrite Ht. unfold Handoff.drop_outcome. simpl. auto.
Qed.

(** C6, counterexample to the drop rule on every tick: on the tick that
    reaches the far base station (urban, 50 km/h, from 8875/9 m to 1000 m,
    station 1 serving) the serving signal at the next position with the
    lowest jitter is -90.75 dBm, below the usable minimum, yet no event is
    recorded and the position moves to the boundary. *)
Lemma C6_boundary_tick_skips_drop :
  Handoff.currentRSSI Handoff.last_step_state 0 0 < Handoff.P_MIN /\
  Handoff.handoffEvents (Handoff.tick Handoff.last_step_state 0 0) = [] /\
  Handoff.uePosition (Handoff.tick Handoff.last_step_state 0 0) = 1000 /\
  ~ Handoff.drop_outcome Handoff.last_step_state
      (Handoff.tick Handoff.last_step_state 0 0).
Proof.
  assert (Ht : Handoff.tick Handoff.last_step_state 0 0 =
               Handoff.set_boundary Handoff.last_step_state).
  { apply tick_boundary. rewrite last_step_next. simpl. lra. }
  split.
  - unfold Handoff.currentRSSI, Handoff.tick_s1. rewrite last_step_next.
    simpl. unfold Handoff.calculateSignal.
    destruct (Rlt_dec 0 1.5) as [_|Hn]; [|lra].
    rewrite Rmax_left by lra. rewrite log10_1000.
    unfold Handoff.P_TX, Handoff.P_MIN. lra.
  - rewrite Ht. simpl. split; [reflexivity|]. split; [reflexivity|].
    intros (Hev & _). simpl in Hev. discriminate Hev.
Qed.

(** C6 at a tick inside the stretch: urban environment, station 2 still
    serving at 986 m, lowest jitter; the signal is below -90 dBm and the
    call drops. *)
Lemma C6_drop_before_handoff_witness :
  Handoff.P_MIN = -90 /\
  Handoff.tick Handoff.far_served_state 0 0 =
    Handoff.set_dropped Handoff.far_served_state
      (Handoff.next_position Handoff.far_served_state) /\
  Handoff.drop_outcome Handoff.far_served_state
    (Handoff.tick Handoff.far_served_state 0 0).
Proof.
  apply (C6_drop_before_handoff Handoff.far_served_state 0 0).
  - rewrite far_served_next. simpl. lra.
  - apply far_served_low.
Defined.

(** ** Handoff: signal model, invariants and stability *)

Section HandoffMore.
Import Handoff.

Lemma ln_le_mono (u v : R) : 0 < u -> u <= v -> ln u <= ln v.
Proof.
  intros Hu [Hlt | ->]; [|lra]. apply Rlt_le, ln_increasing; assumption.
Qed.

Lemma log10_le_mono (u v : R) : 0 < u -> u <= v -> log10 u <= log10 v.
Proof.
  intros Hu Huv. unfold log10. pose proof ln10_pos as H10.
  pose proof (ln_le_mono u v Hu Huv) as Hl.
  apply le_div_of_mul_le; [assumption|].
  replace (ln u / ln 10 * ln 10) with (ln u) by (field; lra). exact Hl.
Qed.

Lemma log10_1 : log10 1 = 0.
Proof. unfold log10. rewrite ln_1. unfold Rdiv. ring. Qed.

Lemma log10_100 : log10 100 = 2.
Proof.
  replace 100 with (10 * 10) by lra.
  rewrite log10_mult by lra.
  unfold log10. pose proof ln10_pos. field. lra.
Qed.

Lemma log10_10000 : log10 10000 = 4.
Proof.
  replace 10000 with (10 * 1000) by lra.
  rewrite log10_mult, log10_1000 by lra.
  unfold log10. pose proof ln10_pos. field. lra.
Qed.

Lemma ln10_ge_2 : 2 <= ln 10.
Proof.
  destruct (Rle_lt_dec 2 (ln 10)) as [H|H]; [assumption|].
  exfalso. apply exp_increasing in H.
  rewrite exp_ln in H by lra.
  replace 2 with (1 + 1) in H by lra. rewrite exp_plus in H.
  pose proof exp_le_3 as H3. pose proof (exp_pos 1) as Hp. nra.
Qed.

(** log10 of a ratio q in (0, 1] is at least (1 - 1/q) / 2. *)
Lemma log10_ratio_bound (q : R) :
  0 < q <= 1 -> (1 - / q) / 2 <= log10 q.
Proof.
  intros [Hq Hq1].
  pose proof (ln_lower_bound q Hq) as Hl.
  pose proof ln10_ge_2 as H10.
  assert (Hneg : ln q <= 0).
  { rewrite <- ln_1. apply ln_le_mono; lra. }
  assert (Hi : 1 <= / q).
  { rewrite <- Rinv_1. apply Rinv_le_contravar; lra. }
  unfold log10. apply le_div_of_mul_le; [lra|]. nra.
Qed.

Lemma calculateSignal_noisy (d : R) (env : Environment) (scale rnd : R) :
  0 < scale ->
  calculateSignal d env scale rnd =
  base_signal env d + (rnd * scale - scale / 2).
Proof.
  intros Hs. unfold calculateSignal, base_signal.
  destruct (Rlt_dec 0 scale) as [_|Hn]; [|contradiction].
  destruct env; reflexivity.
Qed.

Lemma base_signal_antitone (env : Environment) (d d' : R) :
  d <= d' -> base_signal env d' <= base_signal env d.
Proof.
  intros Hd. unfold base_signal.
  pose proof (gamma_pos env) as Hg.
  assert (Hm : Rmax d 1 <= Rmax d' 1).
  { apply Rmax_case_strong; intros; [|apply Rmax_r].
    apply Rle_trans with d'; [assumption | apply Rmax_l]. }
  assert (H1 : 0 < Rmax d 1).
  { apply Rlt_le_trans with 1; [lra | apply Rmax_r]. }
  pose proof (log10_le_mono _ _ H1 Hm) as Hl. nra.
Qed.

Lemma base_signal_le_P_TX (env : Environment) (d : R) :
  base_signal env d <= P_TX.
Proof.
  unfold base_signal. pose proof (gamma_pos env) as Hg.
  assert (H1 : 0 <= log10 (Rmax d 1)).
  { rewrite <- log10_1. apply log10_le_mono; [lra | apply Rmax_r]. }
  nra.
Qed.

Lemma tick_s1_unfold (st : State) (r1 : R) :
  tick_s1 st r1 =
  base_signal (environment st) (next_position st) + (r1 * 1.5 - 1.5 / 2).
Proof. unfold tick_s1. apply calculateSignal_noisy. lra. Qed.

Lemma tick_s2_unfold (st : State) (r2 : R) :
  tick_s2 st r2 =
  base_signal (environment st)
    (TOTAL_DIST (environment st) - next_position st)
  + (r2 * 1.5 - 1.5 / 2).
Proof. unfold tick_s2. apply calculateSignal_noisy. lra. Qed.

(** The callback with a closure as recent as the state. *)
Lemma tick_seen_fresh (st : State) (r1 r2 : R) :
  tick_seen (handoffInLastTick st) st r1 r2 = tick st r1 r2.
Proof.
  unfold tick_seen, tick.
  destruct (Rge_dec _ _); [reflexivity|].
  destruct (Rlt_dec _ _); [reflexivity|].
  destruct (handoff_logic _ _ _). reflexivity.
Qed.

(** The closure's flag only enters the ping-pong indicator. *)
Lemma tick_seen_fields (seen : bool) (st : State) (r1 r2 : R) :
  ueSpeed (tick_seen seen st r1 r2) = ueSpeed (tick st r1 r2) /\
  handoffMode (tick_seen seen st r1 r2) = handoffMode (tick st r1 r2) /\
  thresholdMargin (tick_seen seen st r1 r2) =
    thresholdMargin (tick st r1 r2) /\
  hysteresisMargin (tick_seen seen st r1 r2) =
    hysteresisMargin (tick st r1 r2) /\
  environment (tick_seen seen st r1 r2) = environment (tick st r1 r2) /\
  uePosition (tick_seen seen st r1 r2) = uePosition (tick st r1 r2) /\
  isMoving (tick_seen seen st r1 r2) = isMoving (tick st r1 r2) /\
  activeBS (tick_seen seen st r1 r2) = activeBS (tick st r1 r2) /\
  handoffEvents (tick_seen seen st r1 r2) = handoffEvents (tick st r1 r2) /\
  handoffInLastTick (tick_seen seen st r1 r2) =
    handoffInLastTick (tick st r1 r2).
Proof.
  unfold tick_seen, tick.
  destruct (Rge_dec _ _); [repeat split|].
  destruct (Rlt_dec _ _); [repeat split|].
  destruct (handoff_logic _ _ _). repeat split.
Qed.

(** A callback whose closure still holds the flag of an earlier handoff
    reports a ping-pong at its next handoff, also when the tick before
    had none. *)
Lemma tick_seen_stale_flag (st : State) (r1 r2 : R) :
  activeBS (tick_seen true st r1 r2) <> activeBS st ->
  isPingPonging (tick_seen true st r1 r2) = true.
Proof.
  unfold tick_seen.
  destruct (Rge_dec _ _); [simpl; congruence|].
  destruct (Rlt_dec _ _); [simpl; congruence|].
  unfold handoff_logic.
  destruct (handoffMode st), (activeBS st);
    repeat match goal with
           | |- context [Rlt_dec ?a ?b] => destruct (Rlt_dec a b)
           | |- context [Rgt_dec ?a ?b] => destruct (Rgt_dec a b)
           end; simpl; congruence.
Qed.

(** What a tick never touches. *)
Lemma tick_keeps_settings (st : State) (r1 r2 : R) :
  ueSpeed (tick st r1 r2) = ueSpeed st /\
  handoffMode (tick st r1 r2) = handoffMode st /\
  thresholdMargin (tick st r1 r2) = thresholdMargin st /\
  hysteresisMargin (tick st r1 r2) = hysteresisMargin st /\
  environment (tick st r1 r2) = environment st.
Proof.
  unfold tick.
  destruct (Rge_dec _ _); [simpl; auto|].
  destruct (Rlt_dec _ _); [simpl; auto|].
  destruct (handoff_logic _ _ _). simpl. auto.
Qed.

Lemma tick_position (st : State) (r1 r2 : R) :
  0 <= ueSpeed st ->
  0 <= uePosition st <= TOTAL_DIST (environment st) ->
  uePosition st <= uePosition (tick st r1 r2)
    <= TOTAL_DIST (environment st).
Proof.
  intros Hv Hp. unfold tick.
  assert (Hn : uePosition st <= next_position st).
  { unfold next_position. cbv zeta.
    assert (0 <= ueSpeed st / 3.6 * 1) by (unfold Rdiv; nra). lra. }
  destruct (Rge_dec _ _) as [Hge|Hlt]; [simpl; lra|].
  destruct (Rlt_dec _ _); [simpl; lra|].
  destruct (handoff_logic _ _ _). simpl. lra.
Qed.

Lemma step_unfold (seen : bool) (st : State) (d : R * R) :
  step (seen, st) d =
  if isMoving st
  then (if deps_changed st (tick_seen seen st (fst d) (snd d))
        then handoffInLastTick (tick_seen seen st (fst d) (snd d))
        else seen,
        tick_seen seen st (fst d) (snd d))
  else (seen, st).
Proof. reflexivity. Qed.

Lemma run_position_settings (seen : bool) (st : State)
      (draws : list (R * R)) :
  0 <= ueSpeed st ->
  0 <= uePosition st <= TOTAL_DIST (environment st) ->
  let st' := snd (fold_left step draws (seen, st)) in
  uePosition st <= uePosition st' <= TOTAL_DIST (environment st) /\
  ueSpeed st' = ueSpeed st /\
  handoffMode st' = handoffMode st /\
  thresholdMargin st' = thresholdMargin st /\
  hysteresisMargin st' = hysteresisMargin st /\
  environment st' = environment st.
Proof.
  intros Hv Hp st'. subst st'.
  revert seen st Hv Hp.
  induction draws as [|d rest IH]; intros seen st Hv Hp.
  - simpl. repeat split; try reflexivity; lra.
  - cbn [fold_left]. rewrite step_unfold.
    destruct (isMoving st); [|apply IH; assumption].
    destruct (tick_seen_fields seen st (fst d) (snd d))
      as (Es & Em & Et & Eh & Ee & Ep & _).
    destruct (tick_keeps_settings st (fst d) (snd d))
      as (Hs & Hm & Ht & Hh & He).
    pose proof (tick_position st (fst d) (snd d) Hv Hp) as Hpos.
    rewrite <- Es in Hs. rewrite <- Em in Hm. rewrite <- Et in Ht.
    rewrite <- Eh in Hh. rewrite <- Ee in He. rewrite <- Ep in Hpos.
    set (st1 := tick_seen seen st (fst d) (snd d)) in *.
    destruct (IH (if deps_changed st st1 then handoffInLastTick st1
                  else seen) st1)
      as (Hpos' & Hs' & Hm' & Ht' & Hh' & He').
    + rewrite Hs. exact Hv.
    + rewrite He. lra.
    + rewrite He in Hpos'.
      repeat split; try congruence; lra.
Qed.

End HandoffMore.

(** X12: in threshold mode the theoretical handoff point is where the
    noiseless signal of a base station equals the handoff threshold
    P_MIN + margin, for every margin up to P_TX - P_MIN = 120 dB. *)
Theorem X12_threshold_point_on_threshold (st : Handoff.State) (rnd : R) :
  Handoff.handoffMode st = Handoff.threshold ->
  Handoff.thresholdMargin st <= 120 ->
  1 <= Handoff.theoreticalHOPoint st /\
  Handoff.calculateSignal (Handoff.theoreticalHOPoint st)
    (Handoff.environment st) 0 rnd =
  Handoff.P_MIN + Handoff.thresholdMargin st.
Proof.
  intros Hmode Hm. unfold Handoff.theoreticalHOPoint. rewrite Hmode.
  pose proof (gamma_pos (Handoff.environment st)) as Hg.
  set (g := Handoff.gamma (Handoff.environment st)) in *.
  set (e := (Handoff.P_TX - Handoff.P_MIN - Handoff.thresholdMargin st)
            / (10 * g)).
  assert (He : 0 <= e).
  { unfold e, Handoff.P_TX, Handoff.P_MIN.
    apply le_div_of_mul_le; lra. }
  assert (Hp : 1 <= Rpower 10 e).
  { rewrite <- (Rpower_O 10) by lra. apply Rle_Rpower; lra. }
  split; [exact Hp|].
  rewrite calculateSignal_noiseless. fold g.
  rewrite Rmax_left by exact Hp. rewrite log10_Rpower.
  unfold e, Handoff.P_TX, Handoff.P_MIN. field. lra.
Qed.

Lemma X12_threshold_point_on_threshold_witness :
  1 <= Handoff.theoreticalHOPoint Handoff.midway_state /\
  Handoff.calculateSignal (Handoff.theoreticalHOPoint Handoff.midway_state)
    (Handoff.environment Handoff.midway_state) 0 0 =
  Handoff.P_MIN + Handoff.thresholdMargin Handoff.midway_state.
Proof.
  apply (X12_threshold_point_on_threshold Handoff.midway_state 0).
  - reflexivity.
  - simpl. lra.
Defined.

(** X13: the position only moves forward and stays on the stretch: with
    a speed >= 0 and a position in [0, totalDistance], after any number
    of timer periods the position is not behind the start and not beyond
    totalDistance, and speed, mode, margins and environment are as
    before. *)
Theorem X13_position_forward_bounded (st : Handoff.State)
    (draws : list (R * R)) :
  0 <= Handoff.ueSpeed st ->
  0 <= Handoff.uePosition st <= Handoff.TOTAL_DIST (Handoff.environment st) ->
  let st' := Handoff.run st draws in
  Handoff.uePosition st <= Handoff.uePosition st'
    <= Handoff.TOTAL_DIST (Handoff.environment st) /\
  Handoff.ueSpeed st' = Handoff.ueSpeed st /\
  Handoff.handoffMode st' = Handoff.handoffMode st /\
  Handoff.thresholdMargin st' = Handoff.thresholdMargin st /\
  Handoff.hysteresisMargin st' = Handoff.hysteresisMargin st /\
  Handoff.environment st' = Handoff.environment st.
Proof.
  intros Hv Hp st'. subst st'. unfold Handoff.run.
  apply run_position_settings; assumption.
Qed.

Lemma X13_position_forward_bounded_witness :
  let st' := Handoff.run Handoff.far_served_state [(0, 0); (1 / 2, 1 / 2)] in
  Handoff.uePosition Handoff.far_served_state <= Handoff.uePosition st'
    <= Handoff.TOTAL_DIST (Handoff.environment Handoff.far_served_state) /\
  Handoff.ueSpeed st' = Handoff.ueSpeed Handoff.far_served_state /\
  Handoff.handoffMode st' = Handoff.handoffMode Handoff.far_served_state /\
  Handoff.thresholdMargin st' =
    Handoff.thresholdMargin Handoff.far_served_state /\
  Handoff.hysteresisMargin st' =
    Handoff.hysteresisMargin Handoff.far_served_state /\
  Handoff.environment st' = Handoff.environment Handoff.far_served_state.
Proof.
  apply (X13_position_forward_bounded Handoff.far_served_state
           [(0, 0); (1 / 2, 1 / 2)]); simpl; lra.
Defined.

(** X14: the serving station changes only by a recorded handoff: a tick
    appends at most one event to the event list; if the serving station
    after the tick differs from the one before, the appended event is a
    handoff at the next position and the tick is marked as a handoff
    tick; if no event is appended the serving station is unchanged. *)
Theorem X14_serving_change_is_recorded (st : Handoff.State) (r1 r2 : R) :
  let st' := Handoff.tick st r1 r2 in
  (exists l, Handoff.handoffEvents st' = Handoff.handoffEvents st ++ l /\
             (length l <= 1)%nat) /\
  (Handoff.activeBS st' <> Handoff.activeBS st ->
   Handoff.handoffEvents st' =
     Handoff.handoffEvents st ++
       [ {| Handoff.pos := Handoff.next_position st;
            Handoff.type := Handoff.handoff |} ] /\
   Handoff.handoffInLastTick st' = true /\
   Handoff.uePosition st' = Handoff.next_position st) /\
  (Handoff.handoffEvents st' = Handoff.handoffEvents st ->
   Handoff.activeBS st' = Handoff.activeBS st).
Proof.
  intros st'. subst st'. unfold Handoff.tick.
  destruct (Rge_dec _ _) as [Hge|Hlt].
  { simpl. split; [exists []; rewrite app_nil_r; auto|].
    split; [intros H; now elim H | reflexivity]. }
  destruct (Rlt_dec _ _) as [Hdrop|Hok].
  { simpl. split; [eexists; split; [reflexivity | simpl; lia]|].
    split; [intros H; now elim H | reflexivity]. }
  assert (Hl : forall bs occ,
    Handoff.handoff_logic st (Handoff.tick_s1 st r1) (Handoff.tick_s2 st r2)
      = (bs, occ) ->
    (occ = false /\ bs = Handoff.activeBS st) \/
    (occ = true /\ bs <> Handoff.activeBS st)).
  { unfold Handoff.handoff_logic. intros bs occ.
    destruct (Handoff.handoffMode st), (Handoff.activeBS st);
      match goal with |- context [if ?c then _ else _] => destruct c end;
      intros [= <- <-]; (left; split; reflexivity) ||
                        (right; split; [reflexivity | discriminate]). }
  destruct (Handoff.handoff_logic _ _ _) as [bs occ] eqn:Hlogic.
  destruct (Hl bs occ eq_refl) as [[-> ->] | [-> Hne]]; simpl.
  - split; [exists []; rewrite app_nil_r; auto|].
    split; [intros H; now elim H | reflexivity].
  - split; [eexists; split; [reflexivity | simpl; lia]|].
    split; [intros _; auto|].
    intros Heq. exfalso.
    apply (f_equal (@length _)) in Heq.
    rewrite length_app in Heq. simpl in Heq. lia.
Qed.

(** X15: hysteresis does not hand back.  In hysteresis mode with a
    margin of at least 1.5 dB (the width of the jitter) and draws in
    [0, 1]: if a tick at some position hands over from station 1 to
    station 2, then no tick at the same or a later position, with station
    2 serving, hands back to station 1, whatever the draws. *)
Theorem X15_hysteresis_no_hand_back (st st' : Handoff.State)
    (r1 r2 r1' r2' : R) :
  Handoff.handoffMode st = Handoff.hysteresis ->
  Handoff.handoffMode st' = Handoff.hysteresis ->
  Handoff.environment st' = Handoff.environment st ->
  Handoff.hysteresisMargin st' = Handoff.hysteresisMargin st ->
  1.5 <= Handoff.hysteresisMargin st ->
  Handoff.activeBS st = Handoff.BS1 ->
  Handoff.activeBS st' = Handoff.BS2 ->
  0 <= r1 <= 1 -> 0 <= r2 <= 1 -> 0 <= r1' <= 1 -> 0 <= r2' <= 1 ->
  Handoff.next_position st <= Handoff.next_position st' ->
  Handoff.handoff_logic st (Handoff.tick_s1 st r1) (Handoff.tick_s2 st r2)
    = (Handoff.BS2, true) ->
  Handoff.handoff_logic st' (Handoff.tick_s1 st' r1')
    (Handoff.tick_s2 st' r2') = (Handoff.BS2, false).
Proof.
  intros Hm Hm' He Hh HH Hbs Hbs' Hr1 Hr2 Hr1' Hr2' Hpos Hho.
  unfold Handoff.handoff_logic in *.
  rewrite Hm, Hbs in Hho. rewrite Hm', Hbs'.
  destruct (Rgt_dec (Handoff.tick_s2 st r2) _) as [Hgt|_];
    [|discriminate Hho].
  destruct (Rgt_dec (Handoff.tick_s1 st' r1') _) as [Hback|_];
    [|reflexivity].
  exfalso.
  rewrite tick_s1_unfold, tick_s2_unfold in Hgt, Hback.
  rewrite He, Hh in Hback.
  set (env := Handoff.environment st) in *.
  pose proof (base_signal_antitone env _ _ Hpos) as Hb1.
  assert (Hpos2 : Handoff.TOTAL_DIST env - Handoff.next_position st'
                  <= Handoff.TOTAL_DIST env - Handoff.next_position st)
    by lra.
  pose proof (base_signal_antitone env _ _ Hpos2) as Hb2.
  lra.
Qed.

Lemma late_state_1_hands_over :
  Handoff.handoff_logic Handoff.late_state_1
    (Handoff.tick_s1 Handoff.late_state_1 (1 / 2))
    (Handoff.tick_s2 Handoff.late_state_1 (1 / 2)) = (Handoff.BS2, true).
Proof.
  unfold Handoff.handoff_logic. simpl.
  destruct (Rgt_dec _ _) as [_|Hn]; [reflexivity|].
  exfalso. apply Hn.
  rewrite tick_s1_unfold, tick_s2_unfold.
  unfold Handoff.base_signal, Handoff.next_position. simpl.
  replace (890 + 36 / 3.6 * 1) with 900 by lra.
  replace (1000 - 900) with 100 by lra.
  rewrite !Rmax_left by lra. rewrite log10_100.
  replace 900 with (1000 * 0.9) by lra.
  rewrite log10_mult, log10_1000 by lra.
  pose proof (log10_ratio_bound 0.9) as Hq.
  replace ((1 - / 0.9) / 2) with (- (1 / 18)) in Hq by lra.
  assert (Hq' := Hq ltac:(lra)).
  unfold Handoff.P_TX. lra.
Qed.

Lemma X15_hysteresis_no_hand_back_witness :
  Handoff.handoff_logic Handoff.late_state_2
    (Handoff.tick_s1 Handoff.late_state_2 1)
    (Handoff.tick_s2 Handoff.late_state_2 0) = (Handoff.BS2, false).
Proof.
  apply (X15_hysteresis_no_hand_back Handoff.late_state_1
           Handoff.late_state_2 (1 / 2) (1 / 2) 1 0);
    try reflexivity; try (simpl; lra).
  - unfold Handoff.next_position. simpl. lra.
  - apply late_state_1_hands_over.
Defined.

Section ThresholdMode.
Import Handoff.

(** In threshold mode a tick inside the stretch whose serving signal is
    usable but below the threshold hands over, whatever the other
    station's signal is. *)
Lemma threshold_tick_hands_over (st : State) (r1 r2 : R) :
  handoffMode st = threshold ->
  next_position st < TOTAL_DIST (environment st) ->
  P_MIN <= currentRSSI st r1 r2 < P_MIN + thresholdMargin st ->
  tick st r1 r2 =
  set_advanced st (next_position st) (other_station (activeBS st)) true.
Proof.
  intros Hm Hin [Hlo Hhi].
  rewrite tick_not_boundary by assumption.
  destruct (Rlt_dec _ _) as [Hdrop|_]; [lra|].
  unfold handoff_logic, currentRSSI in *. rewrite Hm.
  destruct (activeBS st); simpl;
    destruct (Rlt_dec _ _) as [_|Hn]; try reflexivity; contradiction.
Qed.

Lemma log10_bounds_below_10000 (q : R) :
  0 < q <= 1 ->
  4 + (1 - / q) / 2 <= log10 (10000 * q) <= 4.
Proof.
  intros Hq. rewrite log10_mult, log10_10000 by lra.
  pose proof (log10_ratio_bound q Hq) as Hlo.
  assert (Hhi : log10 q <= 0).
  { rewrite <- log10_1. apply log10_le_mono; lra. }
  lra.
Qed.

Lemma midway_first_signal :
  P_MIN <= currentRSSI midway_state (1 / 2) (1 / 2)
        < P_MIN + thresholdMargin midway_state.
Proof.
  unfold currentRSSI. simpl activeBS. cbv iota.
  rewrite tick_s1_unfold. unfold base_signal, next_position. simpl.
  replace (4990 + 36 / 3.6 * 1) with (10000 * 0.5) by lra.
  rewrite Rmax_left by lra.
  pose proof (log10_bounds_below_10000 0.5) as Hb.
  replace (4 + (1 - / 0.5) / 2) with 3.5 in Hb by lra.
  assert (Hb' := Hb ltac:(lra)).
  unfold P_TX, P_MIN. lra.
Qed.

Lemma midway_first_tick :
  tick midway_state (1 / 2) (1 / 2) =
  set_advanced midway_state 5000 BS2 true.
Proof.
  rewrite threshold_tick_hands_over.
  - f_equal. unfold next_position. simpl. lra.
  - reflexivity.
  - unfold next_position. simpl. lra.
  - apply midway_first_signal.
Qed.

Lemma midway_second_signal :
  P_MIN <= currentRSSI (set_advanced midway_state 5000 BS2 true)
             (1 / 2) (1 / 2)
        < P_MIN + thresholdMargin midway_state.
Proof.
  unfold currentRSSI. simpl activeBS. cbv iota.
  rewrite tick_s2_unfold. unfold base_signal, next_position. simpl.
  replace (10000 - (5000 + 36 / 3.6 * 1)) with (10000 * 0.499) by lra.
  rewrite Rmax_left by lra.
  pose proof (log10_bounds_below_10000 0.499) as Hb.
  assert (Hb' := Hb ltac:(lra)).
  assert (Hq : -0.503 <= (1 - / 0.499) / 2) by lra.
  unfold P_TX, P_MIN. lra.
Qed.

End ThresholdMode.

(** X16: threshold mode ping-pongs.  In threshold mode, if on two
    consecutive ticks inside the stretch the serving signal is usable
    (>= -90 dBm) but below the threshold P_MIN + margin, both ticks hand
    over: the serving station flips and flips back, two handoff events
    are recorded, and the ping-pong flag is set. *)
Theorem X16_threshold_ping_pong (st : Handoff.State) (r1 r2 r3 r4 : R) :
  Handoff.handoffMode st = Handoff.threshold ->
  Handoff.next_position st < Handoff.TOTAL_DIST (Handoff.environment st) ->
  Handoff.P_MIN <= Handoff.currentRSSI st r1 r2
    < Handoff.P_MIN + Handoff.thresholdMargin st ->
  let st1 := Handoff.tick st r1 r2 in
  Handoff.next_position st1 < Handoff.TOTAL_DIST (Handoff.environment st) ->
  Handoff.P_MIN <= Handoff.currentRSSI st1 r3 r4
    < Handoff.P_MIN + Handoff.thresholdMargin st ->
  let st2 := Handoff.tick st1 r3 r4 in
  Handoff.activeBS st1 = Handoff.other_station (Handoff.activeBS st) /\
  Handoff.activeBS st2 = Handoff.activeBS st /\
  Handoff.isPingPonging st2 = true /\
  Handoff.handoffEvents st2 =
    Handoff.handoffEvents st ++
      [ {| Handoff.pos := Handoff.next_position st;
           Handoff.type := Handoff.handoff |};
        {| Handoff.pos := Handoff.next_position st1;
           Handoff.type := Handoff.handoff |} ].
Proof.
  intros Hm Hin Hsig st1 Hin1 Hsig1 st2.
  assert (H1 : st1 = Handoff.set_advanced st (Handoff.next_position st)
                       (Handoff.other_station (Handoff.activeBS st)) true)
    by (apply threshold_tick_hands_over; assumption).
  assert (H2 : st2 = Handoff.set_advanced st1 (Handoff.next_position st1)
                       (Handoff.other_station (Handoff.activeBS st1)) true).
  { apply threshold_tick_hands_over.
    - rewrite H1. exact Hm.
    - rewrite H1 at 2. exact Hin1.
    - rewrite H1 at 3. exact Hsig1. }
  clearbody st1 st2.
  split; [rewrite H1; reflexivity|].
  rewrite H2. simpl.
  split; [rewrite H1; simpl; destruct (Handoff.activeBS st); reflexivity|].
  split; [rewrite H1; reflexivity|].
  rewrite H1 at 1. simpl. rewrite <- app_assoc. reflexivity.
Qed.

Lemma X16_threshold_ping_pong_witness :
  let st := Handoff.midway_state in
  let st1 := Handoff.tick st (1 / 2) (1 / 2) in
  let st2 := Handoff.tick st1 (1 / 2) (1 / 2) in
  Handoff.activeBS st1 = Handoff.other_station (Handoff.activeBS st) /\
  Handoff.activeBS st2 = Handoff.activeBS st /\
  Handoff.isPingPonging st2 = true /\
  Handoff.handoffEvents st2 =
    Handoff.handoffEvents st ++
      [ {| Handoff.pos := Handoff.next_position st;
           Handoff.type := Handoff.handoff |};
        {| Handoff.pos := Handoff.next_position st1;
           Handoff.type := Handoff.handoff |} ].
Proof.
  apply (X16_threshold_ping_pong Handoff.midway_state
           (1 / 2) (1 / 2) (1 / 2) (1 / 2)).
  - reflexivity.
  - unfold Handoff.next_position. simpl. lra.
  - apply midway_first_signal.
  - rewrite midway_first_tick. unfold Handoff.next_position. simpl. lra.
  - rewrite midway_first_tick. apply midway_second_signal.
Defined.

(** X17: the signal model.  Without jitter the received power never
    exceeds the transmit power, equals it within 1 m of the base station
    (the distance is clamped to 1), and does not grow with the distance;
    with jitter of scale s > 0 and a draw in [0, 1] the value is within
    s / 2 of the noiseless one. *)
Theorem X17_signal_model (env : Handoff.Environment) :
  (forall d d' r r', d <= d' ->
     Handoff.calculateSignal d' env 0 r' <= Handoff.calculateSignal d env 0 r)
  /\
  (forall d r, Handoff.calculateSignal d env 0 r <= Handoff.P_TX) /\
  (forall d r, d <= 1 -> Handoff.calculateSignal d env 0 r = Handoff.P_TX) /\
  (forall d s r, 0 < s -> 0 <= r <= 1 ->
     Rabs (Handoff.calculateSignal d env s r -
           Handoff.calculateSignal d env 0 r) <= s / 2).
Proof.
  split; [|split; [|split]].
  - intros d d' r r' Hd. rewrite !calculateSignal_noiseless.
    apply (base_signal_antitone env d d' Hd).
  - intros d r. rewrite calculateSignal_noiseless.
    apply (base_signal_le_P_TX env d).
  - intros d r Hd. rewrite calculateSignal_noiseless.
    rewrite Rmax_right by assumption. rewrite log10_1. ring.
  - intros d s r Hs Hr.
    rewrite calculateSignal_noisy by assumption.
    rewrite calculateSignal_noiseless.
    unfold Handoff.base_signal. apply Rabs_le. nra.
Qed.

(** ** Occupancy simulation *)

Section TrunkingFacts.
Import Trunking.

Lemma push_event_length (e : Event) (prev : list Event) :
  (length (push_event e prev) <= 5)%nat.
Proof. unfold push_event. apply firstn_le_length. Qed.

Lemma push_event_firstn (e : Event) (l : list Event) :
  push_event e (firstn 5 l) = firstn 5 (e :: l).
Proof.
  unfold push_event.
  change (firstn 5 (e :: firstn 5 l)) with (e :: firstn 4 (firstn 5 l)).
  change (firstn 5 (e :: l)) with (e :: firstn 4 l).
  f_equal. rewrite firstn_firstn. reflexivity.
Qed.

Lemma arrival_event_kind (st : State) (inp : TickInput) (e : Event) :
  arrival_event st inp = Some e -> type e = success \/ type e = drop.
Proof.
  unfold arrival_event.
  destruct (arrival st inp); [|discriminate].
  destruct (currentBusy st <? channels st)%Z;
    intros [= <-]; simpl; auto.
Qed.

Lemma arrival_event_some (st : State) (inp : TickInput) :
  arrival st inp = true -> exists e, arrival_event st inp = Some e.
Proof.
  intros Ha. unfold arrival_event. rewrite Ha.
  destruct (currentBusy st <? channels st)%Z; eauto.
Qed.

Lemma tick_events (st : State) (inp : TickInput) :
  events (tick st inp) =
  match tick_event st inp with
  | Some e => push_event e (events st)
  | None => events st
  end.
Proof. reflexivity. Qed.

Lemma tick_keeps_bound (st : State) (inp : TickInput) :
  (length (events st) <= 5)%nat -> (length (events (tick st inp)) <= 5)%nat.
Proof.
  intros H. rewrite tick_events.
  destruct (tick_event st inp); [apply push_event_length | assumption].
Qed.

(** The log is the five newest of all chosen events. *)
Lemma run_log_recent (inps : list TickInput) (st : State)
      (acc : list Event) :
  events st = firstn 5 acc ->
  events (run st inps) = firstn 5 (chosen_events st inps acc).
Proof.
  revert st acc. induction inps as [|inp rest IH]; intros st acc Hst.
  - exact Hst.
  - cbn [run chosen_events]. apply IH.
    rewrite tick_events, Hst.
    destruct (tick_event st inp) as [e|]; [|reflexivity].
    apply push_event_firstn.
Qed.

End TrunkingFacts.

(** C9: the event log of the occupancy simulation.  A tick puts at most
    one event in front of the log; when an arrival and a departure fall in
    the same tick the logged event is the arrival's (success or drop) and
    no end event is logged; a log of at most 5 entries stays so, and from
    an empty log the log after any run is the 5 newest of the events the
    ticks chose. *)
Theorem C9_event_log_bounded (st : Trunking.State) (inp : Trunking.TickInput) :
  let st' := Trunking.tick st inp in
  (Trunking.events st' = Trunking.events st \/
   exists e, Trunking.events st' = firstn 5 (e :: Trunking.events st)) /\
  (Trunking.arrival st inp = true -> Trunking.departure st inp = true ->
   exists e, Trunking.arrival_event st inp = Some e /\
             (Trunking.type e = Trunking.success \/
              Trunking.type e = Trunking.drop) /\
             Trunking.events st' = firstn 5 (e :: Trunking.events st)) /\
  ((length (Trunking.events st) <= 5)%nat ->
   (length (Trunking.events st') <= 5)%nat) /\
  (forall inps : list Trunking.TickInput,
     Trunking.events st = [] ->
     Trunking.events (Trunking.run st inps) =
       firstn 5 (Trunking.chosen_events st inps []) /\
     (length (Trunking.events (Trunking.run st inps)) <= 5)%nat).
Proof.
  intros st'. subst st'.
  split; [|split; [|split]].
  - rewrite tick_events.
    destruct (Trunking.tick_event st inp) as [e|]; [right | left].
    + exists e. reflexivity.
    + reflexivity.
  - intros Ha Hd.
    destruct (arrival_event_some st inp Ha) as [e He].
    exists e. split; [assumption|].
    split; [apply (arrival_event_kind st inp); assumption|].
    rewrite tick_events. unfold Trunking.tick_event.
    rewrite Hd, He. reflexivity.
  - apply tick_keeps_bound.
  - intros inps Hempty.
    assert (Hlog : Trunking.events (Trunking.run st inps) =
                   firstn 5 (Trunking.chosen_events st inps [])).
    { apply run_log_recent. rewrite Hempty. reflexivity. }
    split; [exact Hlog|].
    rewrite Hlog. apply firstn_le_length.
Qed.

(** ** Occupancy simulation: channels and counters *)

Section TrunkingMore.
Import Trunking.

Lemma tick_busy_step (st : State) (inp : TickInput) :
  (0 <= currentBusy st <= channels st)%Z ->
  (0 <= tick_busy st inp <= channels st)%Z /\
  (currentBusy st - 1 <= tick_busy st inp <= currentBusy st + 1)%Z.
Proof.
  intros Hb. unfold tick_busy, departure, busy_after_arrival.
  destruct (arrival st inp);
    destruct (Z.ltb_spec (currentBusy st) (channels st));
    destruct (Rlt_dec _ _); simpl;
    repeat match goal with
           | |- context [(0 <? ?z)%Z] => destruct (Z.ltb_spec 0 z)
           end; lia.
Qed.

Lemma tick_params (st : State) (inp : TickInput) :
  channels (tick st inp) = channels st /\
  arrivalRate (tick st inp) = arrivalRate st /\
  serviceRate (tick st inp) = serviceRate st /\
  isPlaying (tick st inp) = isPlaying st.
Proof. repeat split. Qed.

(** How one tick moves the counters and what it logs. *)
Lemma tick_accounting (st : State) (inp : TickInput) :
  let s := stats st in
  let s' := stats (tick st inp) in
  let logged := match tick_event st inp with
                | Some e => [e]
                | None => []
                end in
  totalCalls s' =
    (totalCalls s + count_events is_success logged
                  + count_events is_drop logged)%Z /\
  droppedCalls s' = (droppedCalls s + count_events is_drop logged)%Z /\
  (count_events is_drop logged = 1 ->
   (channels st <= currentBusy st)%Z)%Z.
Proof.
  cbn [tick stats]. unfold stats_after_arrival, tick_event, arrival_event.
  destruct (arrival st inp);
    destruct (Z.ltb_spec (currentBusy st) (channels st));
    destruct (departure st inp);
    unfold count_events; simpl; repeat split; intros; lia.
Qed.

Lemma count_events_cons (f : Event -> bool) (e : Event) (l : list Event) :
  count_events f (e :: l) =
  (count_events f [e] + count_events f l)%Z.
Proof.
  unfold count_events. cbn [filter].
  destruct (f e); cbn [length]; lia.
Qed.

Lemma run_accounting (inps : list TickInput) (st : State)
      (acc : list Event) :
  let s := stats st in
  let s' := stats (run st inps) in
  let all := chosen_events st inps acc in
  (totalCalls s' - totalCalls s =
     count_events is_success all - count_events is_success acc
     + (count_events is_drop all - count_events is_drop acc))%Z /\
  (droppedCalls s' - droppedCalls s =
     count_events is_drop all - count_events is_drop acc)%Z.
Proof.
  revert st acc. induction inps as [|inp rest IH]; intros st acc.
  - simpl. lia.
  - cbn [run chosen_events].
    destruct (tick_accounting st inp) as (Ht & Hd & _).
    cbv zeta in Ht, Hd.
    specialize (IH (tick st inp)
                   (match tick_event st inp with
                    | Some e => e :: acc
                    | None => acc
                    end)).
    cbv zeta in IH. destruct IH as [IHt IHd].
    destruct (tick_event st inp) as [e|].
    + rewrite (count_events_cons is_success e acc) in IHt.
      rewrite (count_events_cons is_drop e acc) in IHt, IHd.
      cbv zeta. split; lia.
    + change (count_events is_success []) with 0%Z in Ht.
      change (count_events is_drop []) with 0%Z in Ht, Hd.
      cbv zeta. split; lia.
Qed.

End TrunkingMore.

(** X18: the busy count stays between 0 and the number of channels: from
    a state with 0 <= busy <= channels every run of ticks ends with
    0 <= busy <= channels, the number of channels unchanged; and a single
    tick changes the busy count by at most one. *)
Theorem X18_busy_within_channels (st : Trunking.State)
    (inps : list Trunking.TickInput) (inp : Trunking.TickInput) :
  (0 <= Trunking.currentBusy st <= Trunking.channels st)%Z ->
  (0 <= Trunking.currentBusy (Trunking.run st inps)
     <= Trunking.channels st)%Z /\
  Trunking.channels (Trunking.run st inps) = Trunking.channels st /\
  (Trunking.currentBusy st - 1 <= Trunking.currentBusy (Trunking.tick st inp)
     <= Trunking.currentBusy st + 1)%Z.
Proof.
  intros Hb. split; [|split].
  - revert st Hb. induction inps as [|i rest IH]; intros st Hb.
    + exact Hb.
    + cbn [Trunking.run].
      change (Trunking.channels st)
        with (Trunking.channels (Trunking.tick st i)).
      apply IH. apply (tick_busy_step st i Hb).
  - clear Hb. revert st. induction inps as [|i rest IH]; intros st.
    + reflexivity.
    + cbn [Trunking.run]. rewrite IH. reflexivity.
  - apply (tick_busy_step st inp Hb).
Qed.

Lemma X18_busy_within_channels_witness :
  (0 <= Trunking.currentBusy
          (Trunking.run Trunking.initial_state
             [Trunking.mkInput 0 1 0 ""; Trunking.mkInput 1 0 1 ""])
     <= Trunking.channels Trunking.initial_state)%Z /\
  Trunking.channels
    (Trunking.run Trunking.initial_state
       [Trunking.mkInput 0 1 0 ""; Trunking.mkInput 1 0 1 ""])
  = Trunking.channels Trunking.initial_state /\
  (Trunking.currentBusy Trunking.initial_state - 1
   <= Trunking.currentBusy
        (Trunking.tick Trunking.initial_state (Trunking.mkInput 0 1 0 ""))
   <= Trunking.currentBusy Trunking.initial_state + 1)%Z.
Proof.
  apply (X18_busy_within_channels Trunking.initial_state
           [Trunking.mkInput 0 1 0 ""; Trunking.mkInput 1 0 1 ""]
           (Trunking.mkInput 0 1 0 "")).
  simpl. lia.
Defined.

(** X19: the call counters: from counters with
    0 <= droppedCalls <= totalCalls every run of ticks keeps
    droppedCalls <= totalCalls, never lowers either counter, and the
    displayed simulated blocking percentage lies in [0, 100]. *)
Theorem X19_counters_consistent (st : Trunking.State)
    (inps : list Trunking.TickInput) :
  (0 <= Trunking.droppedCalls (Trunking.stats st)
     <= Trunking.totalCalls (Trunking.stats st))%Z ->
  let s := Trunking.stats st in
  let s' := Trunking.stats (Trunking.run st inps) in
  (Trunking.droppedCalls s <= Trunking.droppedCalls s'
     <= Trunking.totalCalls s')%Z /\
  (Trunking.totalCalls s <= Trunking.totalCalls s')%Z /\
  (Trunking.droppedCalls s' - Trunking.droppedCalls s
     <= Trunking.totalCalls s' - Trunking.totalCalls s)%Z /\
  0 <= Trunking.observed_blocking s' <= 100.
Proof.
  intros Hs s s'. subst s s'.
  destruct (run_accounting inps st []) as [Ht Hd]. cbv zeta in Ht, Hd.
  unfold Trunking.count_events in Ht, Hd. simpl in Ht, Hd.
  set (S' := Trunking.stats (Trunking.run st inps)) in *.
  assert (Htot : (0 <= Trunking.droppedCalls S'
                    <= Trunking.totalCalls S')%Z) by lia.
  repeat split; try lia.
  - unfold Trunking.observed_blocking.
    destruct (Z.ltb_spec 0 (Trunking.totalCalls S')) as [Hpos|_]; [|lra].
    assert (0 < IZR (Trunking.totalCalls S')) by (apply IZR_lt; lia).
    assert (0 <= IZR (Trunking.droppedCalls S')) by (apply IZR_le; lia).
    apply Rmult_le_pos; [|lra].
    apply le_div_of_mul_le; lra.
  - unfold Trunking.observed_blocking.
    destruct (Z.ltb_spec 0 (Trunking.totalCalls S')) as [Hpos|_]; [|lra].
    assert (0 < IZR (Trunking.totalCalls S')) by (apply IZR_lt; lia).
    assert (IZR (Trunking.droppedCalls S') <= IZR (Trunking.totalCalls S'))
      by (apply IZR_le; lia).
    assert (IZR (Trunking.droppedCalls S') / IZR (Trunking.totalCalls S')
            <= 1) by (apply div_le_of_le_mul; lra).
    lra.
Qed.

Lemma X19_counters_consistent_witness :
  let s := Trunking.stats Trunking.initial_state in
  let s' := Trunking.stats
              (Trunking.run Trunking.initial_state
                 [Trunking.mkInput 0 1 0 ""; Trunking.mkInput 1 0 1 ""]) in
  (Trunking.droppedCalls s <= Trunking.droppedCalls s'
     <= Trunking.totalCalls s')%Z /\
  (Trunking.totalCalls s <= Trunking.totalCalls s')%Z /\
  (Trunking.droppedCalls s' - Trunking.droppedCalls s
     <= Trunking.totalCalls s' - Trunking.totalCalls s)%Z /\
  0 <= Trunking.observed_blocking s' <= 100.
Proof.
  apply (X19_counters_consistent Trunking.initial_state
           [Trunking.mkInput 0 1 0 ""; Trunking.mkInput 1 0 1 ""]).
  simpl. lia.
Defined.

(** X20: the counters count the logged arrivals: over any run of ticks,
    totalCalls grows by the number of success and drop events the ticks
    chose and droppedCalls by the number of drop events; and a tick
    chooses a drop event only when every channel is busy. *)
Theorem X20_counters_match_events (st : Trunking.State)
    (inps : list Trunking.TickInput) (inp : Trunking.TickInput) :
  let s := Trunking.stats st in
  let s' := Trunking.stats (Trunking.run st inps) in
  let chosen := Trunking.chosen_events st inps [] in
  Trunking.totalCalls s' =
    (Trunking.totalCalls s
     + Trunking.count_events Trunking.is_success chosen
     + Trunking.count_events Trunking.is_drop chosen)%Z /\
  Trunking.droppedCalls s' =
    (Trunking.droppedCalls s
     + Trunking.count_events Trunking.is_drop chosen)%Z /\
  (forall e, Trunking.tick_event st inp = Some e ->
     Trunking.type e = Trunking.drop ->
     (Trunking.channels st <= Trunking.currentBusy st)%Z /\
     Trunking.arrival st inp = true).
Proof.
  intros s s' chosen. subst s s' chosen.
  destruct (run_accounting inps st []) as [Ht Hd]. cbv zeta in Ht, Hd.
  change (Trunking.count_events Trunking.is_success []) with 0%Z in Ht.
  change (Trunking.count_events Trunking.is_drop []) with 0%Z in Ht, Hd.
  split; [lia|]. split; [lia|].
  intros e He Hty. unfold Trunking.tick_event, Trunking.arrival_event in He.
  destruct (Trunking.arrival st inp);
    destruct (Z.ltb_spec (Trunking.currentBusy st) (Trunking.channels st));
    destruct (Trunking.departure st inp);
    try discriminate He; injection He as <-; simpl in Hty;
    try discriminate Hty; (split; [lia | reflexivity]).
Qed.

(** ** Signal recovery: complex arithmetic *)

Lemma complex_eq (a b : SignalRecovery.Complex) :
  SignalRecovery.re a = SignalRecovery.re b ->
  SignalRecovery.im a = SignalRecovery.im b -> a = b.
Proof.
  destruct a, b. simpl. intros -> ->. reflexivity.
Qed.

Lemma Cring_theory :
  ring_theory SignalRecovery.C0 SignalRecovery.C1 SignalRecovery.Cadd
    SignalRecovery.multiply SignalRecovery.Csub SignalRecovery.Copp
    (@eq SignalRecovery.Complex).
Proof.
  constructor; intros; apply complex_eq; simpl; ring.
Qed.

Add Ring Cring : Cring_theory.

Section ComplexFacts.
Import SignalRecovery.

Lemma toPolar_r_nonneg (z : Complex) : 0 <= toPolar_r z.
Proof. apply sqrt_pos. Qed.

Lemma norm_sqr_nonneg (z : Complex) : 0 <= re z * re z + im z * im z.
Proof. nra. Qed.

Lemma toPolar_r_sqr (z : Complex) :
  toPolar_r z * toPolar_r z = re z * re z + im z * im z.
Proof. apply sqrt_sqrt, norm_sqr_nonneg. Qed.

Lemma re_le_toPolar_r (z : Complex) :
  - toPolar_r z <= re z <= toPolar_r z.
Proof.
  pose proof (toPolar_r_nonneg z) as H0.
  pose proof (toPolar_r_sqr z) as Hs.
  split; nra.
Qed.

Lemma norm_sqr_pos (z : Complex) :
  z <> C0 -> 0 < re z * re z + im z * im z.
Proof.
  intros Hz.
  destruct (Req_dec (re z) 0) as [Hr|Hr];
    destruct (Req_dec (im z) 0) as [Hi|Hi]; try nra.
  exfalso. apply Hz. apply complex_eq; simpl; assumption.
Qed.

(** Dividing 1 by a non-zero number gives its inverse. *)
Lemma divide_one_inverse (z : Complex) :
  z <> C0 -> multiply (divide (complex 1 0) z) z = C1.
Proof.
  intros Hz. pose proof (norm_sqr_pos z Hz) as Hn.
  apply complex_eq; simpl; field; lra.
Qed.

Lemma epsilon_pos : 0 < epsilon.
Proof. unfold epsilon. lra. Qed.

Lemma H_denom_small (H : Complex) :
  toPolar_r H < epsilon -> H_denom H = complex (re H + epsilon) (im H).
Proof.
  intros Hs. unfold H_denom.
  destruct (Rlt_dec _ _); [reflexivity | contradiction].
Qed.

Lemma H_denom_large (H : Complex) :
  ~ toPolar_r H < epsilon -> H_denom H = H.
Proof.
  intros Hs. unfold H_denom.
  destruct (Rlt_dec _ _); [contradiction | reflexivity].
Qed.

Lemma H_denom_nonzero (H : Complex) : H_denom H <> C0.
Proof.
  pose proof epsilon_pos as He.
  destruct (Rlt_dec (toPolar_r H) epsilon) as [Hs|Hl].
  - rewrite H_denom_small by assumption.
    pose proof (re_le_toPolar_r H) as Hre.
    intros Heq. apply (f_equal re) in Heq. simpl in Heq. lra.
  - rewrite H_denom_large by assumption.
    intros ->. apply Hl. unfold toPolar_r. simpl.
    replace (0 * 0 + 0 * 0) with 0 by ring. rewrite sqrt_0. exact He.
Qed.

End ComplexFacts.

(** C4: the equalizer never divides by zero.  For every bin value H, the
    denominator is H with epsilon = 1e-6 added to its real part when
    |H| < epsilon and H itself otherwise; in both cases it is non-zero,
    and E is its inverse: E times the denominator is 1. *)
Theorem C4_equalizer_denominator_nonzero (H : SignalRecovery.Complex) :
  SignalRecovery.epsilon = 1e-6 /\
  (SignalRecovery.toPolar_r H < SignalRecovery.epsilon ->
   SignalRecovery.H_denom H =
     SignalRecovery.complex (SignalRecovery.re H + SignalRecovery.epsilon)
                            (SignalRecovery.im H)) /\
  (~ SignalRecovery.toPolar_r H < SignalRecovery.epsilon ->
   SignalRecovery.H_denom H = H) /\
  SignalRecovery.H_denom H <> SignalRecovery.C0 /\
  0 < SignalRecovery.toPolar_r (SignalRecovery.H_denom H) /\
  SignalRecovery.multiply (SignalRecovery.equalizer_bin H)
    (SignalRecovery.H_denom H) = SignalRecovery.C1.
Proof.
  split; [reflexivity|].
  split; [apply H_denom_small|].
  split; [apply H_denom_large|].
  pose proof (H_denom_nonzero H) as Hnz.
  split; [exact Hnz|].
  split.
  - unfold SignalRecovery.toPolar_r. apply sqrt_lt_R0.
    apply norm_sqr_pos. exact Hnz.
  - apply divide_one_inverse. exact Hnz.
Qed.

(** ** Signal recovery: finite sums and roots of unity *)

Section SumFacts.
Import SignalRecovery.

Lemma Csum_ext_lt (f g : nat -> Complex) (n : nat) :
  (forall i, (i < n)%nat -> f i = g i) -> Csum f n = Csum g n.
Proof.
  induction n as [|n IH]; intros H; simpl.
  - reflexivity.
  - rewrite IH, H by (intros; try apply H; lia). reflexivity.
Qed.

Lemma Csum_zero (n : nat) : Csum (fun _ => C0) n = C0.
Proof.
  induction n as [|n IH]; simpl; [reflexivity|]. rewrite IH. ring.
Qed.

Lemma Csum_const (c : Complex) (n : nat) :
  Csum (fun _ => c) n = multiply (RtoC (INR n)) c.
Proof.
  induction n as [|n IH].
  - simpl. apply complex_eq; simpl; ring.
  - cbn [Csum]. rewrite IH, S_INR.
    apply complex_eq; simpl; ring.
Qed.

Lemma Csum_add (f g : nat -> Complex) (n : nat) :
  Csum (fun i => Cadd (f i) (g i)) n = Cadd (Csum f n) (Csum g n).
Proof.
  induction n as [|n IH]; simpl.
  - ring.
  - rewrite IH. ring.
Qed.

Lemma Csum_scale_l (c : Complex) (f : nat -> Complex) (n : nat) :
  Csum (fun i => multiply c (f i)) n = multiply c (Csum f n).
Proof.
  induction n as [|n IH]; simpl.
  - ring.
  - rewrite IH. ring.
Qed.

Lemma Csum_scale_r (c : Complex) (f : nat -> Complex) (n : nat) :
  Csum (fun i => multiply (f i) c) n = multiply (Csum f n) c.
Proof.
  induction n as [|n IH]; simpl.
  - ring.
  - rewrite IH. ring.
Qed.

Lemma Csum_swap (f : nat -> nat -> Complex) (n m : nat) :
  Csum (fun i => Csum (fun j => f i j) m) n =
  Csum (fun j => Csum (fun i => f i j) n) m.
Proof.
  induction n as [|n IH]; simpl.
  - now rewrite Csum_zero.
  - rewrite IH, <- Csum_add. reflexivity.
Qed.

Lemma Csum_app (f : nat -> Complex) (a b : nat) :
  Csum f (a + b) = Cadd (Csum f a) (Csum (fun i => f (a + i)%nat) b).
Proof.
  induction b as [|b IH].
  - rewrite Nat.add_0_r. simpl. ring.
  - rewrite Nat.add_succ_r. cbn [Csum]. rewrite IH. ring.
Qed.

Lemma Csum_shift (f : nat -> Complex) (n : nat) :
  Csum f (S n) = Cadd (f 0%nat) (Csum (fun i => f (S i)) n).
Proof.
  change (S n) with (1 + n)%nat. rewrite Csum_app. simpl. ring.
Qed.

Lemma Csum_delta (f : nat -> Complex) (n N : nat) :
  (n < N)%nat ->
  Csum (fun m => if (m =? n)%nat then f m else C0) N = f n.
Proof.
  intros Hn. induction N as [|N IH]; [lia|].
  cbn [Csum]. destruct (Nat.eq_dec n N) as [->|Hne].
  - rewrite Nat.eqb_refl.
    rewrite (Csum_ext_lt _ (fun _ => C0)).
    + rewrite Csum_zero. ring.
    + intros i Hi. destruct (Nat.eqb_spec i N); [lia | reflexivity].
  - rewrite IH by lia.
    destruct (Nat.eqb_spec N n); [lia|]. ring.
Qed.

(** *** Powers and the unit circle *)

Lemma Cpow_add (z : Complex) (a b : nat) :
  Cpow z (a + b) = multiply (Cpow z a) (Cpow z b).
Proof.
  induction a as [|a IH]; simpl.
  - ring.
  - rewrite IH. ring.
Qed.

Lemma Cpow_one (n : nat) : Cpow C1 n = C1.
Proof.
  induction n as [|n IH]; simpl; [reflexivity|]. rewrite IH. ring.
Qed.

Lemma cis_0 : cis 0 = C1.
Proof.
  unfold cis, C1. now rewrite cos_0, sin_0.
Qed.

Lemma cis_plus (a b : R) : cis (a + b) = multiply (cis a) (cis b).
Proof.
  unfold cis, multiply. simpl. rewrite cos_plus, sin_plus.
  apply complex_eq; simpl; ring.
Qed.

Lemma cis_pow (t : R) (n : nat) : Cpow (cis t) n = cis (INR n * t).
Proof.
  induction n as [|n IH].
  - simpl. rewrite Rmult_0_l. symmetry. apply cis_0.
  - cbn [Cpow]. rewrite IH, <- cis_plus, S_INR. f_equal. ring.
Qed.

Lemma cis_2PI_nat (n : nat) : cis (2 * PI * INR n) = C1.
Proof.
  unfold cis.
  replace (2 * PI * INR n) with (0 + 2 * INR n * PI) by ring.
  rewrite cos_period, sin_period, cos_0, sin_0. reflexivity.
Qed.

Lemma cis_opp (t : R) : cis (- t) = complex (cos t) (- sin t).
Proof.
  unfold cis. now rewrite cos_neg, sin_neg.
Qed.

Lemma cis_2PI_diff (n m : nat) : cis (2 * PI * (INR n - INR m)) = C1.
Proof.
  destruct (Nat.le_gt_cases m n) as [Hle|Hgt].
  - rewrite <- minus_INR by assumption. apply cis_2PI_nat.
  - replace (2 * PI * (INR n - INR m))
      with (- (2 * PI * INR (m - n))) by (rewrite minus_INR by lia; ring).
    rewrite cis_opp.
    pose proof (cis_2PI_nat (m - n)) as H.
    unfold cis in H. injection H as Hc Hs.
    rewrite Hc, Hs. unfold C1. f_equal. ring.
Qed.

(** No point of the open arc (0, 2 pi) is 1. *)
Lemma cis_neq_1 (t : R) : 0 < t < 2 * PI -> cis t <> C1.
Proof.
  intros [H0 H1] Heq.
  apply (f_equal re) in Heq. simpl in Heq.
  assert (Hs : 0 < sin (t / 2)) by (apply sin_gt_0; lra).
  replace t with (2 * (t / 2)) in Heq by field.
  rewrite cos_2a_sin in Heq. nra.
Qed.

Lemma cis_neq_1_sym (t : R) :
  t <> 0 -> - (2 * PI) < t < 2 * PI -> cis t <> C1.
Proof.
  intros Hne [Hlo Hhi].
  destruct (Rlt_dec 0 t) as [Hpos|Hneg].
  - apply cis_neq_1. lra.
  - intros Heq.
    apply (cis_neq_1 (- t)); [lra|].
    rewrite cis_opp. unfold cis in Heq. injection Heq as Hc Hs.
    rewrite Hc, Hs. unfold C1. f_equal. ring.
Qed.

Lemma multiply_eq_0 (a b : Complex) :
  multiply a b = C0 -> a <> C0 -> b = C0.
Proof.
  intros Hab Ha.
  pose proof (divide_one_inverse a Ha) as Hinv.
  replace b with (multiply (multiply (divide (complex 1 0) a) a) b)
    by (rewrite Hinv; ring).
  replace (multiply (multiply (divide (complex 1 0) a) a) b)
    with (multiply (divide (complex 1 0) a) (multiply a b)) by ring.
  rewrite Hab. ring.
Qed.

(** The geometric sum. *)
Lemma geometric_sum (z : Complex) (n : nat) :
  multiply (Csub z C1) (Csum (fun k => Cpow z k) n) = Csub (Cpow z n) C1.
Proof.
  induction n as [|n IH].
  - simpl. ring.
  - cbn [Csum Cpow].
    replace (multiply (Csub z C1) (Cadd (Csum (fun k => Cpow z k) n) (Cpow z n)))
      with (Cadd (multiply (Csub z C1) (Csum (fun k => Cpow z k) n))
                 (multiply (Csub z C1) (Cpow z n))) by ring.
    rewrite IH. ring.
Qed.

Lemma geometric_sum_root (z : Complex) (n : nat) :
  z <> C1 -> Cpow z n = C1 -> Csum (fun k => Cpow z k) n = C0.
Proof.
  intros Hz Hn.
  apply (multiply_eq_0 (Csub z C1)).
  - rewrite geometric_sum, Hn. ring.
  - intros H0. apply Hz.
    replace z with (Cadd (Csub z C1) C1) by ring. rewrite H0. ring.
Qed.

(** Orthogonality of the Fourier kernels of the forward and the inverse
    transform. *)
Lemma kernel_orthogonal (N m n : nat) :
  (m < N)%nat -> (n < N)%nat ->
  Csum (fun k => multiply (cis (- (2 * PI * INR k * INR m / INR N)))
                          (cis (2 * PI * INR k * INR n / INR N))) N =
  if (m =? n)%nat then RtoC (INR N) else C0.
Proof.
  intros Hm Hn.
  assert (HN : 0 < INR N) by (apply lt_0_INR; lia).
  set (t := 2 * PI * (INR n - INR m) / INR N).
  rewrite (Csum_ext_lt _ (fun k => Cpow (cis t) k)).
  2:{ intros k _. rewrite <- cis_plus, cis_pow. f_equal.
      unfold t. field. lra. }
  destruct (Nat.eqb_spec m n) as [->|Hne].
  - unfold t. replace (2 * PI * (INR n - INR n) / INR N) with 0
      by (field; lra).
    rewrite cis_0.
    rewrite (Csum_ext_lt _ (fun _ => C1)) by (intros; apply Cpow_one).
    rewrite Csum_const. ring.
  - apply geometric_sum_root.
    + pose proof PI_RGT_0 as Hpi.
      assert (Hm' : INR m < INR N) by (apply lt_INR; assumption).
      assert (Hn' : INR n < INR N) by (apply lt_INR; assumption).
      pose proof (pos_INR m) as Hm0. pose proof (pos_INR n) as Hn0.
      assert (Hd : INR n - INR m <> 0).
      { intros Hd. apply Hne. symmetry. apply INR_eq. lra. }
      assert (Hq : -1 < (INR n - INR m) / INR N < 1).
      { split.
        - apply lt_div_of_mul_lt; lra.
        - apply div_lt_of_lt_mul; lra. }
      assert (Hq0 : (INR n - INR m) / INR N <> 0).
      { intros Hz. apply Hd.
        replace (INR n - INR m) with ((INR n - INR m) / INR N * INR N)
          by (field; lra).
        rewrite Hz. ring. }
      replace t with (2 * PI * ((INR n - INR m) / INR N))
        by (unfold t; field; lra).
      set (q := (INR n - INR m) / INR N) in *.
      apply cis_neq_1_sym.
      * intros Hz. apply Hq0.
        apply Rmult_integral in Hz. destruct Hz as [Hz|Hz]; [lra|assumption].
      * split; nra.
    + rewrite cis_pow.
      replace (INR N * t) with (2 * PI * (INR n - INR m))
        by (unfold t; field; lra).
      apply cis_2PI_diff.
Qed.

End SumFacts.

(** ** Signal recovery: the transform pair and the convolution theorem *)

Section TransformFacts.
Import SignalRecovery.

Lemma nth_map_seq {A : Type} (f : nat -> A) (n k : nat) (d : A) :
  (k < n)%nat -> nth k (map f (seq 0 n)) d = f k.
Proof.
  intros Hk.
  rewrite (nth_indep _ d (f 0%nat)) by (rewrite length_map, length_seq; lia).
  rewrite (map_nth f (seq 0 n) 0%nat k).
  rewrite seq_nth by lia. reflexivity.
Qed.

Lemma map_nth_seq_id (l : list R) :
  map (fun i => nth i l 0) (seq 0 (length l)) = l.
Proof.
  apply (nth_ext _ _ 0 0).
  - now rewrite length_map, length_seq.
  - intros k Hk. rewrite length_map, length_seq in Hk.
    now rewrite nth_map_seq.
Qed.

Lemma nth_RtoC (l : list R) (n : nat) :
  nth n (map RtoC l) C0 = RtoC (nth n l 0).
Proof. apply (map_nth RtoC l 0 n). Qed.

Lemma length_fft (v : list Complex) : length (fft v) = length v.
Proof. unfold fft. now rewrite length_map, length_seq. Qed.

Lemma length_ifft (v : list Complex) : length (ifft v) = length v.
Proof. unfold ifft. now rewrite length_map, length_seq. Qed.

Lemma fft_nth (v : list Complex) (k : nat) :
  (k < length v)%nat ->
  nth k (fft v) C0 =
  Csum (fun n => multiply (nth n v C0)
                   (cis (- (2 * PI * INR k * INR n / INR (length v)))))
       (length v).
Proof. intros Hk. unfold fft. now rewrite nth_map_seq. Qed.

Lemma ifft_nth (v : list Complex) (n : nat) :
  (n < length v)%nat ->
  nth n (ifft v) C0 =
  multiply (RtoC (/ INR (length v)))
    (Csum (fun k => multiply (nth k v C0)
                      (cis (2 * PI * INR k * INR n / INR (length v))))
          (length v)).
Proof. intros Hn. unfold ifft. now rewrite nth_map_seq. Qed.

(** Inverting a spectrum that is [c] times the transform of [v] gives [c]
    times [v]. *)
Lemma ifft_scaled_fft (c : Complex) (v V : list Complex) (n : nat) :
  length V = length v ->
  (forall k, (k < length v)%nat ->
             nth k V C0 = multiply c (nth k (fft v) C0)) ->
  (n < length v)%nat ->
  nth n (ifft V) C0 = multiply c (nth n v C0).
Proof.
  intros Hlen HV Hn.
  rewrite ifft_nth by lia. rewrite Hlen.
  set (N := length v) in *.
  assert (HN : 0 < INR N) by (apply lt_0_INR; lia).
  rewrite (Csum_ext_lt _
    (fun k => Csum (fun m =>
       multiply (multiply c (nth m v C0))
         (multiply (cis (- (2 * PI * INR k * INR m / INR N)))
                   (cis (2 * PI * INR k * INR n / INR N)))) N)).
  2:{ intros k Hk. rewrite HV by assumption.
      rewrite fft_nth by assumption. fold N.
      rewrite <- Csum_scale_l, <- Csum_scale_r.
      apply Csum_ext_lt. intros m _. ring. }
  rewrite Csum_swap.
  rewrite (Csum_ext_lt _
    (fun m => if (m =? n)%nat
              then multiply (multiply c (nth m v C0)) (RtoC (INR N))
              else C0)).
  2:{ intros m Hm. rewrite Csum_scale_l.
      rewrite kernel_orthogonal by assumption.
      destruct (m =? n)%nat; [reflexivity | ring]. }
  rewrite Csum_delta by assumption.
  apply complex_eq; simpl; field; lra.
Qed.

(** *** Transforms of real samples as polynomial values *)

Lemma fft_real_peval (l : list R) (k : nat) :
  (k < length l)%nat ->
  nth k (fft (map RtoC l)) C0 =
  peval l (cis (- (2 * PI * INR k / INR (length l)))).
Proof.
  intros Hk. rewrite fft_nth by (rewrite length_map; assumption).
  rewrite length_map. unfold peval.
  assert (HN : 0 < INR (length l)) by (apply lt_0_INR; lia).
  apply Csum_ext_lt. intros n _.
  rewrite nth_RtoC, cis_pow. do 2 f_equal. field. lra.
Qed.

Lemma peval_pad (l : list R) (m : nat) (z : Complex) :
  peval (l ++ repeat 0 m) z = peval l z.
Proof.
  unfold peval. rewrite length_app, repeat_length, Csum_app.
  rewrite (Csum_ext_lt _ (fun _ => C0) m).
  2:{ intros i Hi. rewrite app_nth2_plus.
      rewrite nth_repeat. unfold RtoC, C0.
      apply complex_eq; simpl; ring. }
  rewrite Csum_zero.
  rewrite (Csum_ext_lt _
    (fun n => multiply (RtoC (nth n l 0)) (Cpow z n)) (length l)).
  2:{ intros i Hi. now rewrite app_nth1. }
  ring.
Qed.

Lemma peval_cons (a : R) (l : list R) (z : Complex) :
  peval (a :: l) z = Cadd (RtoC a) (multiply z (peval l z)).
Proof.
  unfold peval. cbn [length]. rewrite Csum_shift.
  cbn [nth Cpow]. rewrite <- Csum_scale_l.
  f_equal; [ring|]. apply Csum_ext_lt. intros i _. ring.
Qed.

(** *** The convolution loop as a sum *)

Lemma RtoC_add (a b : R) : RtoC (a + b) = Cadd (RtoC a) (RtoC b).
Proof. apply complex_eq; simpl; ring. Qed.

Lemma RtoC_mult (a b : R) : RtoC (a * b) = multiply (RtoC a) (RtoC b).
Proof. apply complex_eq; simpl; ring. Qed.

Lemma conv_fold_sum (xs h : list R) (i n : nat) :
  RtoC (fold_left
          (fun acc j =>
             if (j <=? i)%nat && (i - j <? length xs)%nat
             then acc + nth (i - j) xs 0 * nth j h 0
             else acc)
          (seq 0 n) 0) =
  Csum (conv_term xs h i) n.
Proof.
  induction n as [|n IH].
  - reflexivity.
  - rewrite seq_S, fold_left_app. cbn [fold_left Csum Nat.add].
    unfold conv_term at 2.
    destruct ((n <=? i)%nat && (i - n <? length xs)%nat).
    + rewrite RtoC_add, RtoC_mult, IH. reflexivity.
    + rewrite IH. ring.
Qed.

Lemma conv_at_sum (xs h : list R) (i : nat) :
  RtoC (conv_at xs h i) = Csum (conv_term xs h i) (length h).
Proof. apply conv_fold_sum. Qed.

(** The terms of one tap [j] fill the window [j, j + length xs). *)
Lemma window_sum (xs h : list R) (z : Complex) (j n : nat) :
  (n <= length xs)%nat ->
  Csum (fun i => multiply
          (if (j <=? i)%nat && (i - j <? n)%nat
           then multiply (RtoC (nth (i - j) xs 0)) (RtoC (nth j h 0))
           else C0) (Cpow z i)) (j + n) =
  multiply (multiply (RtoC (nth j h 0)) (Cpow z j))
    (Csum (fun t => multiply (RtoC (nth t xs 0)) (Cpow z t)) n).
Proof.
  intros Hn. induction n as [|n IH].
  - rewrite Nat.add_0_r. cbn [Csum].
    rewrite (Csum_ext_lt _ (fun _ => C0)).
    + rewrite Csum_zero. ring.
    + intros i Hi. destruct (Nat.leb_spec j i); [lia|]. simpl. ring.
  - rewrite Nat.add_succ_r. cbn [Csum].
    rewrite (Csum_ext_lt _
      (fun i => multiply
          (if (j <=? i)%nat && (i - j <? n)%nat
           then multiply (RtoC (nth (i - j) xs 0)) (RtoC (nth j h 0))
           else C0) (Cpow z i)) (j + n)).
    2:{ intros i Hi.
        destruct (Nat.leb_spec j i); simpl; [|reflexivity].
        destruct (Nat.ltb_spec (i - j) (S n));
          destruct (Nat.ltb_spec (i - j) n); try lia; reflexivity. }
    rewrite IH by lia.
    destruct (Nat.leb_spec j (j + n)); [|lia].
    destruct (Nat.ltb_spec (j + n - j) (S n)); [|lia].
    simpl andb. cbv iota.
    replace (j + n - j)%nat with n by lia.
    rewrite Cpow_add. ring.
Qed.

Lemma tail_zero_sum (f : nat -> Complex) (a b : nat) :
  (forall i, (a <= i)%nat -> f i = C0) ->
  Csum f (a + b) = Csum f a.
Proof.
  intros H. rewrite Csum_app.
  rewrite (Csum_ext_lt (fun i => f (a + i)%nat) (fun _ => C0))
    by (intros; apply H; lia).
  rewrite Csum_zero. ring.
Qed.

(** The convolution theorem: the polynomial of the convolved samples is
    the product of the polynomials of signal and channel. *)
Lemma peval_conv (xs h : list R) (z : Complex) :
  peval (map (conv_at xs h) (seq 0 (length xs + length h - 1))) z =
  multiply (peval xs z) (peval h z).
Proof.
  set (L := (length xs + length h - 1)%nat).
  unfold peval at 1. rewrite length_map, length_seq.
  rewrite (Csum_ext_lt _
    (fun i => Csum (fun j => multiply (conv_term xs h i j) (Cpow z i))
                   (length h))).
  2:{ intros i Hi. rewrite nth_map_seq by assumption.
      rewrite conv_at_sum, Csum_scale_r. reflexivity. }
  rewrite Csum_swap.
  rewrite (Csum_ext_lt _
    (fun j => multiply (multiply (RtoC (nth j h 0)) (Cpow z j))
                       (peval xs z))).
  2:{ intros j Hj. unfold peval.
      rewrite <- (window_sum xs h z j (length xs)) by lia.
      replace L with (j + length xs + (L - (j + length xs)))%nat
        by (unfold L; lia).
      rewrite tail_zero_sum.
      - apply Csum_ext_lt. intros i _. reflexivity.
      - intros i Hi. unfold conv_term.
        destruct (Nat.leb_spec j i); [|lia].
        destruct (Nat.ltb_spec (i - j) (length xs)); [lia|].
        simpl. ring. }
  rewrite Csum_scale_r. unfold peval. ring.
Qed.

End TransformFacts.

(** ** Signal recovery: the stages *)

Section PipelineFacts.
Import SignalRecovery.

(** Reduce the projections of the state records built by the stages. *)
Ltac fields :=
  cbn [stage inputBits samplesPerSymbol signalX taps signalH signalY
       noiseVariance signalYNoisy spectrumY spectrumH spectrumE
       complexY complexH complexE recoveredSignal recoveredBits].

(** *** Stage 1 *)

Example generate_samples_10 :
  generate_samples "10" 2 = [1; 1; -1; -1; 0; 0; 0; 0].
Proof. reflexivity. Qed.

Lemma length_generate_samples (s : string) (sps : nat) :
  length (generate_samples s sps) =
  (length (bits_of s) * sps + sps * 2)%nat.
Proof.
  unfold generate_samples. rewrite length_app, repeat_length. f_equal.
  induction (bits_of s) as [|b l IH]; simpl.
  - reflexivity.
  - rewrite length_app, repeat_length, IH. reflexivity.
Qed.

Lemma nth_symbol_block (f : nat -> R) (l : list nat) (tl : list R)
      (sps i r : nat) :
  (i < length l)%nat -> (r < sps)%nat ->
  nth (i * sps + r) (flat_map (fun b => repeat (f b) sps) l ++ tl) 0 =
  f (nth i l 0%nat).
Proof.
  revert i. induction l as [|b l IH]; intros i Hi Hr; simpl in Hi.
  - lia.
  - cbn [flat_map]. rewrite <- app_assoc.
    destruct i as [|i].
    + simpl. rewrite app_nth1 by (rewrite repeat_length; assumption).
      apply nth_repeat_lt. assumption.
    + replace (S i * sps + r)%nat with (sps + (i * sps + r))%nat by lia.
      rewrite <- (repeat_length (f b) sps) at 1.
      rewrite app_nth2_plus. cbn [nth]. apply IH; [lia | assumption].
Qed.

Lemma sample_index_inside (sps i : nat) :
  (1 <= sps)%nat -> exists r, (r < sps)%nat /\
                              sample_index sps i = (i * sps + r)%nat.
Proof.
  intros Hs. exists (sps / 2)%nat. split; [|reflexivity].
  apply Nat.div_lt; lia.
Qed.

Lemma nth_generate_samples (s : string) (sps i : nat) :
  (1 <= sps)%nat -> (i < length (bits_of s))%nat ->
  (sample_index sps i < length (generate_samples s sps))%nat /\
  nth (sample_index sps i) (generate_samples s sps) 0 =
  symbol_of_bit (nth i (bits_of s) 0%nat).
Proof.
  intros Hs Hi.
  destruct (sample_index_inside sps i Hs) as (r & Hr & ->).
  split.
  - rewrite length_generate_samples. nia.
  - unfold generate_samples. apply nth_symbol_block; assumption.
Qed.

(** *** Stage 2 *)

Lemma length_add_at (i : nat) (a : R) (h : list R) :
  length (add_at i a h) = length h.
Proof.
  revert i. induction h as [|v h IH]; intros [|i]; simpl; auto.
Qed.

Lemma length_add_tap (h : list R) (t : Tap) :
  length (add_tap h t) = length h.
Proof.
  unfold add_tap. destruct (_ && _); [apply length_add_at | reflexivity].
Qed.

Lemma length_fold_add_tap (ts : list Tap) (h : list R) :
  length (fold_left add_tap ts h) = length h.
Proof.
  revert h. induction ts as [|t ts IH]; intros h; simpl.
  - reflexivity.
  - rewrite IH. apply length_add_tap.
Qed.

Lemma max_delay_nonneg (ts : list Tap) :
  ts <> [] -> Forall (fun t => (0 <= delay t)%Z) ts ->
  exists m, max_delay ts = Some m /\ (0 <= m)%Z.
Proof.
  intros Hne Hall. induction Hall as [|t ts Ht Hall IH]; [now elim Hne|].
  simpl. destruct ts as [|t' ts'].
  - simpl. exists (delay t). auto.
  - destruct IH as (m & -> & Hm); [discriminate|].
    exists (Z.max (delay t) m). split; [reflexivity | lia].
Qed.

(** With at least one tap and no negative delay the channel stage
    succeeds and the impulse response is not empty. *)
Lemma channel_response_defined (ts : list Tap) :
  ts <> [] -> Forall (fun t => (0 <= delay t)%Z) ts ->
  exists h, channel_response ts = Some h /\ (1 <= length h)%nat.
Proof.
  intros Hne Hall.
  destruct (max_delay_nonneg ts Hne Hall) as (m & Hm & Hm0).
  unfold channel_response. rewrite Hm.
  destruct (Z.ltb_spec (m + 1) 0); [lia|].
  eexists. split; [reflexivity|].
  rewrite length_fold_add_tap, repeat_length. lia.
Qed.

(** *** Stage 3 *)

(** Convolution length invariant: the output has one sample less than
    the two inputs together. *)
Lemma length_convolve (xs h ys : list R) :
  convolve xs h = Some ys -> length ys = (length xs + length h - 1)%nat.
Proof.
  unfold convolve.
  destruct xs as [|v xs]; [destruct h as [|w h]; [discriminate|]|];
    intros [= <-]; now rewrite length_map, length_seq.
Qed.

Example convolve_echo :
  convolve [1; -1] [1; 0; 1 / 2] =
  Some [0 + 1 * 1;
        0 + -1 * 1 + 1 * 0;
        0 + -1 * 0 + 1 * (1 / 2);
        0 + -1 * (1 / 2)].
Proof. reflexivity. Qed.

Lemma box_muller_defined (u : R * R) :
  0 < fst u <= 1 -> exists z, box_muller u = Some z.
Proof.
  intros [H0 H1]. unfold box_muller.
  destruct (Rlt_dec 0 (fst u)); [|lra].
  destruct (Rle_dec (fst u) 1); [|lra].
  eexists. reflexivity.
Qed.

(** At a first draw of 0 the sample is not a real number. *)
Lemma box_muller_zero_draw (u2 : R) : box_muller (0, u2) = None.
Proof.
  unfold box_muller. simpl. destruct (Rlt_dec 0 0); [lra | reflexivity].
Qed.

Lemma all_some_map (f : nat -> R) (l : list nat) :
  all_some (map (fun i => Some (f i)) l) = Some (map f l).
Proof.
  induction l as [|i l IH]; simpl; [reflexivity|]. now rewrite IH.
Qed.

Lemma add_noise_zero (draws : nat -> R * R) (ys : list R) :
  (forall i, 0 < fst (draws i) <= 1) ->
  add_noise draws 0 ys = Some ys.
Proof.
  intros Hdraws. unfold add_noise.
  rewrite (map_ext _ (fun i => Some (nth i ys 0))).
  - rewrite all_some_map. f_equal. apply map_nth_seq_id.
  - intros i. destruct (box_muller_defined (draws i) (Hdraws i)) as [z ->].
    f_equal. ring.
Qed.

Lemma convolve_defined (xs h : list R) :
  (1 <= length xs)%nat ->
  convolve xs h =
  Some (map (conv_at xs h) (seq 0 (length xs + length h - 1))).
Proof.
  intros Hx. destruct xs as [|v xs]; [simpl in Hx; lia|]. reflexivity.
Qed.

(** *** Stages 4 and 5 *)

Lemma length_pad_to (N : nat) (h : list R) :
  (length h <= N)%nat -> length (pad_to N h) = N.
Proof.
  intros H. unfold pad_to. rewrite length_app, repeat_length. lia.
Qed.

Lemma nth_map_re (l : list Complex) (n : nat) :
  nth n (map re l) 0 = re (nth n l C0).
Proof. apply (map_nth re l C0 n). Qed.

(** If every bin of the channel spectrum times its equalizer bin is the
    real number [c], the recovered samples are [c] times the padded
    input samples. *)
Lemma recovered_samples_gain (xs h : list R) (c : R) (n : nat) :
  (1 <= length xs)%nat -> (1 <= length h)%nat ->
  let N := (length xs + length h - 1)%nat in
  (forall H, In H (fft (map RtoC (pad_to N h))) ->
             multiply H (equalizer_bin H) = RtoC c) ->
  (n < N)%nat ->
  nth n (recovered_samples xs h) 0 = c * nth n (pad_to N xs) 0.
Proof.
  intros Hx Hh N Hgain Hn.
  unfold recovered_samples. fold N.
  set (ys := map (conv_at xs h) (seq 0 N)).
  set (Hc := fft (map RtoC (pad_to N h))) in *.
  assert (Lys : length ys = N)
    by (unfold ys; now rewrite length_map, length_seq).
  assert (Lx : length (pad_to N xs) = N)
    by (apply length_pad_to; unfold N; lia).
  assert (Lh : length (pad_to N h) = N)
    by (apply length_pad_to; unfold N; lia).
  assert (LHc : length Hc = N)
    by (unfold Hc; now rewrite length_fft, length_map).
  rewrite nth_map_re.
  rewrite (ifft_scaled_fft (RtoC c) (map RtoC (pad_to N xs))).
  - rewrite nth_RtoC. simpl. ring.
  - now rewrite !length_map, length_seq, Lx.
  - rewrite length_map, Lx. intros k Hk.
    rewrite nth_map_seq by assumption.
    rewrite nth_map_seq by assumption.
    rewrite !fft_real_peval by lia.
    rewrite Lys, Lx.
    set (z := cis (- (2 * PI * INR k / INR N))).
    unfold pad_to at 1. rewrite peval_pad.
    unfold ys. fold N. rewrite peval_conv.
    assert (HHk : nth k Hc C0 = peval h z).
    { unfold Hc. rewrite fft_real_peval by lia.
      rewrite Lh. fold z. unfold pad_to. apply peval_pad. }
    pose proof (Hgain (nth k Hc C0)) as Hg.
    rewrite HHk in Hg.
    replace (multiply (multiply (peval xs z) (peval h z))
                      (equalizer_bin (nth k Hc C0)))
      with (multiply (peval xs z)
              (multiply (peval h z) (equalizer_bin (nth k Hc C0)))) by ring.
    rewrite HHk, Hg.
    + ring.
    + rewrite <- HHk. apply nth_In. lia.
  - now rewrite length_map, Lx.
Qed.

(** A bin at or above the floor is inverted exactly. *)
Lemma equalizer_exact (H : Complex) :
  epsilon <= toPolar_r H -> multiply H (equalizer_bin H) = RtoC 1.
Proof.
  intros Hge. unfold equalizer_bin.
  rewrite H_denom_large by lra.
  assert (Hnz : H <> C0).
  { intros ->. unfold toPolar_r in Hge. simpl in Hge.
    replace (0 * 0 + 0 * 0) with 0 in Hge by ring.
    rewrite sqrt_0 in Hge. pose proof epsilon_pos. lra. }
  replace (multiply H (divide (complex 1 0) H))
    with (multiply (divide (complex 1 0) H) H) by ring.
  apply divide_one_inverse. exact Hnz.
Qed.

(** *** Decoding *)

Lemma string_of_list_ascii_snoc (l : list ascii) (c : ascii) :
  string_of_list_ascii (l ++ [c]) =
  (string_of_list_ascii l ++ String c "")%string.
Proof.
  induction l as [|a l IH]; simpl; [reflexivity|]. now rewrite IH.
Qed.

Lemma string_length_list (s : string) :
  String.length s = length (list_ascii_of_string s).
Proof.
  induction s as [|a s IH]; simpl; [reflexivity|]. now rewrite IH.
Qed.

Lemma firstn_snoc (cs : list ascii) (n : nat) :
  (n < length cs)%nat ->
  firstn (S n) cs = firstn n cs ++ [nth n cs "0"%char].
Proof.
  revert n. induction cs as [|c cs IH]; intros n Hn; simpl in Hn.
  - lia.
  - destruct n as [|n]; [reflexivity|].
    change (c :: firstn (S n) cs =
            c :: (firstn n cs ++ [nth n cs "0"%char])).
    f_equal. apply IH. lia.
Qed.

(** If the recovered sample at the sampling point of every bit decides
    to the character [cs] has there, decoding yields [cs]. *)
Lemma decode_chars (cs : list ascii) (sps : nat) (x_recovered : list R) :
  (forall i, (i < length cs)%nat ->
     (sample_index sps i < length x_recovered)%nat /\
     decide_bit (nth (sample_index sps i) x_recovered 0) =
       nth i cs "0"%char) ->
  decode (length cs) sps x_recovered = string_of_list_ascii cs.
Proof.
  intros Hsamples. unfold decode.
  rewrite <- (firstn_all cs) at 2.
  assert (Hgen : forall n, (n <= length cs)%nat ->
    fold_left
      (fun decoded i =>
         let idx := sample_index sps i in
         if (idx <? length x_recovered)%nat
         then (decoded ++
               String (decide_bit (nth idx x_recovered 0)) "")%string
         else decoded)
      (seq 0 n) ""%string = string_of_list_ascii (firstn n cs)).
  { induction n as [|n IH]; intros Hn.
    - reflexivity.
    - rewrite seq_S, fold_left_app, IH by lia. cbn [fold_left Nat.add].
      destruct (Hsamples n) as [Hidx Hbit]; [lia|].
      destruct (Nat.ltb_spec (sample_index sps n) (length x_recovered));
        [|lia].
      rewrite Hbit, firstn_snoc by lia.
      now rewrite string_of_list_ascii_snoc. }
  apply Hgen. lia.
Qed.

(** *** The pipeline without noise *)

Lemma runPipeline_noiseless (draws : nat -> R * R) (st : State)
      (h : list R) :
  noiseVariance st = 0 ->
  (forall i, 0 < fst (draws i) <= 1) ->
  channel_response (taps st) = Some h ->
  (1 <= length h)%nat ->
  let xs := generate_samples (inputBits st) (samplesPerSymbol st) in
  (1 <= length xs)%nat ->
  exists st',
    runPipeline draws st = Some st' /\
    complexH st' = channel_spectrum st /\
    recoveredSignal st' = recovered_samples xs h /\
    recoveredBits st' =
      decode (String.length (inputBits st)) (samplesPerSymbol st)
             (recovered_samples xs h).
Proof.
  intros Hvar Hdraws Hch Hh xs Hx.
  unfold runPipeline, generateChannel, generateSignal. fields.
  rewrite Hch. unfold convolveSignals. fields.
  fold xs.
  rewrite (convolve_defined xs h Hx), Hvar, (add_noise_zero _ _ Hdraws).
  unfold performFFT. fields.
  rewrite length_map, length_seq.
  destruct (Nat.eqb_spec (length xs + length h - 1) 0) as [H0|_]; [lia|].
  unfold performEqualization. fields.
  rewrite !length_fft, !length_map, !length_seq.
  rewrite Nat.ltb_irrefl.
  destruct (Nat.eqb_spec (length xs + length h - 1) 0) as [H0|_]; [lia|].
  cbn [orb].
  eexists. split; [reflexivity|]. fields.
  unfold channel_spectrum. rewrite Hch. fold xs.
  repeat split; reflexivity.
Qed.

End PipelineFacts.

(** ** Signal recovery: the round trip *)

Section RoundTripFacts.
Import SignalRecovery.

Lemma length_recovered_samples (xs h : list R) :
  length (recovered_samples xs h) = (length xs + length h - 1)%nat.
Proof.
  unfold recovered_samples.
  now rewrite length_map, length_ifft, length_map, length_seq.
Qed.

Lemma length_bits_of (s : string) :
  length (bits_of s) = String.length s.
Proof.
  unfold bits_of. now rewrite length_map, string_length_list.
Qed.

(** The pipeline without noise on a channel whose equalized spectrum is
    the constant [c]: bit i is decided from [c] times its symbol. *)
Lemma pipeline_gain (draws : nat -> R * R) (st : State) (h : list R)
      (c : R) (expected : list ascii) :
  noiseVariance st = 0 ->
  (forall i, 0 < fst (draws i) <= 1) ->
  (1 <= samplesPerSymbol st)%nat ->
  channel_response (taps st) = Some h ->
  (1 <= length h)%nat ->
  (forall H, In H (channel_spectrum st) ->
             multiply H (equalizer_bin H) = RtoC c) ->
  length expected = String.length (inputBits st) ->
  (forall i, (i < length expected)%nat ->
     decide_bit (c * symbol_of_bit (nth i (bits_of (inputBits st)) 0%nat))
     = nth i expected "0"%char) ->
  exists st',
    runPipeline draws st = Some st' /\
    complexH st' = channel_spectrum st /\
    recoveredBits st' = string_of_list_ascii expected.
Proof.
  intros Hvar Hdraws Hsps Hch Hh Hgain Hlen Hdec.
  set (xs := generate_samples (inputBits st) (samplesPerSymbol st)).
  assert (Hx : (1 <= length xs)%nat).
  { unfold xs. rewrite length_generate_samples. lia. }
  destruct (runPipeline_noiseless draws st h Hvar Hdraws Hch Hh Hx)
    as (st' & Hrun & HH & _ & Hbits).
  exists st'. split; [exact Hrun|]. split; [exact HH|].
  rewrite Hbits, <- Hlen. fold xs.
  apply decode_chars. intros i Hi.
  assert (Hi' : (i < length (bits_of (inputBits st)))%nat)
    by (rewrite length_bits_of; lia).
  destruct (nth_generate_samples (inputBits st) (samplesPerSymbol st) i
              Hsps Hi') as [Hidx Hnth].
  fold xs in Hidx, Hnth.
  split.
  - rewrite length_recovered_samples. lia.
  - rewrite (recovered_samples_gain xs h c) by
      (try assumption; try lia;
       unfold channel_spectrum in Hgain; rewrite Hch in Hgain;
       exact Hgain).
    unfold pad_to. rewrite app_nth1 by assumption.
    rewrite Hnth. apply Hdec. assumption.
Qed.

(** *** Moduli *)

Lemma toPolar_r_RtoC (a : R) : toPolar_r (RtoC a) = Rabs a.
Proof.
  unfold toPolar_r, RtoC. simpl.
  replace (a * a + 0 * 0) with (Rsqr a) by (unfold Rsqr; ring).
  apply sqrt_Rsqr_abs.
Qed.

Lemma toPolar_r_cis (t : R) : toPolar_r (cis t) = 1.
Proof.
  unfold toPolar_r, cis. simpl.
  replace (cos t * cos t + sin t * sin t)
    with (Rsqr (sin t) + Rsqr (cos t)) by (unfold Rsqr; ring).
  rewrite sin2_cos2. apply sqrt_1.
Qed.

Lemma toPolar_r_mult (a b : Complex) :
  toPolar_r (multiply a b) = toPolar_r a * toPolar_r b.
Proof.
  unfold toPolar_r. rewrite <- sqrt_mult by apply norm_sqr_nonneg.
  f_equal. simpl. ring.
Qed.

Lemma toPolar_r_dist (a : Complex) :
  toPolar_r a = dist_euc (re a) (im a) 0 0.
Proof.
  unfold toPolar_r, dist_euc, Rsqr. f_equal. ring.
Qed.

Lemma toPolar_r_triangle (a b : Complex) :
  toPolar_r (Cadd a b) <= toPolar_r a + toPolar_r b.
Proof.
  pose proof (triangle (re a) (im a) (- re b) (- im b) 0 0) as H.
  rewrite (toPolar_r_dist a).
  replace (toPolar_r (Cadd a b))
    with (dist_euc (re a) (im a) (- re b) (- im b)).
  2:{ unfold toPolar_r, dist_euc, Rsqr. f_equal. simpl. ring. }
  replace (toPolar_r b) with (dist_euc 0 0 (- re b) (- im b)).
  2:{ unfold toPolar_r, dist_euc, Rsqr. f_equal. ring. }
  exact H.
Qed.

Lemma peval_bound (l : list R) (z : Complex) :
  toPolar_r z = 1 -> toPolar_r (peval l z) <= sum_abs l.
Proof.
  intros Hz. induction l as [|a l IH].
  - unfold peval. simpl. unfold toPolar_r, C0. simpl.
    replace (0 * 0 + 0 * 0) with 0 by ring. rewrite sqrt_0. lra.
  - rewrite peval_cons. cbn [sum_abs].
    pose proof (toPolar_r_triangle (RtoC a) (multiply z (peval l z))) as Ht.
    rewrite toPolar_r_RtoC, toPolar_r_mult, Hz in Ht. lra.
Qed.

(** A direct tap that outweighs all echoes keeps every bin away from 0. *)
Lemma dominant_tap_bound (a : R) (l : list R) (z : Complex) :
  toPolar_r z = 1 ->
  Rabs a - sum_abs l <= toPolar_r (peval (a :: l) z).
Proof.
  intros Hz. rewrite peval_cons.
  set (P := multiply z (peval l z)).
  pose proof (toPolar_r_triangle (Cadd (RtoC a) P) (Copp P)) as Ht.
  replace (Cadd (Cadd (RtoC a) P) (Copp P)) with (RtoC a) in Ht by ring.
  rewrite toPolar_r_RtoC in Ht.
  assert (Hopp : toPolar_r (Copp P) = toPolar_r P).
  { unfold toPolar_r. f_equal. simpl. ring. }
  assert (HP : toPolar_r P <= sum_abs l).
  { unfold P. rewrite toPolar_r_mult, Hz.
    pose proof (peval_bound l z Hz). lra. }
  lra.
Qed.

(** Every bin of the spectrum of padded real samples is a value of their
    polynomial on the unit circle. *)
Lemma spectrum_bin (l : list R) (m : nat) (H : Complex) :
  In H (fft (map RtoC (l ++ repeat 0 m))) ->
  exists z, toPolar_r z = 1 /\ H = peval l z.
Proof.
  intros Hin.
  destruct (In_nth _ _ C0 Hin) as (k & Hk & <-).
  rewrite length_fft, length_map in Hk.
  rewrite fft_real_peval by assumption.
  eexists. split; [apply toPolar_r_cis|]. apply peval_pad.
Qed.

End RoundTripFacts.

Section ExampleChannels.
Import SignalRecovery.

(** The impulse response of the initial taps: 1 at delay 0, 0.5 at delay
    5 and -0.3 at delay 12. *)
Lemma initial_channel_response :
  channel_response initial_taps =
  Some [0 + 1.0; 0; 0; 0; 0; 0 + 0.5; 0; 0; 0; 0; 0; 0; 0 + -0.3].
Proof. reflexivity. Qed.

Lemma initial_spectrum_floor (H : Complex) :
  In H (channel_spectrum initial_state) -> epsilon <= toPolar_r H.
Proof.
  unfold channel_spectrum. cbn [taps initial_state state_with].
  rewrite initial_channel_response. cbv zeta. unfold pad_to.
  intros Hin. destruct (spectrum_bin _ _ _ Hin) as (z & Hz & ->).
  pose proof (dominant_tap_bound (0 + 1.0)
                [0; 0; 0; 0; 0 + 0.5; 0; 0; 0; 0; 0; 0; 0 + -0.3] z Hz)
    as Hb.
  cbn [sum_abs] in Hb.
  rewrite !Rabs_R0 in Hb.
  rewrite (Rabs_right (0 + 1.0)) in Hb by lra.
  rewrite (Rabs_right (0 + 0.5)) in Hb by lra.
  rewrite (Rabs_left (0 + -0.3)) in Hb by lra.
  unfold epsilon. lra.
Qed.

Lemma faint_channel_response :
  channel_response faint_taps = Some [0 + -5e-7].
Proof. reflexivity. Qed.

(** Every bin of the faint channel is the real number -5e-7. *)
Lemma faint_spectrum_bin (H : Complex) :
  In H (channel_spectrum faint_state) -> H = RtoC (-5e-7).
Proof.
  unfold channel_spectrum. cbn [taps faint_state state_with].
  rewrite faint_channel_response. cbv zeta. unfold pad_to.
  intros Hin. destruct (spectrum_bin _ _ _ Hin) as (z & _ & ->).
  unfold peval. simpl. apply complex_eq; simpl; lra.
Qed.

Lemma faint_spectrum_length :
  length (channel_spectrum faint_state) = 30%nat.
Proof.
  unfold channel_spectrum. cbn [taps faint_state state_with].
  rewrite faint_channel_response. cbv zeta.
  rewrite length_fft, length_map. unfold pad_to.
  rewrite length_app, repeat_length.
  cbn [inputBits samplesPerSymbol].
  rewrite length_generate_samples. reflexivity.
Qed.

Lemma faint_bin_equalized :
  multiply (RtoC (-5e-7)) (equalizer_bin (RtoC (-5e-7))) = RtoC (-1).
Proof.
  unfold equalizer_bin.
  rewrite H_denom_small.
  - apply complex_eq; simpl; unfold epsilon; field_simplify; lra.
  - rewrite toPolar_r_RtoC, Rabs_left by lra. unfold epsilon. lra.
Qed.

End ExampleChannels.

(** C1, as the code has it: without noise, with every first draw of the
    noise stage in (0, 1] (at a draw of 0 the Gaussian sample is infinite
    and its product with the noise level 0 is not a number), with at least
    one sample per symbol, at least one tap and no negative delay, and a
    channel whose spectrum stays at or above the floor epsilon = 1e-6 at
    every bin (so that the equalizer inverts every bin exactly), the five
    stages succeed and the recovered bits are the input bits, for every
    string of the characters 0 and 1. *)
Theorem C1_roundtrip_above_floor
    (draws : nat -> R * R) (st : SignalRecovery.State) :
  SignalRecovery.noiseVariance st = 0 ->
  (forall i, 0 < fst (draws i) <= 1) ->
  (1 <= SignalRecovery.samplesPerSymbol st)%nat ->
  SignalRecovery.binary_string (SignalRecovery.inputBits st) ->
  SignalRecovery.taps st <> [] ->
  Forall (fun t => (0 <= SignalRecovery.delay t)%Z) (SignalRecovery.taps st) ->
  (forall H, In H (SignalRecovery.channel_spectrum st) ->
             SignalRecovery.epsilon <= SignalRecovery.toPolar_r H) ->
  exists st',
    SignalRecovery.runPipeline draws st = Some st' /\
    SignalRecovery.complexH st' = SignalRecovery.channel_spectrum st /\
    SignalRecovery.recoveredBits st' = SignalRecovery.inputBits st.
Proof.
  intros Hvar Hdraws Hsps Hbin Htaps Hdelays Hfloor.
  destruct (channel_response_defined _ Htaps Hdelays) as (h & Hch & Hh).
  destruct (pipeline_gain draws st h 1
              (list_ascii_of_string (SignalRecovery.inputBits st)))
    as (st' & Hrun & HH & Hbits); try assumption.
  - intros H HinH. apply equalizer_exact, Hfloor, HinH.
  - symmetry. apply string_length_list.
  - intros i Hi.
    unfold SignalRecovery.bits_of.
    change 0%nat with (SignalRecovery.bit_of_char "0"%char).
    rewrite map_nth.
    assert (Hc : nth i (list_ascii_of_string (SignalRecovery.inputBits st))
                     "0"%char = "0"%char \/
                 nth i (list_ascii_of_string (SignalRecovery.inputBits st))
                     "0"%char = "1"%char).
    { unfold SignalRecovery.binary_string in Hbin.
      rewrite Forall_forall in Hbin. apply Hbin, nth_In, Hi. }
    destruct Hc as [-> | ->];
      unfold SignalRecovery.decide_bit, SignalRecovery.symbol_of_bit;
      simpl; destruct (Rgt_dec _ _) as [Hgt|Hngt];
      try reflexivity; exfalso; lra.
  - exists st'. split; [exact Hrun|]. split; [exact HH|].
    rewrite Hbits. apply string_of_list_ascii_of_string.
Qed.

(** C1 at the initial state of the component: bits 10110, 10 samples per
    symbol, taps (0, 1.0), (5, 0.5), (12, -0.3), no noise; every bin of
    the channel spectrum has modulus at least 0.2. *)
Lemma C1_roundtrip_above_floor_witness :
  exists st',
    SignalRecovery.runPipeline SignalRecovery.half_draws
      SignalRecovery.initial_state = Some st' /\
    SignalRecovery.complexH st' =
      SignalRecovery.channel_spectrum SignalRecovery.initial_state /\
    SignalRecovery.recoveredBits st' = "10110"%string.
Proof.
  apply (C1_roundtrip_above_floor SignalRecovery.half_draws
           SignalRecovery.initial_state).
  - simpl. lra.
  - intros i. simpl. lra.
  - simpl. lia.
  - unfold SignalRecovery.binary_string. simpl.
    repeat (apply Forall_cons;
            [ (left; reflexivity) || (right; reflexivity) | ]).
    apply Forall_nil.
  - discriminate.
  - repeat constructor; simpl; lia.
  - apply initial_spectrum_floor.
Defined.

(** C1, counterexample to recovery over every channel without spectral
    nulls: the channel with the single tap (0, -5e-7) has no spectral null
    (each of the 30 bins is -5e-7), and without noise the bit string 1 is
    decoded as 0: the floor replaces the denominator -5e-7 by 5e-7 and the
    recovered samples change sign. *)
Lemma C1_faint_channel_inverts_bits :
  SignalRecovery.noiseVariance SignalRecovery.faint_state = 0 /\
  SignalRecovery.binary_string
    (SignalRecovery.inputBits SignalRecovery.faint_state) /\
  length (SignalRecovery.channel_spectrum SignalRecovery.faint_state)
    = 30%nat /\
  (forall H, In H (SignalRecovery.channel_spectrum SignalRecovery.faint_state)
             -> SignalRecovery.toPolar_r H <> 0) /\
  exists st',
    SignalRecovery.runPipeline SignalRecovery.half_draws
      SignalRecovery.faint_state = Some st' /\
    SignalRecovery.recoveredBits st' = "0"%string /\
    SignalRecovery.recoveredBits st' <>
      SignalRecovery.inputBits SignalRecovery.faint_state.
Proof.
  split; [reflexivity|].
  split.
  { unfold SignalRecovery.binary_string. simpl.
    apply Forall_cons; [right; reflexivity | apply Forall_nil]. }
  split; [apply faint_spectrum_length|].
  split.
  - intros H Hin. rewrite (faint_spectrum_bin H Hin).
    rewrite toPolar_r_RtoC, Rabs_left by lra. lra.
  - destruct (pipeline_gain SignalRecovery.half_draws
                SignalRecovery.faint_state [0 + -5e-7] (-1)
                ["0"%char])
      as (st' & Hrun & _ & Hbits).
    + reflexivity.
    + intros i. simpl. lra.
    + simpl. lia.
    + apply faint_channel_response.
    + simpl. lia.
    + intros H Hin. rewrite (faint_spectrum_bin H Hin).
      apply faint_bin_equalized.
    + reflexivity.
    + intros i Hi. simpl in Hi.
      assert (i = 0%nat) as -> by lia.
      simpl. unfold SignalRecovery.decide_bit,
        SignalRecovery.symbol_of_bit. simpl.
      destruct (Rgt_dec _ _) as [Hgt|_]; [exfalso; lra | reflexivity].
    + exists st'. split; [exact Hrun|].
      rewrite Hbits. simpl. split; [reflexivity | discriminate].
Qed.

(** ** Signal recovery: the stages one by one *)

Section StageFacts.
Import SignalRecovery.

(** *** Convolution *)

Lemma conv_at_unit (xs : list R) (i : nat) :
  (i < length xs)%nat -> conv_at xs [1] i = nth i xs 0.
Proof.
  intros Hi. unfold conv_at. simpl.
  rewrite Nat.sub_0_r.
  destruct (Nat.ltb_spec i (length xs)); [|lia]. lra.
Qed.

(** *** Stage 1 *)

Lemma nth_tail_zero (body : list R) (m k : nat) :
  (k < m)%nat -> nth (length body + k) (body ++ repeat 0 m) 0 = 0.
Proof.
  intros Hk. rewrite app_nth2_plus. apply nth_repeat.
Qed.

Lemma length_symbols (l : list nat) (sps : nat) :
  length (flat_map (fun bit => repeat (symbol_of_bit bit) sps) l) =
  (length l * sps)%nat.
Proof.
  induction l as [|b l IH]; simpl; [reflexivity|].
  now rewrite length_app, repeat_length, IH.
Qed.

(** *** Stage 2 *)

Lemma nth_add_at (i d : nat) (a : R) (h : list R) :
  (i < length h)%nat ->
  nth d (add_at i a h) 0 =
  if (d =? i)%nat then nth d h 0 + a else nth d h 0.
Proof.
  revert i d. induction h as [|v h IH]; intros i d Hi; simpl in Hi; [lia|].
  destruct i as [|i], d as [|d]; simpl; try reflexivity.
  apply IH. lia.
Qed.

Lemma nth_add_tap (h : list R) (t : Tap) (d : nat) :
  (delay t < Z.of_nat (length h))%Z ->
  nth d (add_tap h t) 0 =
  nth d h 0 + (if (delay t =? Z.of_nat d)%Z then amp t else 0).
Proof.
  intros Hr. unfold add_tap.
  destruct (Z.leb_spec 0 (delay t)) as [Hge|Hneg].
  - destruct (Z.ltb_spec (delay t) (Z.of_nat (length h))); [|lia].
    simpl andb. cbv iota.
    rewrite nth_add_at by lia.
    destruct (Nat.eqb_spec d (Z.to_nat (delay t))) as [->|Hne].
    + rewrite Z2Nat.id by lia. rewrite Z.eqb_refl. reflexivity.
    + destruct (Z.eqb_spec (delay t) (Z.of_nat d)) as [Heq|_]; [|lra].
      exfalso. apply Hne. rewrite Heq. now rewrite Nat2Z.id.
  - simpl andb. cbv iota.
    destruct (Z.eqb_spec (delay t) (Z.of_nat d)); [lia | lra].
Qed.

Lemma nth_fold_add_tap (ts : list Tap) (h : list R) (d : nat) :
  Forall (fun t => (delay t < Z.of_nat (length h))%Z) ts ->
  nth d (fold_left add_tap ts h) 0 = nth d h 0 + taps_at ts d.
Proof.
  revert h. induction ts as [|t ts IH]; intros h Hall.
  - simpl. unfold taps_at, Rlist_sum. simpl. lra.
  - inversion Hall as [|? ? Ht Hts]; subst.
    cbn [fold_left]. rewrite IH by (rewrite length_add_tap; exact Hts).
    rewrite nth_add_tap by exact Ht.
    unfold taps_at. cbn [filter].
    destruct (Z.eqb (delay t) (Z.of_nat d)); cbn [map];
      unfold Rlist_sum; simpl; lra.
Qed.

Lemma max_delay_upper (ts : list Tap) (m : Z) :
  max_delay ts = Some m -> Forall (fun t => (delay t <= m)%Z) ts.
Proof.
  revert m. induction ts as [|t ts IH]; intros m Hm; [constructor|].
  simpl in Hm. destruct (max_delay ts) as [m'|] eqn:Hmd.
  - injection Hm as <-. constructor; [lia|].
    apply Forall_impl with (P := fun t => (delay t <= m')%Z);
      [intros; lia | apply IH; reflexivity].
  - injection Hm as <-. destruct ts as [|t' ts']; [repeat constructor; lia|].
    simpl in Hmd. destruct (max_delay ts'); discriminate.
Qed.

Lemma nth_repeat_zero (n d : nat) : nth d (repeat 0 n) 0 = 0.
Proof. apply nth_repeat. Qed.

(** *** Decoding *)

Lemma list_ascii_of_string_snoc (s : string) (c : ascii) :
  list_ascii_of_string (s ++ String c "")%string =
  list_ascii_of_string s ++ [c].
Proof.
  induction s as [|a s IH]; simpl; [reflexivity|]. now rewrite IH.
Qed.

Lemma decide_bit_binary (v : R) :
  decide_bit v = "0"%char \/ decide_bit v = "1"%char.
Proof.
  unfold decide_bit. destruct (Rgt_dec v 0); auto.
Qed.

Lemma decode_prefix (sps : nat) (x_recovered : list R) (n : nat) :
  let out := decode n sps x_recovered in
  binary_string out /\
  (String.length out <= n)%nat /\
  ((forall i, (i < n)%nat ->
      (sample_index sps i < length x_recovered)%nat) ->
   String.length out = n).
Proof.
  unfold decode. induction n as [|n IH].
  - simpl. unfold binary_string. simpl. repeat split; auto.
  - rewrite seq_S, fold_left_app. cbn [fold_left Nat.add].
    cbv zeta in IH. destruct IH as (Hbin & Hlen & Hfull).
    set (prev := fold_left _ (seq 0 n) ""%string) in *.
    destruct (Nat.ltb_spec (sample_index sps n) (length x_recovered))
      as [Hin|Hout].
    + cbv zeta. split; [|split].
      * unfold binary_string in *. rewrite list_ascii_of_string_snoc.
        apply Forall_app. split; [exact Hbin|].
        constructor; [apply decide_bit_binary | constructor].
      * rewrite string_length_list, list_ascii_of_string_snoc,
          length_app, <- string_length_list. simpl. lia.
      * intros Hall.
        rewrite string_length_list, list_ascii_of_string_snoc,
          length_app, <- string_length_list. simpl.
        rewrite Hfull; [lia|]. intros i Hi. apply Hall. lia.
    + cbv zeta. split; [exact Hbin|]. split; [lia|].
      intros Hall. specialize (Hall n ltac:(lia)). lia.
Qed.

(** *** The whole pipeline *)

(** The recovered bits are the input bits as soon as every bin of the
    channel spectrum is inverted exactly. *)
Lemma pipeline_exact (draws : nat -> R * R) (st : State) (h : list R) :
  noiseVariance st = 0 ->
  (forall i, 0 < fst (draws i) <= 1) ->
  (1 <= samplesPerSymbol st)%nat ->
  binary_string (inputBits st) ->
  channel_response (taps st) = Some h ->
  (1 <= length h)%nat ->
  (forall H, In H (channel_spectrum st) -> epsilon <= toPolar_r H) ->
  exists st',
    runPipeline draws st = Some st' /\
    recoveredBits st' = inputBits st.
Proof.
  intros Hvar Hdraws Hsps Hbin Hch Hh Hfloor.
  destruct (pipeline_gain draws st h 1
              (list_ascii_of_string (inputBits st)))
    as (st' & Hrun & _ & Hbits); try assumption.
  - intros H HinH. apply equalizer_exact, Hfloor, HinH.
  - symmetry. apply string_length_list.
  - intros i Hi. unfold bits_of.
    change 0%nat with (bit_of_char "0"%char). rewrite map_nth.
    assert (Hc : nth i (list_ascii_of_string (inputBits st)) "0"%char
                 = "0"%char \/
                 nth i (list_ascii_of_string (inputBits st)) "0"%char
                 = "1"%char).
    { unfold binary_string in Hbin. rewrite Forall_forall in Hbin.
      apply Hbin, nth_In, Hi. }
    destruct Hc as [-> | ->]; unfold decide_bit, symbol_of_bit; simpl;
      destruct (Rgt_dec _ _); try reflexivity; exfalso; lra.
  - exists st'. split; [exact Hrun|].
    rewrite Hbits. apply string_of_list_ascii_of_string.
Qed.

Lemma peval_zero (l : list R) (z : Complex) :
  Forall (fun v => v = 0) l -> peval l z = C0.
Proof.
  intros Hz. unfold peval.
  rewrite (Csum_ext_lt _ (fun _ => C0)); [apply Csum_zero|].
  intros i Hi. rewrite Forall_forall in Hz.
  rewrite (Hz (nth i l 0)) by (apply nth_In; exact Hi).
  apply complex_eq; simpl; ring.
Qed.

End StageFacts.

Section PipelineFacts.
Import SignalRecovery.

Lemma channel_response_taps (ts : list Tap) (m : Z) :
  max_delay ts = Some m -> (-1 <= m)%Z ->
  exists h,
    channel_response ts = Some h /\
    length h = Z.to_nat (m + 1) /\
    forall d, nth d h 0 = 0 + taps_at ts d.
Proof.
  intros Hm Hge. unfold channel_response. rewrite Hm.
  destruct (Z.ltb_spec (m + 1) 0); [lia|].
  eexists. split; [reflexivity|]. split.
  - now rewrite length_fold_add_tap, repeat_length.
  - intros d. rewrite nth_fold_add_tap.
    + now rewrite nth_repeat_zero.
    + rewrite repeat_length.
      apply Forall_impl with (P := fun t => (delay t <= m)%Z).
      * intros t Ht. lia.
      * apply max_delay_upper. exact Hm.
Qed.

Lemma channel_response_silent (ts : list Tap) (h : list R) :
  Forall (fun t => amp t = 0) ts ->
  channel_response ts = Some h -> Forall (fun v => v = 0) h.
Proof.
  intros Hz Hch. unfold channel_response in Hch.
  destruct (max_delay ts) as [m|] eqn:Hm; [|discriminate].
  destruct (Z.ltb_spec (m + 1) 0); [discriminate|].
  destruct (channel_response_taps ts m Hm ltac:(lia)) as (h' & Hch' & _ & Hn).
  unfold channel_response in Hch'. rewrite Hm in Hch'.
  destruct (Z.ltb_spec (m + 1) 0); [lia|].
  rewrite Hch' in Hch. injection Hch as <-.
  apply Forall_forall. intros v Hv.
  destruct (In_nth _ _ 0 Hv) as (d & _ & <-).
  rewrite Hn. unfold taps_at.
  assert (Hs : forall l, Forall (fun t => amp t = 0) l ->
                 Rlist_sum (map amp l) = 0).
  { induction l as [|t l IH]; intros Hl; [reflexivity|].
    inversion Hl; subst. unfold Rlist_sum in *. simpl.
    rewrite IH by assumption. lra. }
  rewrite Hs; [lra|].
  apply Forall_forall. intros t Ht. apply filter_In in Ht.
  rewrite Forall_forall in Hz. apply Hz, Ht.
Qed.

(** The fields that the first three stages write. *)
Lemma runPipeline_signals (draws : nat -> R * R) (st st' : State) :
  runPipeline draws st = Some st' ->
  stage st' = 5%nat /\
  signalX st' = generate_samples (inputBits st) (samplesPerSymbol st) /\
  channel_response (taps st) = Some (signalH st') /\
  convolve (signalX st') (signalH st') = Some (signalY st').
Proof.
  unfold runPipeline, generateChannel, convolveSignals, generateSignal.
  cbn [taps signalX signalH noiseVariance].
  destruct (channel_response (taps st)) as [h|]; [|discriminate].
  cbn [signalX signalH noiseVariance].
  destruct (convolve _ h) as [ys|] eqn:Hc; [|discriminate].
  destruct (add_noise _ _ ys) as [yn|]; [|discriminate].
  unfold performFFT. cbn [signalYNoisy].
  destruct (length yn =? 0)%nat; [discriminate|].
  unfold performEqualization.
  cbn [complexY complexE].
  destruct (_ || _); [discriminate|].
  intros [= <-]. cbn. rewrite Hc. repeat split.
Qed.

(** With an empty spectrum, or an equalizer shorter than the spectrum,
    the last stage does not return a state. *)
Lemma performEqualization_fails (st : State) :
  complexY st = [] \/ (length (complexE st) < length (complexY st))%nat ->
  performEqualization st = None.
Proof.
  intros [H0|Hlt]; unfold performEqualization.
  - rewrite H0. cbn [length Nat.eqb].
    now rewrite Bool.orb_true_r.
  - destruct (Nat.ltb_spec (length (complexE st)) (length (complexY st)));
      [reflexivity | lia].
Qed.

(** Without samples to transform, stage 4 does not return a state. *)
Lemma performFFT_fails (st : State) :
  signalYNoisy st = [] -> performFFT st = None.
Proof. intros H0. unfold performFFT. now rewrite H0. Qed.

(** A first draw of 0 for the first sample takes the noise stage out of
    the real numbers, whatever the noise level. *)
Lemma add_noise_zero_draw (draws : nat -> R * R) (variance y : R)
      (ys : list R) :
  fst (draws 0%nat) = 0 -> add_noise draws variance (y :: ys) = None.
Proof.
  intros H0. unfold add_noise. cbn [length seq map].
  destruct (draws 0%nat) as [u1 u2]. simpl in H0. subst u1.
  rewrite box_muller_zero_draw. reflexivity.
Qed.

Lemma spectrum_floor_of_dominant_tap (st : State) (a : R) (l : list R) :
  channel_response (taps st) = Some (a :: l) ->
  epsilon <= Rabs a - sum_abs l ->
  forall H, In H (channel_spectrum st) -> epsilon <= toPolar_r H.
Proof.
  intros Hch Hdom H. unfold channel_spectrum. rewrite Hch. cbv zeta.
  unfold pad_to. intros Hin.
  destruct (spectrum_bin _ _ _ Hin) as (z & Hz & ->).
  pose proof (dominant_tap_bound a l z Hz). lra.
Qed.

Lemma initial_taps_dominant :
  epsilon <=
  Rabs (0 + 1.0) -
  sum_abs [0; 0; 0; 0; 0 + 0.5; 0; 0; 0; 0; 0; 0; 0 + -0.3].
Proof.
  cbn [sum_abs]. rewrite !Rabs_R0.
  rewrite (Rabs_right (0 + 1.0)) by lra.
  rewrite (Rabs_right (0 + 0.5)) by lra.
  rewrite (Rabs_left (0 + -0.3)) by lra.
  unfold epsilon. lra.
Qed.

End PipelineFacts.

(** X21: [convolveSignals] fails only when both the signal and the
    impulse response are empty; otherwise the received signal has
    [x.length + h.length - 1] samples, and the one-tap channel of
    amplitude 1 hands the signal through unchanged. *)
Theorem X21_convolution_shape (xs h : list R) :
  (SignalRecovery.convolve xs h = None <-> xs = [] /\ h = []) /\
  (forall ys, SignalRecovery.convolve xs h = Some ys ->
              length ys = (length xs + length h - 1)%nat) /\
  (xs <> [] -> SignalRecovery.convolve xs [1] = Some xs).
Proof.
  split; [|split].
  - split.
    + destruct xs; [destruct h|]; simpl; intros Hc;
        try discriminate; split; reflexivity.
    + intros [-> ->]. reflexivity.
  - apply length_convolve.
  - intros Hne. rewrite convolve_defined
      by (destruct xs; [congruence | simpl; lia]).
    f_equal. cbn [length].
    replace (length xs + 1 - 1)%nat with (length xs) by lia.
    rewrite <- (map_nth_seq_id xs) at 3.
    apply map_ext_in. intros i Hi. apply in_seq in Hi.
    apply conv_at_unit. lia.
Qed.

(** X22: [generateSignal] moves to stage 2 and writes
    [samplesPerSymbol] samples per bit, +1 for the character 1 and -1 for
    any other character, followed by two symbol periods of silence. *)
Theorem X22_generateSignal_waveform (st : SignalRecovery.State) :
  SignalRecovery.stage (SignalRecovery.generateSignal st) = 2%nat /\
  length (SignalRecovery.signalX (SignalRecovery.generateSignal st)) =
    ((String.length (SignalRecovery.inputBits st) + 2) *
     SignalRecovery.samplesPerSymbol st)%nat /\
  (forall i r,
     (i < String.length (SignalRecovery.inputBits st))%nat ->
     (r < SignalRecovery.samplesPerSymbol st)%nat ->
     nth (i * SignalRecovery.samplesPerSymbol st + r)
         (SignalRecovery.signalX (SignalRecovery.generateSignal st)) 0 =
     if Ascii.eqb
          (nth i (list_ascii_of_string (SignalRecovery.inputBits st))
               "0"%char) "1"%char
     then 1 else -1) /\
  (forall k,
     (String.length (SignalRecovery.inputBits st) *
      SignalRecovery.samplesPerSymbol st <= k)%nat ->
     nth k (SignalRecovery.signalX (SignalRecovery.generateSignal st)) 0
     = 0).
Proof.
  cbn [SignalRecovery.stage SignalRecovery.signalX
       SignalRecovery.generateSignal].
  set (s := SignalRecovery.inputBits st).
  set (sps := SignalRecovery.samplesPerSymbol st).
  split; [reflexivity|]. split; [|split].
  - rewrite length_generate_samples, length_bits_of. lia.
  - intros i r Hi Hr. unfold SignalRecovery.generate_samples.
    rewrite nth_symbol_block
      by (try rewrite length_bits_of; assumption).
    unfold SignalRecovery.bits_of.
    change 0%nat with (SignalRecovery.bit_of_char "0"%char) at 1.
    rewrite map_nth.
    unfold SignalRecovery.symbol_of_bit, SignalRecovery.bit_of_char.
    destruct (Ascii.eqb _ "1"%char); reflexivity.
  - intros k Hk. unfold SignalRecovery.generate_samples.
    rewrite app_nth2 by (rewrite length_symbols, length_bits_of; lia).
    apply nth_repeat.
Qed.

(** X23: When the largest tap delay [m] is at least -1,
    [generateChannel] moves to stage 3 with an impulse response of
    [m + 1] samples in which the sample at delay [d] is the sum of the
    amplitudes of all taps with that delay; taps with a negative delay
    contribute nothing. *)
Theorem X23_channel_sums_taps (st : SignalRecovery.State) (m : Z) :
  SignalRecovery.max_delay (SignalRecovery.taps st) = Some m ->
  (-1 <= m)%Z ->
  exists st',
    SignalRecovery.generateChannel st = Some st' /\
    SignalRecovery.stage st' = 3%nat /\
    length (SignalRecovery.signalH st') = Z.to_nat (m + 1) /\
    forall d,
      nth d (SignalRecovery.signalH st') 0 =
      0 + SignalRecovery.taps_at (SignalRecovery.taps st) d.
Proof.
  intros Hm Hge.
  destruct (channel_response_taps _ m Hm Hge) as (h & Hch & Hlen & Hn).
  unfold SignalRecovery.generateChannel. rewrite Hch.
  eexists. split; [reflexivity|]. cbn. auto.
Qed.

Lemma X23_channel_sums_taps_witness :
  exists st',
    SignalRecovery.generateChannel
      (SignalRecovery.state_with "1" 4
         [ SignalRecovery.mkTap 2 0.5; SignalRecovery.mkTap (-3) 7;
           SignalRecovery.mkTap 2 0.25 ] 0) = Some st' /\
    SignalRecovery.stage st' = 3%nat /\
    length (SignalRecovery.signalH st') = Z.to_nat (2 + 1) /\
    forall d,
      nth d (SignalRecovery.signalH st') 0 =
      0 + SignalRecovery.taps_at
            [ SignalRecovery.mkTap 2 0.5; SignalRecovery.mkTap (-3) 7;
              SignalRecovery.mkTap 2 0.25 ] d.
Proof.
  apply (X23_channel_sums_taps
           (SignalRecovery.state_with "1" 4
              [ SignalRecovery.mkTap 2 0.5; SignalRecovery.mkTap (-3) 7;
                SignalRecovery.mkTap 2 0.25 ] 0) 2%Z).
  - reflexivity.
  - lia.
Defined.

(** X24: Without noise and with every first draw of the noise stage in
    (0, 1], on a channel whose spectrum stays at or above the floor 1e-6
    in every bin, the equalizer returns the transmitted waveform itself:
    the recovered signal is the signal of stage 1 followed by
    [h.length - 1] zeros. *)
Theorem X24_waveform_recovered
    (draws : nat -> R * R) (st : SignalRecovery.State) :
  SignalRecovery.noiseVariance st = 0 ->
  (forall i, 0 < fst (draws i) <= 1) ->
  (1 <= SignalRecovery.samplesPerSymbol st)%nat ->
  SignalRecovery.taps st <> [] ->
  Forall (fun t => (0 <= SignalRecovery.delay t)%Z)
         (SignalRecovery.taps st) ->
  (forall H, In H (SignalRecovery.channel_spectrum st) ->
             SignalRecovery.epsilon <= SignalRecovery.toPolar_r H) ->
  exists st',
    SignalRecovery.runPipeline draws st = Some st' /\
    SignalRecovery.recoveredSignal st' =
      SignalRecovery.signalX st' ++
      repeat 0 (length (SignalRecovery.signalH st') - 1).
Proof.
  intros Hvar Hdraws Hsps Hne Hdel Hfloor.
  destruct (channel_response_defined _ Hne Hdel) as (h & Hch & Hh).
  set (xs := SignalRecovery.generate_samples
               (SignalRecovery.inputBits st)
               (SignalRecovery.samplesPerSymbol st)).
  assert (Hx : (1 <= length xs)%nat).
  { unfold xs. rewrite length_generate_samples. lia. }
  destruct (runPipeline_noiseless draws st h Hvar Hdraws Hch Hh Hx)
    as (st' & Hrun & _ & Hrec & _).
  exists st'. split; [exact Hrun|].
  destruct (runPipeline_signals draws st st' Hrun) as (_ & HX & HH & _).
  rewrite Hch in HH. injection HH as HH.
  rewrite Hrec, HX, <- HH. fold xs.
  apply (nth_ext _ _ 0 0).
  - rewrite length_recovered_samples, length_app, repeat_length. lia.
  - intros n Hn. rewrite length_recovered_samples in Hn.
    rewrite (recovered_samples_gain xs h 1) by
      (try assumption;
       unfold SignalRecovery.channel_spectrum in Hfloor;
       rewrite Hch in Hfloor;
       intros H HinH; apply equalizer_exact, Hfloor, HinH).
    unfold SignalRecovery.pad_to.
    replace (length xs + length h - 1 - length xs)%nat
      with (length h - 1)%nat by lia.
    lra.
Qed.

Lemma X24_waveform_recovered_witness :
  exists st',
    SignalRecovery.runPipeline SignalRecovery.half_draws
      SignalRecovery.initial_state = Some st' /\
    SignalRecovery.recoveredSignal st' =
      SignalRecovery.signalX st' ++
      repeat 0 (length (SignalRecovery.signalH st') - 1).
Proof.
  apply (X24_waveform_recovered SignalRecovery.half_draws
           SignalRecovery.initial_state).
  - simpl. lra.
  - intros i. simpl. lra.
  - simpl. lia.
  - discriminate.
  - repeat constructor; simpl; lia.
  - apply initial_spectrum_floor.
Defined.

(** X25: Without noise and with every first draw of the noise stage in
    (0, 1], a channel whose taps all have amplitude 0 delivers nothing:
    every recovered sample is 0 and every input bit is decoded as the
    character 0. *)
Theorem X25_silent_channel_decodes_zeros
    (draws : nat -> R * R) (st : SignalRecovery.State) :
  SignalRecovery.noiseVariance st = 0 ->
  (forall i, 0 < fst (draws i) <= 1) ->
  (1 <= SignalRecovery.samplesPerSymbol st)%nat ->
  SignalRecovery.taps st <> [] ->
  Forall (fun t => (0 <= SignalRecovery.delay t)%Z)
         (SignalRecovery.taps st) ->
  Forall (fun t => SignalRecovery.amp t = 0) (SignalRecovery.taps st) ->
  exists st',
    SignalRecovery.runPipeline draws st = Some st' /\
    (forall n, nth n (SignalRecovery.recoveredSignal st') 0 = 0) /\
    SignalRecovery.recoveredBits st' =
      string_of_list_ascii
        (repeat "0"%char (String.length (SignalRecovery.inputBits st))).
Proof.
  intros Hvar Hdraws Hsps Hne Hdel Hamp.
  destruct (channel_response_defined _ Hne Hdel) as (h & Hch & Hh).
  pose proof (channel_response_silent _ h Hamp Hch) as Hzero.
  assert (Hgain : forall H, In H (SignalRecovery.channel_spectrum st) ->
            SignalRecovery.multiply H (SignalRecovery.equalizer_bin H) =
            SignalRecovery.RtoC 0).
  { intros H. unfold SignalRecovery.channel_spectrum. rewrite Hch.
    cbv zeta. unfold SignalRecovery.pad_to. intros Hin.
    destruct (spectrum_bin _ _ _ Hin) as (z & _ & ->).
    rewrite peval_zero by exact Hzero.
    apply complex_eq; simpl; ring. }
  destruct (pipeline_gain draws st h 0
              (repeat "0"%char
                 (String.length (SignalRecovery.inputBits st))))
    as (st' & Hrun & _ & Hbits); try assumption.
  - apply repeat_length.
  - intros i Hi. rewrite nth_repeat.
    unfold SignalRecovery.decide_bit.
    destruct (Rgt_dec _ _) as [Hgt|_]; [exfalso; lra | reflexivity].
  - exists st'. split; [exact Hrun|]. split; [|exact Hbits].
    set (xs := SignalRecovery.generate_samples
                 (SignalRecovery.inputBits st)
                 (SignalRecovery.samplesPerSymbol st)).
    assert (Hx : (1 <= length xs)%nat).
    { unfold xs. rewrite length_generate_samples. lia. }
    destruct (runPipeline_noiseless draws st h Hvar Hdraws Hch Hh Hx)
      as (st'' & Hrun' & _ & Hrec & _).
    rewrite Hrun in Hrun'. injection Hrun' as <-.
    rewrite Hrec. fold xs. intros n.
    destruct (Nat.lt_ge_cases n (length xs + length h - 1)) as [Hn|Hn].
    + rewrite (recovered_samples_gain xs h 0) by
        (try assumption;
         unfold SignalRecovery.channel_spectrum in Hgain;
         rewrite Hch in Hgain; exact Hgain).
      lra.
    + apply nth_overflow. rewrite length_recovered_samples. exact Hn.
Qed.

Lemma X25_silent_channel_decodes_zeros_witness :
  exists st',
    SignalRecovery.runPipeline SignalRecovery.half_draws
      (SignalRecovery.state_with "10110" 10
         [ SignalRecovery.mkTap 0 0 ] 0) = Some st' /\
    (forall n, nth n (SignalRecovery.recoveredSignal st') 0 = 0) /\
    SignalRecovery.recoveredBits st' = "00000"%string.
Proof.
  apply (X25_silent_channel_decodes_zeros SignalRecovery.half_draws
           (SignalRecovery.state_with "10110" 10
              [ SignalRecovery.mkTap 0 0 ] 0)).
  - reflexivity.
  - intros i. simpl. lra.
  - simpl. lia.
  - discriminate.
  - repeat constructor; simpl; lia.
  - repeat constructor.
Defined.

(** X26: On a state whose spectrum [complexY] is not empty and whose
    equalizer [complexE] has an entry for each of its bins,
    [performEqualization] succeeds, leaves the stage as it is, returns
    one recovered sample per bin, and decodes a string of the characters
    0 and 1 that is never longer than the input; the string has one
    character per input bit as soon as every sampling point lies inside
    the recovered signal. *)
Theorem X26_decoded_string_shape (st : SignalRecovery.State) :
  SignalRecovery.complexY st <> [] ->
  (length (SignalRecovery.complexY st) <=
   length (SignalRecovery.complexE st))%nat ->
  exists st',
    SignalRecovery.performEqualization st = Some st' /\
    SignalRecovery.stage st' = SignalRecovery.stage st /\
    length (SignalRecovery.recoveredSignal st') =
      length (SignalRecovery.complexY st) /\
    SignalRecovery.binary_string (SignalRecovery.recoveredBits st') /\
    (String.length (SignalRecovery.recoveredBits st') <=
     String.length (SignalRecovery.inputBits st))%nat /\
    ((forall i, (i < String.length (SignalRecovery.inputBits st))%nat ->
        (SignalRecovery.sample_index
           (SignalRecovery.samplesPerSymbol st) i
         < length (SignalRecovery.complexY st))%nat) ->
     String.length (SignalRecovery.recoveredBits st') =
     String.length (SignalRecovery.inputBits st)).
Proof.
  intros Hne Hlen.
  unfold SignalRecovery.performEqualization.
  destruct (Nat.ltb_spec (length (SignalRecovery.complexE st))
              (length (SignalRecovery.complexY st))) as [Hlt|_]; [lia|].
  destruct (Nat.eqb_spec (length (SignalRecovery.complexY st)) 0)
    as [H0|_].
  { destruct (SignalRecovery.complexY st); [congruence | discriminate]. }
  cbn [orb]. eexists. split; [reflexivity|].
  cbn [SignalRecovery.stage SignalRecovery.recoveredSignal
       SignalRecovery.recoveredBits].
  split; [reflexivity|].
  assert (Hrec : length
            (map SignalRecovery.re
               (SignalRecovery.ifft
                  (map (fun i =>
                          SignalRecovery.multiply
                            (nth i (SignalRecovery.complexY st)
                                 SignalRecovery.C0)
                            (nth i (SignalRecovery.complexE st)
                                 SignalRecovery.C0))
                       (seq 0 (length (SignalRecovery.complexY st))))))
            = length (SignalRecovery.complexY st)).
  { now rewrite length_map, length_ifft, length_map, length_seq. }
  split; [exact Hrec|].
  pose proof (decode_prefix (SignalRecovery.samplesPerSymbol st)
                (map SignalRecovery.re
                   (SignalRecovery.ifft
                      (map (fun i =>
                              SignalRecovery.multiply
                                (nth i (SignalRecovery.complexY st)
                                     SignalRecovery.C0)
                                (nth i (SignalRecovery.complexE st)
                                     SignalRecovery.C0))
                           (seq 0 (length (SignalRecovery.complexY st))))))
                (String.length (SignalRecovery.inputBits st))) as Hd.
  cbv zeta in Hd. rewrite Hrec in Hd. exact Hd.
Qed.

Lemma X26_decoded_string_shape_witness :
  exists st',
    SignalRecovery.performEqualization SignalRecovery.two_bin_state
      = Some st' /\
    SignalRecovery.stage st' = 5%nat /\
    length (SignalRecovery.recoveredSignal st') = 2%nat /\
    SignalRecovery.binary_string (SignalRecovery.recoveredBits st') /\
    (String.length (SignalRecovery.recoveredBits st') <= 1)%nat /\
    ((forall i, (i < 1)%nat ->
        (SignalRecovery.sample_index 1 i < 2)%nat) ->
     String.length (SignalRecovery.recoveredBits st') = 1%nat).
Proof.
  apply (X26_decoded_string_shape SignalRecovery.two_bin_state).
  - discriminate.
  - simpl. lia.
Defined.

(** X27: Without noise and with every first draw of the noise stage in
    (0, 1], the bits are recovered exactly whenever the direct tap of the
    impulse response exceeds the summed magnitudes of all later samples
    by at least the floor 1e-6. *)
Theorem X27_dominant_direct_path
    (draws : nat -> R * R) (st : SignalRecovery.State)
    (a : R) (l : list R) :
  SignalRecovery.noiseVariance st = 0 ->
  (forall i, 0 < fst (draws i) <= 1) ->
  (1 <= SignalRecovery.samplesPerSymbol st)%nat ->
  SignalRecovery.binary_string (SignalRecovery.inputBits st) ->
  SignalRecovery.channel_response (SignalRecovery.taps st)
    = Some (a :: l) ->
  SignalRecovery.epsilon <= Rabs a - SignalRecovery.sum_abs l ->
  exists st',
    SignalRecovery.runPipeline draws st = Some st' /\
    SignalRecovery.recoveredBits st' = SignalRecovery.inputBits st.
Proof.
  intros Hvar Hdraws Hsps Hbin Hch Hdom.
  apply (pipeline_exact draws st (a :: l)); try assumption.
  - simpl. lia.
  - apply (spectrum_floor_of_dominant_tap st a l); assumption.
Qed.

Lemma X27_dominant_direct_path_witness :
  exists st',
    SignalRecovery.runPipeline SignalRecovery.half_draws
      SignalRecovery.initial_state = Some st' /\
    SignalRecovery.recoveredBits st' = "10110"%string.
Proof.
  apply (X27_dominant_direct_path SignalRecovery.half_draws
           SignalRecovery.initial_state (0 + 1.0)
           [0; 0; 0; 0; 0 + 0.5; 0; 0; 0; 0; 0; 0; 0 + -0.3]).
  - simpl. lra.
  - intros i. simpl. lra.
  - simpl. lia.
  - unfold SignalRecovery.binary_string. simpl.
    repeat (apply Forall_cons;
            [(left; reflexivity) || (right; reflexivity)|]).
    apply Forall_nil.
  - apply initial_channel_response.
  - apply initial_taps_dominant.
Defined.

(** X28: The result of the five stages depends only on the bits, the
    samples per symbol, the taps, the noise level and the random draws:
    two states that agree on these give the same final state, whatever
    earlier runs left in their other fields; in particular [reset]
    followed by a new run reproduces the run. *)
Theorem X28_pipeline_ignores_stale_state
    (draws : nat -> R * R) (st1 st2 : SignalRecovery.State) :
  SignalRecovery.inputBits st1 = SignalRecovery.inputBits st2 ->
  SignalRecovery.samplesPerSymbol st1 =
    SignalRecovery.samplesPerSymbol st2 ->
  SignalRecovery.taps st1 = SignalRecovery.taps st2 ->
  SignalRecovery.noiseVariance st1 = SignalRecovery.noiseVariance st2 ->
  SignalRecovery.runPipeline draws st1 =
    SignalRecovery.runPipeline draws st2 /\
  SignalRecovery.runPipeline draws (SignalRecovery.reset st1) =
    SignalRecovery.runPipeline draws st1.
Proof.
  intros Hb Hs Ht Hv.
  unfold SignalRecovery.runPipeline, SignalRecovery.generateChannel,
    SignalRecovery.convolveSignals, SignalRecovery.generateSignal,
    SignalRecovery.reset.
  cbn [SignalRecovery.taps SignalRecovery.signalX SignalRecovery.signalH
       SignalRecovery.inputBits SignalRecovery.samplesPerSymbol
       SignalRecovery.noiseVariance].
  rewrite Hb, Hs, Ht, Hv.
  destruct (SignalRecovery.channel_response (SignalRecovery.taps st2))
    as [h|]; [|split; reflexivity].
  cbn [SignalRecovery.taps SignalRecovery.signalX SignalRecovery.signalH
       SignalRecovery.inputBits SignalRecovery.samplesPerSymbol
       SignalRecovery.noiseVariance].
  destruct (SignalRecovery.convolve _ h) as [ys|]; [|split; reflexivity].
  destruct (SignalRecovery.add_noise _ _ ys) as [yn|];
    [|split; reflexivity].
  unfold SignalRecovery.performFFT. cbn [SignalRecovery.signalYNoisy].
  destruct (length yn =? 0)%nat; [split; reflexivity|].
  unfold SignalRecovery.performEqualization.
  cbn [SignalRecovery.complexY SignalRecovery.complexE].
  destruct (_ || _); split; reflexivity.
Qed.

Lemma X28_pipeline_ignores_stale_state_witness :
  SignalRecovery.runPipeline SignalRecovery.half_draws
    SignalRecovery.initial_state =
  SignalRecovery.runPipeline SignalRecovery.half_draws
    (SignalRecovery.generateSignal SignalRecovery.initial_state) /\
  SignalRecovery.runPipeline SignalRecovery.half_draws
    (SignalRecovery.reset SignalRecovery.initial_state) =
  SignalRecovery.runPipeline SignalRecovery.half_draws
    SignalRecovery.initial_state.
Proof.
  apply (X28_pipeline_ignores_stale_state SignalRecovery.half_draws
           SignalRecovery.initial_state
           (SignalRecovery.generateSignal SignalRecovery.initial_state));
    reflexivity.
Defined.

(** X29: The convolution theorem for the two transforms of stage 4: in
    every bin, the spectrum of the received signal is the product of the
    spectra of the transmitted signal and of the impulse response, both
    zero-padded to the received length. *)
Theorem X29_received_spectrum_is_product
    (xs h ys : list R) (k : nat) :
  (1 <= length xs)%nat -> (1 <= length h)%nat ->
  SignalRecovery.convolve xs h = Some ys ->
  (k < length ys)%nat ->
  nth k (SignalRecovery.fft (map SignalRecovery.RtoC ys))
      SignalRecovery.C0 =
  SignalRecovery.multiply
    (nth k (SignalRecovery.fft
              (map SignalRecovery.RtoC
                 (SignalRecovery.pad_to (length ys) xs)))
         SignalRecovery.C0)
    (nth k (SignalRecovery.fft
              (map SignalRecovery.RtoC
                 (SignalRecovery.pad_to (length ys) h)))
         SignalRecovery.C0).
Proof.
  intros Hx Hh Hc Hk.
  pose proof (length_convolve _ _ _ Hc) as Hlen.
  rewrite convolve_defined in Hc by assumption. injection Hc as Hys.
  assert (Lx : length (SignalRecovery.pad_to (length ys) xs) = length ys)
    by (apply length_pad_to; lia).
  assert (Lh : length (SignalRecovery.pad_to (length ys) h) = length ys)
    by (apply length_pad_to; lia).
  rewrite !fft_real_peval by lia.
  rewrite Lx, Lh.
  unfold SignalRecovery.pad_to. rewrite !peval_pad.
  rewrite <- Hys at 1. apply peval_conv.
Qed.

Lemma X29_received_spectrum_is_product_witness :
  nth 1 (SignalRecovery.fft
           (map SignalRecovery.RtoC
              [0 + 1 * 1; 0 + -1 * 1 + 1 * 0;
               0 + -1 * 0 + 1 * (1 / 2); 0 + -1 * (1 / 2)]))
      SignalRecovery.C0 =
  SignalRecovery.multiply
    (nth 1 (SignalRecovery.fft
              (map SignalRecovery.RtoC
                 (SignalRecovery.pad_to 4 [1; -1])))
         SignalRecovery.C0)
    (nth 1 (SignalRecovery.fft
              (map SignalRecovery.RtoC
                 (SignalRecovery.pad_to 4 [1; 0; 1 / 2])))
         SignalRecovery.C0).
Proof.
  apply (X29_received_spectrum_is_product [1; -1] [1; 0; 1 / 2]
           [0 + 1 * 1; 0 + -1 * 1 + 1 * 0;
            0 + -1 * 0 + 1 * (1 / 2); 0 + -1 * (1 / 2)] 1%nat).
  - simpl. lia.
  - simpl. lia.
  - reflexivity.
  - simpl. lia.
Defined.

(** ** Cellular: the reuse pattern *)

Section CellularFacts.
Import Cellular.
Local Open Scope Z_scope.

Lemma N_pos (i j : Z) : 1 <= N i j.
Proof.
  unfold N. cbv zeta.
  destruct (Z.eqb_spec (i * i + i * j + j * j) 0); [lia|]. nia.
Qed.

Lemma N_divides_form (i j : Z) : (N i j | i * i + i * j + j * j).
Proof.
  unfold N. cbv zeta.
  destruct (Z.eqb_spec (i * i + i * j + j * j) 0) as [->|_].
  - apply Z.divide_0_r.
  - apply Z.divide_refl.
Qed.

Lemma clusterIdx_mod (i j q r : Z) :
  clusterIdx i j q r = (q * i + r * (i + j)) mod N i j.
Proof.
  unfold clusterIdx. pose proof (N_pos i j) as HN.
  set (n := N i j) in *. set (v := q * i + r * (i + j)).
  assert (Hr : - n < Z.rem v n < n).
  { pose proof (Z.rem_bound_abs v n ltac:(lia)). lia. }
  assert (Hm : (Z.rem v n + n) mod n = v mod n).
  { rewrite <- (Z.mod_add v 1 n) by lia.
    assert (Hd : (n | v - Z.rem v n)).
    { exists (Z.quot v n). pose proof (Z.quot_rem' v n). lia. }
    destruct Hd as [k Hk].
    replace (v + 1 * n) with (Z.rem v n + n + k * n) by lia.
    now rewrite Z.mod_add by lia. }
  rewrite Z.rem_mod_nonneg by lia. exact Hm.
Qed.

End CellularFacts.

(** X30: The frequency group of a cell is the least non-negative residue
    of [q i + r (i + j)] modulo the cluster size, hence an index into the
    [N] colours; the centre cell and the cell [(i, j)] joined by the
    co-channel line both lie in group 0, and shifting a cell by [(i, j)]
    never changes its group. *)
Theorem X30_reuse_pattern (i j q r : Z) :
  (1 <= Cellular.N i j)%Z /\
  (0 <= Cellular.clusterIdx i j q r < Cellular.N i j)%Z /\
  Cellular.clusterIdx i j q r =
    ((q * i + r * (i + j)) mod Cellular.N i j)%Z /\
  Cellular.isRed i j 0 0 = true /\
  Cellular.isRed i j i j = true /\
  Cellular.clusterIdx i j (q + i) (r + j) = Cellular.clusterIdx i j q r.
Proof.
  pose proof (N_pos i j) as HN.
  pose proof (N_divides_form i j) as [k Hk].
  split; [exact HN|]. split; [|split; [|split; [|split]]].
  - rewrite clusterIdx_mod. apply Z.mod_pos_bound. lia.
  - apply clusterIdx_mod.
  - unfold Cellular.isRed. rewrite clusterIdx_mod.
    replace (0 * i + 0 * (i + j))%Z with 0%Z by ring.
    now rewrite Z.mod_0_l by lia.
  - unfold Cellular.isRed. rewrite clusterIdx_mod.
    replace (i * i + j * (i + j))%Z with (k * Cellular.N i j)%Z by lia.
    now rewrite Z.mod_mul by lia.
  - rewrite !clusterIdx_mod.
    replace ((q + i) * i + (r + j) * (i + j))%Z
      with (q * i + r * (i + j) + k * Cellular.N i j)%Z by lia.
    apply Z.mod_add. lia.
Qed.
